(** * EconomicAIAgent: the per-step action cycle and the trading protocol

    A shallow embedding of [agent.py] and [trading.py].  Python objects
    that are shared and mutated ([Agent] instances, the [Market], the
    environment) live in one explicit store, the [World]; an agent
    reference is its index in the store, so that [a is not self] is a
    comparison of indices.  Python [int] is [Z], [str] is [string]
    (responses of the decision backend are taken to be ASCII), a tuple of
    two ints is [Z * Z].

    The modules [config], [llm] and [environment] are not part of the
    sources at hand: the configuration constants are a [Config] record the
    whole development is parametrised by, the decision backend is a queue
    of answers yet to come, and the pseudo-random generator is a sequence
    of draws yet to come. *)

From Stdlib Require Import ZArith Ascii String List Lia.
From stdpp Require Import base decidable option list strings pretty gmap.

Local Open Scope string_scope.
Local Open Scope list_scope.
Local Open Scope Z_scope.

(** ** Python values *)

(** The characters [str.split()] cuts at, within ASCII. *)
Definition is_whitespace (c : ascii) : bool :=
  let n := nat_of_ascii c in
  ((9 <=? n)%nat && (n <=? 13)%nat) || ((28 <=? n)%nat && (n <=? 32)%nat).

(** [s.split()]: the maximal runs of characters that are not whitespace. *)
Fixpoint split_from (cur : string) (s : string) : list string :=
  match s with
  | EmptyString => if decide (cur = "") then [] else [cur]
  | String c rest =>
      if is_whitespace c
      then (if decide (cur = "") then split_from "" rest
            else cur :: split_from "" rest)
      else split_from (cur +:+ String c "") rest
  end.

Definition split (s : string) : list string := split_from "" s.

(** [s.startswith(p)]. *)
Definition startswith (s p : string) : bool := String.prefix p s.

(** [str(n)] for an int. *)
Definition str_int (n : Z) : string := pretty n.

(** [str((x, y))] for a tuple of two ints. *)
Definition str_pos (p : Z * Z) : string :=
  "(" +:+ str_int p.1 +:+ ", " +:+ str_int p.2 +:+ ")".

(** [l[start:]], with Python's reading of a negative start. *)
Definition slice_from {A} (start : Z) (l : list A) : list A :=
  let n := Z.of_nat (length l) in
  let i := if decide (start < 0) then Z.max 0 (n + start) else Z.min start n in
  drop (Z.to_nat i) l.

(** Truth value of an optional string: [None] and [""] are false. *)
Definition truthy (s : option string) : bool :=
  match s with
  | Some t => bool_decide (t ≠ "")
  | None => false
  end.

(** [s or d]. *)
Definition or_default (s : option string) (d : string) : string :=
  match s with
  | Some t => if decide (t = "") then d else t
  | None => d
  end.

(** ** Data model *)

(** The two dictionaries keyed by ['red'] and ['green']: an inventory and
    a pair of consumption rates. *)
Record Resources := { red : Z; green : Z }.

Global Instance Resources_eq_dec : EqDecision Resources.
Proof. solve_decision. Defined.

(** [str(d)] for such a dictionary. *)
Definition str_resources (r : Resources) : string :=
  "{'red': " +:+ str_int (red r) +:+ ", 'green': " +:+ str_int (green r) +:+ "}".

(** [key in d]. *)
Definition in_resources (key : string) : bool :=
  bool_decide (key = "red") || bool_decide (key = "green").

(** [d[key] += n]; [None] stands for the [KeyError]. *)
Definition resources_add (key : string) (n : Z) (r : Resources) : option Resources :=
  if decide (key = "red") then Some {| red := red r + n; green := green r |}
  else if decide (key = "green") then Some {| red := red r; green := green r + n |}
  else None.

(** class Agent.  [movement_history] is never read or written by the code
    that runs and is left out. *)
Record Agent := {
  name : string;
  position : Z * Z;
  inventory : Resources;
  energy : Z;
  alive : bool;
  consumption_rates : Resources;
  actions_taken : list string;
  memory : list string;
  step_count : Z
}.

Definition set_position (p : Z * Z) (a : Agent) : Agent :=
  {| name := name a; position := p; inventory := inventory a;
     energy := energy a; alive := alive a;
     consumption_rates := consumption_rates a;
     actions_taken := actions_taken a; memory := memory a;
     step_count := step_count a |}.

Definition set_inventory (r : Resources) (a : Agent) : Agent :=
  {| name := name a; position := position a; inventory := r;
     energy := energy a; alive := alive a;
     consumption_rates := consumption_rates a;
     actions_taken := actions_taken a; memory := memory a;
     step_count := step_count a |}.

Definition set_energy (e : Z) (a : Agent) : Agent :=
  {| name := name a; position := position a; inventory := inventory a;
     energy := e; alive := alive a;
     consumption_rates := consumption_rates a;
     actions_taken := actions_taken a; memory := memory a;
     step_count := step_count a |}.

Definition set_alive (b : bool) (a : Agent) : Agent :=
  {| name := name a; position := position a; inventory := inventory a;
     energy := energy a; alive := b;
     consumption_rates := consumption_rates a;
     actions_taken := actions_taken a; memory := memory a;
     step_count := step_count a |}.

Definition set_actions_taken (l : list string) (a : Agent) : Agent :=
  {| name := name a; position := position a; inventory := inventory a;
     energy := energy a; alive := alive a;
     consumption_rates := consumption_rates a;
     actions_taken := l; memory := memory a;
     step_count := step_count a |}.

Definition set_memory (l : list string) (a : Agent) : Agent :=
  {| name := name a; position := position a; inventory := inventory a;
     energy := energy a; alive := alive a;
     consumption_rates := consumption_rates a;
     actions_taken := actions_taken a; memory := l;
     step_count := step_count a |}.

Definition set_step_count (n : Z) (a : Agent) : Agent :=
  {| name := name a; position := position a; inventory := inventory a;
     energy := energy a; alive := alive a;
     consumption_rates := consumption_rates a;
     actions_taken := actions_taken a; memory := memory a;
     step_count := n |}.

(** Agent.type *)
Definition type (a : Agent) : string :=
  let r := red (consumption_rates a) in
  let g := green (consumption_rates a) in
  if decide (r > g) then "red"
  else if decide (g > r) then "green"
  else "balanced".

(** @dataclass TradeOffer; equality is equality of the fields. *)
Record TradeOffer := {
  offerer : string;
  target : string;
  offer_red : Z;
  offer_green : Z;
  request_red : Z;
  request_green : Z;
  step : Z
}.

Global Instance TradeOffer_eq_dec : EqDecision TradeOffer.
Proof. solve_decision. Defined.

(** TradeOffer.__str__ *)
Definition str_offer (o : TradeOffer) : string :=
  offerer o +:+ "→" +:+ target o +:+ ": Offer(" +:+ str_int (offer_red o)
  +:+ "R," +:+ str_int (offer_green o) +:+ "G) for ("
  +:+ str_int (request_red o) +:+ "R," +:+ str_int (request_green o) +:+ "G)".

(** class Market *)
Record Market := {
  offers : list TradeOffer;
  completed_trades : list TradeOffer;
  trade_log : list string
}.

(** Modelled from the spec: the environment capability ([environment.py]
    is missing).  A square grid of side [size]; a cell holds a resource
    marker or nothing.  [get_cell_content] reads a cell and [clear_cell]
    empties it. *)
Module Env.
Record Environment := {
  size : Z;
  grid : gmap (Z * Z) string
}.
End Env.
Abbreviation Environment := Env.Environment.

Definition get_cell_content (e : Environment) (x y : Z) : option string :=
  Env.grid e !! (x, y).

Definition clear_cell (e : Environment) (x y : Z) : Environment :=
  {| Env.size := Env.size e; Env.grid := delete (x, y) (Env.grid e) |}.

(** The keyword arguments of one call of [llm.get_agent_action]. *)
Record Request := {
  agent_name : string;
  req_position : Z * Z;
  req_inventory : Resources;
  cell_content : option string;
  req_energy : Z;
  consumption_rate : Resources;
  req_memory : list string;
  grid_image_base64 : option string;
  retry_message : option string
}.

(** The constants of [config.py] the two modules read. *)
Record Config := {
  ENERGY_LOSS_PER_TURN : Z;
  AGENT_MEMORY_SIZE : Z;
  TRADE_RANGE : Z;
  RAND_MODE : Z
}.

(** ** The store and the monad of the simulation *)

(** Everything the two modules read and write.  [agents] holds the Agent
    objects, a reference to one being its index; [llm_responses] are the
    answers the decision backend will give to the calls to come and
    [llm_requests] the calls made so far; [rng] are the draws of the
    module [random] to come. *)
Record World := {
  agents : list Agent;
  environment : Environment;
  market : Market;
  llm_responses : list (option string);
  llm_requests : list Request;
  rng : list nat
}.

Definition set_agents (l : list Agent) (w : World) : World :=
  {| agents := l; environment := environment w; market := market w;
     llm_responses := llm_responses w; llm_requests := llm_requests w;
     rng := rng w |}.

Definition set_environment (e : Environment) (w : World) : World :=
  {| agents := agents w; environment := e; market := market w;
     llm_responses := llm_responses w; llm_requests := llm_requests w;
     rng := rng w |}.

Definition set_market (m : Market) (w : World) : World :=
  {| agents := agents w; environment := environment w; market := m;
     llm_responses := llm_responses w; llm_requests := llm_requests w;
     rng := rng w |}.

Definition set_llm (rs : list (option string)) (qs : list Request) (w : World) : World :=
  {| agents := agents w; environment := environment w; market := market w;
     llm_responses := rs; llm_requests := qs; rng := rng w |}.

Definition set_rng (r : list nat) (w : World) : World :=
  {| agents := agents w; environment := environment w; market := market w;
     llm_responses := llm_responses w; llm_requests := llm_requests w;
     rng := r |}.

(** The exceptions the code can raise.  [DanglingReference] is the
    model's own: an index that names no agent, which no Python reference
    can be. *)
Inductive Exception :=
  | IndexError
  | KeyError (key : string)
  | AttributeError (attr : string)
  | DanglingReference.

Inductive Result (A : Type) :=
  | Returned (a : A) (w : World)
  | Raised (e : Exception) (w : World).
Arguments Returned {A} a w.
Arguments Raised {A} e w.

(** The store a call leaves behind, however it ends. *)
Definition world_of {A} (r : Result A) : World :=
  match r with
  | Returned _ w => w
  | Raised _ w => w
  end.

Definition M (A : Type) : Type := World → Result A.

Global Instance M_ret : MRet M := λ A a w, Returned a w.

Global Instance M_bind : MBind M := λ A B f m w,
  match m w with
  | Returned a w' => f a w'
  | Raised e w' => Raised e w'
  end.

Definition raise {A} (e : Exception) : M A := λ w, Raised e w.
Definition gets {A} (f : World → A) : M A := λ w, Returned (f w) w.
Definition modify (f : World → World) : M unit := λ w, Returned () (f w).

(** Reading and writing an agent through a reference. *)
Definition deref (i : nat) : M Agent := λ w,
  match agents w !! i with
  | Some a => Returned a w
  | None => Raised DanglingReference w
  end.

Definition update (i : nat) (f : Agent → Agent) : M unit := λ w,
  match agents w !! i with
  | Some a => Returned () (set_agents (<[i := f a]> (agents w)) w)
  | None => Raised DanglingReference w
  end.

(** [seq[i]]. *)
Definition index {A} (l : list A) (i : nat) : M A :=
  match l !! i with
  | Some x => mret x
  | None => raise IndexError
  end.

(** A [for] loop whose body may [return]: the body either hands the
    loop's local variables to the next round or returns a value. *)
Inductive LoopStep (S R : Type) :=
  | Continue (s : S)
  | Return (r : R).
Arguments Continue {S R} s.
Arguments Return {S R} r.

Fixpoint for_each {A S R} (xs : list A) (body : A → S → M (LoopStep S R))
    (s : S) : M (LoopStep S R) :=
  match xs with
  | [] => mret (Continue s)
  | x :: rest =>
      r ← body x s;
      match r with
      | Continue s' => for_each rest body s'
      | Return v => mret (Return v)
      end
  end.

(** A [for] loop without [return], with the local variables [s] it
    updates. *)
Fixpoint for_ {A S} (xs : list A) (body : A → S → M S) (s : S) : M S :=
  match xs with
  | [] => mret s
  | x :: rest => s' ← body x s; for_ rest body s'
  end.

(** [range(n)]. *)
Definition range (n : nat) : list nat := seq 0 n.

(** *** The module [random] *)

(** [random._randbelow(n)]: the next draw, brought below [n]. *)
Definition randbelow (n : nat) : M nat := λ w,
  match rng w with
  | [] => Returned 0%nat w
  | d :: ds => Returned (d mod n)%nat (set_rng ds w)
  end.

(** [random.choice(seq)]. *)
Definition random_choice {A} (l : list A) : M A :=
  i ← randbelow (length l);
  index l i.

(** [random.random() < 0.5]: decided by the parity of the next draw. *)
Definition random_below_half : M bool := λ w,
  match rng w with
  | [] => Returned true w
  | d :: ds => Returned (Nat.even d) (set_rng ds w)
  end.

(** [x[i], x[j] = x[j], x[i]]. *)
Definition swap {A} (i j : nat) (l : list A) : list A :=
  match l !! i, l !! j with
  | Some a, Some b => <[j := a]> (<[i := b]> l)
  | _, _ => l
  end.

(** [random.shuffle(x)]: for [i] from [len(x) - 1] down to [1], swap
    [x[i]] with [x[j]] for a drawn [j <= i]. *)
Fixpoint shuffle_from {A} (i : nat) (l : list A) : M (list A) :=
  match i with
  | O => mret l
  | S i' => j ← randbelow (S i); shuffle_from i' (swap i j l)
  end.

Definition random_shuffle {A} (l : list A) : M (list A) :=
  shuffle_from (length l - 1) l.

(** *** The decision backend *)

(** Modelled from the spec: [llm.get_agent_action] ([llm.py] is
    missing).  The request is recorded and the next answer is handed out:
    an action string, or an empty or absent one. *)
Definition get_agent_action (q : Request) : M (option string) := λ w,
  match llm_responses w with
  | [] => Returned None (set_llm [] (llm_requests w ++ [q]) w)
  | r :: rs => Returned r (set_llm rs (llm_requests w ++ [q]) w)
  end.

(** ** agent.py *)

Section Simulation.

Variable config : Config.

(** Agent.add_memory *)
Definition add_memory (self : nat) (observation action outcome : string) : M unit :=
  me ← deref self;
  let entry :=
    "Step " +:+ str_int (step_count me) +:+ ": "
    +:+ "Action: " +:+ action +:+ " | "
    +:+ "Observation: " +:+ observation +:+ " | "
    +:+ "Outcome: " +:+ outcome +:+ " | "
    +:+ "Energy: " +:+ str_int (energy me) +:+ " | "
    +:+ "Inventory: " +:+ str_resources (inventory me) in
  update self (λ a, set_memory (memory a ++ [entry]) a);;
  me ← deref self;
  if decide (Z.of_nat (length (memory me)) > AGENT_MEMORY_SIZE config)
  then update self (λ a, set_memory (slice_from (- AGENT_MEMORY_SIZE config) (memory a)) a)
  else mret ().

(** The counters [nearby] of [get_current_observation]. *)
Record Nearby := { near_red : Z; near_green : Z; near_agents : Z }.

(** [if c in nearby: nearby[c] += 1] *)
Definition count_cell (c : option string) (n : Nearby) : Nearby :=
  match c with
  | Some k =>
      if decide (k = "red") then
        {| near_red := near_red n + 1; near_green := near_green n;
           near_agents := near_agents n |}
      else if decide (k = "green") then
        {| near_red := near_red n; near_green := near_green n + 1;
           near_agents := near_agents n |}
      else if decide (k = "agents") then
        {| near_red := near_red n; near_green := near_green n;
           near_agents := near_agents n + 1 |}
      else n
  | None => n
  end.

(** The two nested loops over [dx] and [dy] in [(-1, 0, 1)]. *)
Definition scan_cells (e : Environment) (x y : Z) (n : Nearby) : Nearby :=
  foldl (λ acc dx,
    foldl (λ acc dy,
      let nx := x + dx in
      let ny := y + dy in
      if decide (0 ≤ nx < Env.size e ∧ 0 ≤ ny < Env.size e)
      then count_cell (get_cell_content e nx ny) acc
      else acc) acc [-1; 0; 1]) n [-1; 0; 1].

(** The loop over [all_agents]. *)
Definition scan_agents (l : list Agent) (self : nat) (x y : Z)
    (all_agents : list nat) (n : Nearby) : Nearby :=
  foldl (λ acc i,
    match l !! i with
    | Some other =>
        if decide (alive other = true ∧ i ≠ self
                   ∧ Z.abs ((position other).1 - x) ≤ 1
                   ∧ Z.abs ((position other).2 - y) ≤ 1)
        then {| near_red := near_red acc; near_green := near_green acc;
                near_agents := near_agents acc + 1 |}
        else acc
    | None => acc
    end) n all_agents.

(** Agent.get_current_observation *)
Definition get_current_observation (self : nat) (all_agents : list nat) : M string :=
  me ← deref self;
  e ← gets environment;
  l ← gets agents;
  let '(x, y) := position me in
  let cell := or_default (get_cell_content e x y) "empty" in
  let nearby := {| near_red := 0; near_green := 0; near_agents := 0 |} in
  let nearby := scan_cells e x y nearby in
  let nearby := scan_agents l self x y all_agents nearby in
  mret ("at " +:+ str_pos (position me) +:+ ", cell has " +:+ cell +:+ ", "
        +:+ "nearby " +:+ str_int (near_red nearby) +:+ "R "
        +:+ str_int (near_green nearby) +:+ "G "
        +:+ str_int (near_agents nearby) +:+ "A, "
        +:+ "energy " +:+ str_int (energy me)).

(** [{a.position for a in all_agents if a.alive and a is not self}] *)
Definition occupied_positions (l : list Agent) (self : nat)
    (all_agents : list nat) : gset (Z * Z) :=
  list_to_set
    (omap (λ i,
       match l !! i with
       | Some a =>
           if decide (alive a = true ∧ i ≠ self) then Some (position a) else None
       | None => None
       end) all_agents).

(** The dictionary of the four clamped neighbours, read at [direction];
    [None] stands for the [KeyError]. *)
Definition new_position (size x y : Z) (direction : string) : option (Z * Z) :=
  if decide (direction = "up") then Some (Z.max 0 (x - 1), y)
  else if decide (direction = "down") then Some (Z.min (size - 1) (x + 1), y)
  else if decide (direction = "left") then Some (x, Z.max 0 (y - 1))
  else if decide (direction = "right") then Some (x, Z.min (size - 1) (y + 1))
  else None.

Definition lookup_direction (size x y : Z) (direction : string) : M (Z * Z) :=
  match new_position size x y direction with
  | Some p => mret p
  | None => raise (KeyError direction)
  end.

(** [item and item in self.inventory] *)
Definition collectable (item : option string) : bool :=
  match item with
  | Some k => truthy item && in_resources k
  | None => false
  end.

(** [self.inventory[item] += 1] *)
Definition collect_item (self : nat) (item : option string) : M unit :=
  me ← deref self;
  match item with
  | Some k =>
      match resources_add k 1 (inventory me) with
      | Some r => update self (set_inventory r)
      | None => raise (KeyError k)
      end
  | None => raise (KeyError "None")
  end.

(** The three statements of an [eat]: one unit less, the gain read from
    the consumption rates, the energy raised by it.  Returns the gain. *)
Definition eat_red (self : nat) : M Z :=
  update self (λ a, set_inventory
    {| red := red (inventory a) - 1; green := green (inventory a) |} a);;
  me ← deref self;
  let gain := red (consumption_rates me) in
  update self (λ a, set_energy (energy a + gain) a);;
  mret gain.

Definition eat_green (self : nat) : M Z :=
  update self (λ a, set_inventory
    {| red := red (inventory a); green := green (inventory a) - 1 |} a);;
  me ← deref self;
  let gain := green (consumption_rates me) in
  update self (λ a, set_energy (energy a + gain) a);;
  mret gain.

(** The chain of [if]/[elif] in the loop of [decide_and_act]: validates
    and applies [action], and gives the [result] with the value [retry]
    has afterwards. *)
Definition apply_action (self : nat) (x y : Z) (occupied : gset (Z * Z))
    (action : string) (retry : option string) : M (string * option string) :=
  me ← deref self;
  if startswith action "move" then
    direction ← index (split action) 1;
    e ← gets environment;
    new_pos ← lookup_direction (Env.size e) x y direction;
    if decide ((new_pos ∉ occupied) ∧ new_pos ≠ position me) then
      update self (set_position new_pos);;
      mret ("moved " +:+ direction +:+ " (energy: " +:+ str_int (energy me) +:+ ")",
            retry)
    else
      mret ("move blocked: other agent or wall",
            Some ("move " +:+ direction +:+ " blocked"))
  else if decide (action = "collect") then
    e ← gets environment;
    let item := get_cell_content e x y in
    if collectable item then
      collect_item self item;;
      modify (λ w, set_environment (clear_cell (environment w) x y) w);;
      mret ("collected " +:+ default "" item, retry)
    else
      mret ("nothing to collect", retry)
  else if decide (action = "eat red" ∧ red (inventory me) > 0) then
    gain ← eat_red self;
    mret ("ate red (+" +:+ str_int gain +:+ ")", retry)
  else if decide (action = "eat green" ∧ green (inventory me) > 0) then
    gain ← eat_green self;
    mret ("ate green (+" +:+ str_int gain +:+ ")", retry)
  else if decide (action = "do nothing") then
    mret ("did nothing", retry)
  else
    mret ("failed to act", Some ("action '" +:+ action +:+ "' invalid")).

(** The body of [for _ in range(2)]: one request to the decision
    backend, the action applied, the attempt recorded, and [return
    result] as the last statement of the body. *)
Definition attempt (self : nat) (obs : string) (x y : Z) (cell : option string)
    (occupied : gset (Z * Z)) (retry : option string)
    : M (LoopStep (option string) string) :=
  me ← deref self;
  response ← get_agent_action
    {| agent_name := name me; req_position := position me;
       req_inventory := inventory me; cell_content := cell;
       req_energy := energy me; consumption_rate := consumption_rates me;
       req_memory := memory me; grid_image_base64 := None;
       retry_message := retry |};
  let action := or_default response "do nothing" in
  update self (λ a, set_actions_taken (actions_taken a ++ [action]) a);;
  '(result, retry) ← apply_action self x y occupied action retry;
  add_memory self obs action result;;
  mret (Return result).

(** The list [actions] that [_random_action] chooses from. *)
Definition available_actions (me : Agent) (e : Environment)
    (occupied : gset (Z * Z)) : list string :=
  let '(x, y) := position me in
  let cell := get_cell_content e x y in
  let actions :=
    foldl (λ acts direction,
      match new_position (Env.size e) x y direction with
      | Some new_pos =>
          if decide ((new_pos ∉ occupied) ∧ new_pos ≠ position me)
          then acts ++ ["move " +:+ direction] else acts
      | None => acts
      end) [] ["up"; "down"; "left"; "right"] in
  let actions := if collectable cell then actions ++ ["collect"] else actions in
  let actions :=
    if decide (red (inventory me) > 0) then actions ++ ["eat red"] else actions in
  let actions :=
    if decide (green (inventory me) > 0) then actions ++ ["eat green"] else actions in
  actions ++ ["do nothing"].

(** The chain of [if]/[elif] of [_random_action] that executes the
    chosen action without validating it again; [me] is the agent as it
    was on entry and [e] the environment. *)
Definition perform_action (self : nat) (me : Agent) (e : Environment)
    (action : string) : M string :=
  let '(x, y) := position me in
  if startswith action "move" then
    direction ← index (split action) 1;
    new_pos ← lookup_direction (Env.size e) x y direction;
    update self (set_position new_pos);;
    mret ("moved " +:+ direction +:+ " (energy: " +:+ str_int (energy me) +:+ ")")
  else if decide (action = "collect") then
    e ← gets environment;
    let item := get_cell_content e x y in
    collect_item self item;;
    modify (λ w, set_environment (clear_cell (environment w) x y) w);;
    mret ("collected " +:+ default "None" item)
  else if decide (action = "eat red") then
    gain ← eat_red self;
    mret ("ate red (+" +:+ str_int gain +:+ ")")
  else if decide (action = "eat green") then
    gain ← eat_green self;
    mret ("ate green (+" +:+ str_int gain +:+ ")")
  else
    mret "did nothing".

(** Agent._random_action *)
Definition _random_action (self : nat) (occupied : gset (Z * Z)) : M string :=
  me ← deref self;
  e ← gets environment;
  action ← random_choice (available_actions me e occupied);
  update self (λ a, set_actions_taken (actions_taken a ++ [action]) a);;
  result ← perform_action self me e action;
  obs ← get_current_observation self [];
  add_memory self obs action result;;
  mret result.

(** Agent.decide_and_act.  The parameter [trade_manager] is not used.
    After the loop the source calls [update_movement_history], a method
    the class does not define. *)
Definition decide_and_act (self : nat) (all_agents : list nat) : M string :=
  me ← deref self;
  if negb (alive me) then mret "inactive" else
  update self (λ a, set_step_count (step_count a + 1) a);;
  update self (λ a, set_energy (energy a - ENERGY_LOSS_PER_TURN config) a);;
  me ← deref self;
  if decide (energy me ≤ 0) then
    update self (set_alive false);;
    mret "ran out of energy"
  else
  obs ← get_current_observation self all_agents;
  let '(x, y) := position me in
  e ← gets environment;
  let cell := get_cell_content e x y in
  l ← gets agents;
  let occupied := occupied_positions l self all_agents in
  if decide (RAND_MODE config = 1) then _random_action self occupied else
  r ← for_each (range 2) (λ _ retry, attempt self obs x y cell occupied retry) None;
  match r with
  | Return result => mret result
  | Continue _ =>
      add_memory self obs "no valid action" "failed both retries";;
      raise (AttributeError "update_movement_history")
  end.

(** Agent._random_trade_offer *)
Definition _random_trade_offer (self : nat) (nearby_agents : list nat)
    (step : Z) : M (option TradeOffer) :=
  me ← deref self;
  let total_red := red (inventory me) in
  let total_green := green (inventory me) in
  if decide (total_red < 1 ∧ total_green < 1) then mret None else
  target_ref ← random_choice nearby_agents;
  target_agent ← deref target_ref;
  let offer_types : list (string * Z * Z * Z * Z) := [] in
  let offer_types :=
    if decide (total_red >= 2)
    then offer_types ++ [("2R_for_1G", 2, 0, 0, 1)] else offer_types in
  let offer_types :=
    if decide (total_green >= 2)
    then offer_types ++ [("2G_for_1R", 0, 2, 1, 0)] else offer_types in
  let offer_types :=
    if decide (total_red >= 1)
    then offer_types ++ [("1R_for_2G", 1, 0, 0, 2)] else offer_types in
  let offer_types :=
    if decide (total_green >= 1)
    then offer_types ++ [("1G_for_2R", 0, 1, 2, 0)] else offer_types in
  if decide (offer_types = []) then mret None else
  '(offer_type, o_red, o_green, r_red, r_green) ← random_choice offer_types;
  mret (Some {| offerer := name me; target := name target_agent;
                offer_red := o_red; offer_green := o_green;
                request_red := r_red; request_green := r_green;
                step := step |}).

(** Agent.consider_trade_offer *)
Definition consider_trade_offer (self : nat) (nearby_agents : list nat)
    (step : Z) : M (option TradeOffer) :=
  if decide (TRADE_RANGE config ≤ 0 ∨ nearby_agents = []) then mret None else
  if decide (RAND_MODE config = 1) then _random_trade_offer self nearby_agents step else
  me ← deref self;
  let red_inventory := red (inventory me) in
  let green_inventory := green (inventory me) in
  let red_rate := red (consumption_rates me) in
  let green_rate := green (consumption_rates me) in
  if decide (red_rate > green_rate ∧ green_inventory > 0) then
    target_ref ← random_choice nearby_agents;
    target_agent ← deref target_ref;
    mret (Some {| offerer := name me; target := name target_agent;
                  offer_red := 0; offer_green := Z.min 1 green_inventory;
                  request_red := 1; request_green := 0;
                  step := step |})
  else if decide (green_rate > red_rate ∧ red_inventory > 0) then
    target_ref ← random_choice nearby_agents;
    target_agent ← deref target_ref;
    mret (Some {| offerer := name me; target := name target_agent;
                  offer_red := Z.min 1 red_inventory; offer_green := 0;
                  request_red := 0; request_green := 1;
                  step := step |})
  else mret None.

(** [self.inventory] covers what [offer] requests. *)
Definition covers_request (me : Agent) (offer : TradeOffer) : Prop :=
  red (inventory me) >= request_red offer ∧ green (inventory me) >= request_green offer.

Global Instance covers_request_dec me offer : Decision (covers_request me offer).
Proof. unfold covers_request. apply _. Defined.

(** Agent.consider_trade_acceptance *)
Definition consider_trade_acceptance (self : nat) (offers : list TradeOffer)
    (step : Z) : M (option TradeOffer) :=
  if decide (offers = []) then mret None else
  me ← deref self;
  if decide (RAND_MODE config = 1) then
    r ← for_each offers (λ offer _,
          if decide (covers_request me offer) then
            random_below_half ≫= λ b : bool,
            if b then mret (Return offer) else mret (Continue ())
          else mret (Continue ())) ();
    match r with
    | Return offer => mret (Some offer)
    | Continue _ => mret None
    end
  else
  let red_rate := red (consumption_rates me) in
  let green_rate := green (consumption_rates me) in
  r ← for_each offers (λ offer _,
        if decide (covers_request me offer) then
          if decide (red_rate > green_rate ∧ offer_red offer > 0)
          then mret (Return offer)
          else if decide (green_rate > red_rate ∧ offer_green offer > 0)
          then mret (Return offer)
          else if decide (red_rate = green_rate)
          then mret (Return offer)
          else mret (Continue ())
        else mret (Continue ())) ();
  match r with
  | Return offer => mret (Some offer)
  | Continue _ => mret None
  end.

(** ** trading.py *)

Definition set_offers (l : list TradeOffer) (m : Market) : Market :=
  {| offers := l; completed_trades := completed_trades m;
     trade_log := trade_log m |}.

(** Market.add_offer *)
Definition add_offer (offer : TradeOffer) : M bool :=
  modify (λ w, set_market
    {| offers := offers (market w) ++ [offer];
       completed_trades := completed_trades (market w);
       trade_log := trade_log (market w)
         ++ ["Step " +:+ str_int (step offer) +:+ ": " +:+ str_offer offer] |} w);;
  mret true.

(** Market.get_offers_for_agent *)
Definition get_offers_for_agent (m : Market) (agent_name : string) : list TradeOffer :=
  filter (λ offer, target offer = agent_name) (offers m).

(** [l.remove(x)] for an [x] that may be missing: the first element equal
    to [x] goes. *)
Fixpoint remove_first (x : TradeOffer) (l : list TradeOffer) : list TradeOffer :=
  match l with
  | [] => []
  | y :: rest => if decide (x = y) then rest else y :: remove_first x rest
  end.

(** Market.remove_offer *)
Definition remove_offer (offer : TradeOffer) : M unit :=
  modify (λ w, set_market (set_offers (remove_first offer (offers (market w))) (market w)) w).

(** [a.inventory['red'] += n] and [a.inventory['green'] += n] *)
Definition add_red (n : Z) (a : Agent) : Agent :=
  set_inventory {| red := red (inventory a) + n; green := green (inventory a) |} a.

Definition add_green (n : Z) (a : Agent) : Agent :=
  set_inventory {| red := red (inventory a); green := green (inventory a) + n |} a.

(** The test of [execute_trade] that both inventories cover the trade. *)
Definition resources_available (o t : Agent) (offer : TradeOffer) : Prop :=
  red (inventory o) >= offer_red offer ∧ green (inventory o) >= offer_green offer ∧
  red (inventory t) >= request_red offer ∧ green (inventory t) >= request_green offer.

Global Instance resources_available_dec o t offer :
  Decision (resources_available o t offer).
Proof. unfold resources_available. apply _. Defined.

(** Market.execute_trade.  [agents_dict] maps a name to a reference. *)
Definition execute_trade (offer : TradeOffer) (agents_dict : gmap string nat) : M bool :=
  match agents_dict !! offerer offer, agents_dict !! target offer with
  | Some offerer_ref, Some target_ref =>
      o ← deref offerer_ref;
      t ← deref target_ref;
      if negb (alive o) || negb (alive t) then mret false else
      if decide (resources_available o t offer) then
        update offerer_ref (add_red (- offer_red offer));;
        update offerer_ref (add_green (- offer_green offer));;
        update offerer_ref (add_red (request_red offer));;
        update offerer_ref (add_green (request_green offer));;
        update target_ref (add_red (- request_red offer));;
        update target_ref (add_green (- request_green offer));;
        update target_ref (add_red (offer_red offer));;
        update target_ref (add_green (offer_green offer));;
        modify (λ w, set_market
          {| offers := offers (market w);
             completed_trades := completed_trades (market w) ++ [offer];
             trade_log := trade_log (market w)
               ++ ["Step " +:+ str_int (step offer) +:+ ": TRADE EXECUTED - "
                   +:+ str_offer offer] |} w);;
        mret true
      else mret false
  | _, _ => mret false
  end.

(** Market.clear_offers *)
Definition clear_offers : M unit :=
  modify (λ w, set_market (set_offers [] (market w)) w).

(** calculate_manhattan_distance *)
Definition calculate_manhattan_distance (pos1 pos2 : Z * Z) : Z :=
  Z.abs (pos1.1 - pos2.1) + Z.abs (pos1.2 - pos2.2).

(** The test of the loop of [get_agents_in_trade_range]. *)
Definition within_trade_range (agent other : Agent) (trade_range : Z) : Prop :=
  alive other = true ∧ name other ≠ name agent ∧
  calculate_manhattan_distance (position agent) (position other) ≤ trade_range.

Global Instance within_trade_range_dec agent other trade_range :
  Decision (within_trade_range agent other trade_range).
Proof. unfold within_trade_range. apply _. Defined.

(** get_agents_in_trade_range *)
Definition get_agents_in_trade_range (l : list Agent) (agent : nat)
    (all_agents : list nat) (trade_range : Z) : list nat :=
  if decide (trade_range ≤ 0) then [] else
  omap (λ i,
    match l !! agent, l !! i with
    | Some me, Some other_agent =>
        if decide (within_trade_range me other_agent trade_range)
        then Some i else None
    | _, _ => None
    end) all_agents.

(** [{agent.name: agent for agent in agents}] *)
Definition build_agents_dict (l : list Agent) (roster : list nat) : gmap string nat :=
  foldl (λ d i,
    match l !! i with
    | Some a => <[name a := i]> d
    | None => d
    end) ∅ roster.

(** The test of the comprehension [conflicting_offers]. *)
Definition conflicts_with (accepted_offer offer : TradeOffer) : Prop :=
  offerer offer = offerer accepted_offer ∨ target offer = offerer accepted_offer ∨
  offerer offer = target accepted_offer ∨ target offer = target accepted_offer.

Global Instance conflicts_with_dec accepted_offer offer :
  Decision (conflicts_with accepted_offer offer).
Proof. unfold conflicts_with. apply _. Defined.

(** Phase 1 of [process_trading_phase]: the loop that collects offers. *)
Definition make_offers (roster : list nat) (step : Z)
    (trading_events : list string) : M (list string) :=
  for_ roster (λ agent trading_events,
    a ← deref agent;
    if alive a then
      l ← gets agents;
      let nearby_agents := get_agents_in_trade_range l agent roster (TRADE_RANGE config) in
      if decide (nearby_agents = []) then mret trading_events else
      offer ← consider_trade_offer agent nearby_agents step;
      match offer with
      | Some offer =>
          add_offer offer;;
          mret (trading_events ++ ["  " +:+ str_offer offer])
      | None => mret trading_events
      end
    else mret trading_events) trading_events.

(** The list [agents_with_offers]: each living agent some pending offer
    is addressed to, with the offers addressed to it at this moment. *)
Definition collect_agents_with_offers (roster : list nat)
    : M (list (nat * list TradeOffer)) :=
  for_ roster (λ agent agents_with_offers,
    a ← deref agent;
    if alive a then
      m ← gets market;
      let offers := get_offers_for_agent m (name a) in
      if decide (offers = []) then mret agents_with_offers
      else mret (agents_with_offers ++ [(agent, offers)])
    else mret agents_with_offers) [].

(** The body of the loop of phase 2, for one pair [(agent, offers)]. *)
Definition process_acceptance (agents_dict : gmap string nat) (step : Z)
    (entry : nat * list TradeOffer) (trading_events : list string)
    : M (list string) :=
  let '(agent, offers_) := entry in
  accepted ← consider_trade_acceptance agent offers_ step;
  match accepted with
  | Some accepted_offer =>
      execute_trade accepted_offer agents_dict ≫= λ success : bool,
      if success then
        let trading_events :=
          trading_events ++ ["  ACCEPTED: " +:+ str_offer accepted_offer] in
        remove_offer accepted_offer;;
        m ← gets market;
        let conflicting_offers :=
          filter (conflicts_with accepted_offer) (offers m) in
        for_ conflicting_offers (λ conflict trading_events,
          remove_offer conflict;;
          mret (trading_events ++ ["  CANCELLED (conflict): " +:+ str_offer conflict]))
          trading_events
      else
        let trading_events :=
          trading_events ++ ["  FAILED: " +:+ str_offer accepted_offer
                              +:+ " (insufficient resources)"] in
        remove_offer accepted_offer;;
        mret trading_events
  | None =>
      for_ offers_ (λ offer trading_events,
        let trading_events :=
          trading_events ++ ["  REJECTED: " +:+ str_offer offer] in
        remove_offer offer;;
        mret trading_events) trading_events
  end.

(** process_trading_phase.  [roster] is the list [agents] of the source;
    the market is the one of the store. *)
Definition process_trading_phase (roster : list nat) (step : Z) : M (list string) :=
  if decide (TRADE_RANGE config ≤ 0) then mret [] else
  l ← gets agents;
  let agents_dict := build_agents_dict l roster in
  let trading_events :=
    ["=== TRADING PHASE STEP " +:+ str_int step +:+ " ===";
     "Phase 1: Making offers..."] in
  trading_events ← make_offers roster step trading_events;
  let trading_events := trading_events ++ ["Phase 2: Processing acceptances..."] in
  agents_with_offers ← collect_agents_with_offers roster;
  agents_with_offers ← random_shuffle agents_with_offers;
  trading_events ←
    for_ agents_with_offers (process_acceptance agents_dict step) trading_events;
  clear_offers;;
  mret (trading_events ++ ["Phase 2 complete - all offers cleared"]).

End Simulation.

(** ** Notions the properties are stated with *)

(** The store with the agent behind reference [i] replaced by [a]. *)
Definition put (i : nat) (a : Agent) (w : World) : World :=
  set_agents (<[i := a]> (agents w)) w.

Definition nonneg (r : Resources) : Prop := 0 ≤ red r ∧ 0 ≤ green r.

(** No inventory count of any agent is negative. *)
Definition inventories_nonneg (w : World) : Prop :=
  Forall (λ a, nonneg (inventory a)) (agents w).

(** The quantities of an offer are amounts: none is negative. *)
Definition offer_nonneg (o : TradeOffer) : Prop :=
  0 ≤ offer_red o ∧ 0 ≤ offer_green o ∧ 0 ≤ request_red o ∧ 0 ≤ request_green o.

Definition pending_nonneg (w : World) : Prop :=
  Forall offer_nonneg (offers (market w)).

(** What may become of an agent: it keeps its name, a dead agent is left
    as it is, and a count that is not negative stays so. *)
Definition agent_evolves (a a' : Agent) : Prop :=
  name a' = name a ∧
  (alive a = false → a' = a) ∧
  (0 ≤ red (inventory a) → 0 ≤ red (inventory a')) ∧
  (0 ≤ green (inventory a) → 0 ≤ green (inventory a')).

Definition world_evolves (w w' : World) : Prop :=
  Forall2 agent_evolves (agents w) (agents w').

(** A weaker notion: the agent keeps its name and, once dead, is left as
    it is. *)
Definition frozen (a a' : Agent) : Prop :=
  name a' = name a ∧ (alive a = false → a' = a).

(** One operation of a run: an agent's step, the execution of a trade
    whose offer is [good], a whole trading phase, or something from
    outside (replenishment of the grid, answers of the decision backend
    and random draws becoming available). *)
Inductive operation (good : TradeOffer → Prop) (cfg : Config) : World → World → Prop :=
  | op_decide_and_act self all_agents w :
      operation good cfg w (world_of (decide_and_act cfg self all_agents w))
  | op_execute_trade offer agents_dict w :
      good offer →
      operation good cfg w (world_of (execute_trade offer agents_dict w))
  | op_trading_phase roster step w :
      operation good cfg w (world_of (process_trading_phase cfg roster step w))
  | op_external e rs r w :
      operation good cfg w
        (set_rng r (set_llm rs (llm_requests w) (set_environment e w))).

(** An action of the monad under which the agents evolve by [R] and the
    pending offers stay [good], and whose value satisfies [Q]. *)
Definition steady (R : Agent → Agent → Prop) (good : TradeOffer → Prop)
    {A} (m : M A) (Q : A → Prop) : Prop :=
  ∀ w, Forall good (offers (market w)) →
    Forall2 R (agents w) (agents (world_of (m w))) ∧
    Forall good (offers (market (world_of (m w)))) ∧
    match m w with
    | Returned a _ => Q a
    | Raised _ _ => True
    end.

(** Agent [n] is a party of the offer. *)
Definition involves (n : string) (o : TradeOffer) : Prop :=
  offerer o = n ∨ target o = n.

(** The conflict invariant: no agent is a party of two trades of the
    ledger. *)
Definition conflict_free (ledger : list TradeOffer) : Prop :=
  ∀ n i j t1 t2,
    ledger !! i = Some t1 → ledger !! j = Some t2 →
    involves n t1 → involves n t2 → i = j.

(** Every reference of the dictionary names an agent of the store. *)
Definition dict_valid (d : gmap string nat) (w : World) : Prop :=
  ∀ n i, d !! n = Some i → is_Some (agents w !! i).

(** The answer the decision backend gives to the next request. *)
Definition next_response (w : World) : option string :=
  match llm_responses w with
  | [] => None
  | r :: _ => r
  end.

(** What a validated action may do to the agent that takes it. *)
Definition acted (me me' : Agent) : Prop :=
  name me' = name me ∧ alive me' = alive me ∧
  (0 ≤ red (inventory me) → 0 ≤ red (inventory me')) ∧
  (0 ≤ green (inventory me) → 0 ≤ green (inventory me')).

(** The four transfers of an executed trade, as the offerer and as the
    target undergo them, and the entry the market makes. *)
Definition as_offerer (offer : TradeOffer) (a : Agent) : Agent :=
  add_green (request_green offer) (add_red (request_red offer)
    (add_green (- offer_green offer) (add_red (- offer_red offer) a))).

Definition as_target (offer : TradeOffer) (a : Agent) : Agent :=
  add_green (offer_green offer) (add_red (offer_red offer)
    (add_green (- request_green offer) (add_red (- request_red offer) a))).

Definition record_trade (offer : TradeOffer) (m : Market) : Market :=
  {| offers := offers m;
     completed_trades := completed_trades m ++ [offer];
     trade_log := trade_log m
       ++ ["Step " +:+ str_int (step offer) +:+ ": TRADE EXECUTED - "
           +:+ str_offer offer] |}.

(** The target of a move in the words of the specification: the
    displacement by one step, clamped to the bounds of the grid. *)
Definition clamp (size v : Z) : Z := Z.max 0 (Z.min (size - 1) v).

Definition displacement (direction : string) : option (Z * Z) :=
  if decide (direction = "up") then Some (-1, 0)
  else if decide (direction = "down") then Some (1, 0)
  else if decide (direction = "left") then Some (0, -1)
  else if decide (direction = "right") then Some (0, 1)
  else None.

Definition clamped_step (size : Z) (p : Z * Z) (direction : string) : option (Z * Z) :=
  match displacement direction with
  | Some d => Some (clamp size (p.1 + d.1), clamp size (p.2 + d.2))
  | None => None
  end.

(** Another living agent of [all_agents] stands on [p]. *)
Definition occupied_by_other (w : World) (self : nat) (all_agents : list nat)
    (p : Z * Z) : Prop :=
  ∃ j other, j ∈ all_agents ∧ j ≠ self ∧ agents w !! j = Some other ∧
             alive other = true ∧ position other = p.

(** ** Concrete stores the examples run on *)

(** A configuration with decisions by the backend and trading within
    distance 1. *)
Definition example_config : Config :=
  {| ENERGY_LOSS_PER_TURN := 1; AGENT_MEMORY_SIZE := 5;
     TRADE_RANGE := 1; RAND_MODE := 0 |}.

(** A newly made living agent. *)
Definition new_agent (n : string) (p : Z * Z) (inv : Resources) (e : Z)
    (rates : Resources) : Agent :=
  {| name := n; position := p; inventory := inv; energy := e; alive := true;
     consumption_rates := rates; actions_taken := []; memory := [];
     step_count := 0 |}.

Definition empty_market : Market :=
  {| offers := []; completed_trades := []; trade_log := [] |}.

(** A grid of side 5 with one red marker. *)
Definition example_grid : Environment :=
  {| Env.size := 5; Env.grid := {[ (0, 3) := "red" ]} |}.

Definition example_world (l : list Agent) (answers : list (option string))
    (draws : list nat) : World :=
  {| agents := l; environment := example_grid; market := empty_market;
     llm_responses := answers; llm_requests := []; rng := draws |}.

(** Two neighbours that want what the other has: Agent1 gains more from
    red and holds two green, Agent2 gains more from green and holds two
    red. *)
Definition two_traders (draws : list nat) : World :=
  example_world
    [new_agent "Agent1" (0, 3) {| red := 0; green := 2 |} 10 {| red := 3; green := 1 |};
     new_agent "Agent2" (0, 4) {| red := 2; green := 0 |} 10 {| red := 1; green := 3 |}]
    [] draws.

Definition offer_1_to_2 : TradeOffer :=
  {| offerer := "Agent1"; target := "Agent2"; offer_red := 0; offer_green := 1;
     request_red := 1; request_green := 0; step := 1 |}.

Definition offer_2_to_1 : TradeOffer :=
  {| offerer := "Agent2"; target := "Agent1"; offer_red := 1; offer_green := 0;
     request_red := 0; request_green := 1; step := 1 |}.

(** One agent at the upper edge of the grid, with the answers the
    decision backend is going to give. *)
Definition lone_agent (answers : list (option string)) : World :=
  example_world
    [new_agent "Agent1" (0, 3) {| red := 0; green := 2 |} 10 {| red := 3; green := 1 |}]
    answers [].

(** An agent whose energy the next turn uses up. *)
Definition exhausted_agent : World :=
  example_world
    [new_agent "Agent1" (0, 3) {| red := 1; green := 2 |} 1 {| red := 3; green := 1 |}]
    [Some "eat red"] [].

(** A red-leaning agent that holds no green, next to a neighbour. *)
Definition nothing_to_offer : World :=
  example_world
    [new_agent "Agent1" (0, 3) {| red := 3; green := 0 |} 10 {| red := 2; green := 1 |};
     new_agent "Agent2" (0, 4) {| red := 2; green := 0 |} 10 {| red := 1; green := 3 |}]
    [] [].

(** The example of the specification: an agent with {red: 0, green: 3}
    and rates {red: 2, green: 1} next to a neighbour, here a balanced one,
    with {red: 2, green: 0}. *)
Definition trade_example : World :=
  example_world
    [new_agent "Agent1" (0, 3) {| red := 0; green := 3 |} 10 {| red := 2; green := 1 |};
     new_agent "Agent2" (0, 4) {| red := 2; green := 0 |} 10 {| red := 2; green := 2 |}]
    [] [].

(** The two names of the examples, with the references behind them. *)
Definition example_dict : gmap string nat :=
  <["Agent1" := 0%nat]> (<["Agent2" := 1%nat]> ∅).

(** Agent1 alive and Agent2 dead. *)
Definition dead_neighbour : World :=
  example_world
    [new_agent "Agent1" (0, 3) {| red := 0; green := 3 |} 10 {| red := 2; green := 1 |};
     set_alive false
       (new_agent "Agent2" (0, 4) {| red := 2; green := 0 |} 0 {| red := 2; green := 2 |})]
    [] [].

(** ** More of the code: main.py and the rest of the two modules *)

(** The loop of [main] over the agents within one step of the
    simulation: every living agent acts, in the order of the list, with
    the whole list as [all_agents].  What the loop prints and writes to
    the trace file is left out; the outcomes are returned instead. *)
Definition action_phase (config : Config) (roster : list nat) : M (list string) :=
  for_ roster (λ agent outcomes,
    a ← deref agent;
    if alive a then
      action_result ← decide_and_act config agent roster;
      mret (outcomes ++ [action_result])
    else mret (outcomes ++ ["inactive"])) [].

(** The list [base_configs] and the loop that fills
    [config.AGENT_CONFIGS] when the module is loaded, for the values of
    [NUM_AGENTS] and [CONSUMPTION_RATE] given on the command line. *)
Definition base_configs : list Resources :=
  [{| red := 4; green := 0 |}; {| red := 3; green := 1 |};
   {| red := 2; green := 2 |}; {| red := 1; green := 3 |};
   {| red := 0; green := 4 |}].

(** [f"Agent{i+1}"] *)
Definition agent_label (i : nat) : string := "Agent" +:+ str_int (Z.of_nat i + 1).

Definition build_agent_configs (NUM_AGENTS CONSUMPTION_RATE : Z)
    : gmap string Resources :=
  foldl (λ configs i,
    match base_configs !! (i mod length base_configs)%nat with
    | Some base_config =>
        <[agent_label i :=
            {| red := red base_config * CONSUMPTION_RATE;
               green := green base_config * CONSUMPTION_RATE |}]> configs
    | None => configs
    end) ∅ (range (Z.to_nat NUM_AGENTS)).

(** Agent.__init__, with the constants [AGENT_CONFIGS],
    [INITIAL_INVENTORY] and [INITIAL_ENERGY] it reads from [config]. *)
Definition init_agent (AGENT_CONFIGS : gmap string Resources)
    (INITIAL_INVENTORY : Resources) (INITIAL_ENERGY : Z)
    (name : string) (start_pos : Z * Z) : Agent :=
  {| name := name; position := start_pos; inventory := INITIAL_INVENTORY;
     energy := INITIAL_ENERGY; alive := true;
     consumption_rates := default {| red := 0; green := 0 |} (AGENT_CONFIGS !! name);
     actions_taken := []; memory := []; step_count := 0 |}.

(** The list [agents] that [main] makes:
    [[Agent(f"Agent{i+1}", start_pos=positions[i]) for i in range(NUM_AGENTS)]];
    [None] stands for the [IndexError] of [positions[i]]. *)
Definition make_agents (AGENT_CONFIGS : gmap string Resources)
    (INITIAL_INVENTORY : Resources) (INITIAL_ENERGY : Z)
    (positions : list (Z * Z)) (NUM_AGENTS : Z) : option (list Agent) :=
  mapM (λ i,
    match positions !! i with
    | Some start_pos =>
        Some (init_agent AGENT_CONFIGS INITIAL_INVENTORY INITIAL_ENERGY
                (agent_label i) start_pos)
    | None => None
    end) (range (Z.to_nat NUM_AGENTS)).

(** How a call that loops may end: with a value, with the [ValueError]
    that [random.randint] raises on an empty range, or not within the
    rounds of the loop that were allowed. *)
Inductive Outcome (A : Type) :=
  | Done (a : A)
  | ValueError
  | OutOfFuel.
Arguments Done {A} a.
Arguments ValueError {A}.
Arguments OutOfFuel {A}.

(** [random.randint(a, b)]: [a + _randbelow(b - a + 1)]; [None] stands
    for the [ValueError]. *)
Definition randint (a b : Z) : M (option Z) :=
  if decide (b < a) then mret None
  else i ← randbelow (Z.to_nat (b - a + 1)); mret (Some (a + Z.of_nat i)).

(** generate_unique_positions: the [while] loop, run for at most [fuel]
    rounds, from the set [positions].  The set is returned; the order in
    which [list(positions)] enumerates it is not specified. *)
Fixpoint generate_unique_positions_from (fuel : nat) (num_agents grid_size : Z)
    (positions : gset (Z * Z)) : M (Outcome (gset (Z * Z))) :=
  if decide (Z.of_nat (size positions) < num_agents) then
    match fuel with
    | O => mret OutOfFuel
    | S fuel' =>
        x ← randint 0 (grid_size - 1);
        match x with
        | None => mret ValueError
        | Some x =>
            y ← randint 0 (grid_size - 1);
            match y with
            | None => mret ValueError
            | Some y =>
                generate_unique_positions_from fuel' num_agents grid_size
                  ({[ (x, y) ]} ∪ positions)
            end
        end
    end
  else mret (Done positions).

Definition generate_unique_positions (fuel : nat) (num_agents grid_size : Z)
    : M (Outcome (gset (Z * Z))) :=
  generate_unique_positions_from fuel num_agents grid_size ∅.

(** Market.get_trade_summary: the dictionary it returns. *)
Module Summary.
Record TradeSummary := {
  total_offers : Z;
  completed_trades : Z;
  pending_offers : Z;
  trade_log : list string
}.
End Summary.

Definition get_trade_summary (m : Market) : Summary.TradeSummary :=
  {| Summary.total_offers := Z.of_nat (length (trade_log m));
     Summary.completed_trades := Z.of_nat (length (completed_trades m));
     Summary.pending_offers := Z.of_nat (length (offers m));
     Summary.trade_log := trade_log m |}.

(** The entry [add_memory] writes, and the list [self.memory] after it:
    the entry appended and, if that makes more than [AGENT_MEMORY_SIZE]
    entries, the slice [memory[-AGENT_MEMORY_SIZE:]] of the result. *)
Definition memory_entry (me : Agent) (observation action outcome : string) : string :=
  "Step " +:+ str_int (step_count me) +:+ ": "
  +:+ "Action: " +:+ action +:+ " | "
  +:+ "Observation: " +:+ observation +:+ " | "
  +:+ "Outcome: " +:+ outcome +:+ " | "
  +:+ "Energy: " +:+ str_int (energy me) +:+ " | "
  +:+ "Inventory: " +:+ str_resources (inventory me).

Definition remembered (cfg : Config) (mem : list string) (entry : string) : list string :=
  let l := mem ++ [entry] in
  if decide (Z.of_nat (length l) > AGENT_MEMORY_SIZE cfg)
  then slice_from (- AGENT_MEMORY_SIZE cfg) l else l.

(** ** Notions the further properties are stated with *)

(** What the action of a step does to the agent that takes it and to the
    environment: nothing, a move to a free neighbour, the marker of the
    cell collected, or one unit eaten. *)
Inductive action_effect (occupied : gset (Z * Z)) (e : Environment) (me : Agent)
    : Agent → Environment → Prop :=
  | effect_none : action_effect occupied e me me e
  | effect_moved direction p :
      new_position (Env.size e) (position me).1 (position me).2 direction = Some p →
      p ∉ occupied → p ≠ position me →
      action_effect occupied e me (set_position p me) e
  | effect_collected k r :
      get_cell_content e (position me).1 (position me).2 = Some k →
      resources_add k 1 (inventory me) = Some r →
      action_effect occupied e me (set_inventory r me)
        (clear_cell e (position me).1 (position me).2)
  | effect_ate_red :
      red (inventory me) > 0 →
      action_effect occupied e me
        (set_energy (energy me + red (consumption_rates me))
           (set_inventory {| red := red (inventory me) - 1;
                             green := green (inventory me) |} me)) e
  | effect_ate_green :
      green (inventory me) > 0 →
      action_effect occupied e me
        (set_energy (energy me + green (consumption_rates me))
           (set_inventory {| red := red (inventory me);
                             green := green (inventory me) - 1 |} me)) e.

(** The agent as a step leaves it before the action is applied: the step
    counted, the loss of the turn paid, the action entered. *)
Definition entered (cfg : Config) (action : string) (me : Agent) : Agent :=
  set_actions_taken (actions_taken me ++ [action])
    (set_energy (energy me - ENERGY_LOSS_PER_TURN cfg)
       (set_step_count (step_count me + 1) me)).

(** No two living agents stand on the same cell. *)
Definition living_apart (l : list Agent) : Prop :=
  ∀ i j a b, i ≠ j → l !! i = Some a → l !! j = Some b →
    alive a = true → alive b = true → position a ≠ position b.

(** The position is a cell of the grid of side [size]. *)
Definition on_grid (size : Z) (p : Z * Z) : Prop :=
  0 ≤ p.1 < size ∧ 0 ≤ p.2 < size.

(** The list names every agent of the store. *)
Definition lists_all (roster : list nat) (l : list Agent) : Prop :=
  ∀ i, (i < length l)%nat → i ∈ roster.

(** The agents of [two_traders], side by side on (0, 3) and (0, 4). *)
Definition two_traders_start : list Agent := agents (two_traders []).

(** The test of the loop of [consider_trade_acceptance] outside random
    mode: the inventory covers the request, and the offer brings some of
    the resource the agent gains more from, or the agent gains the same
    from both. *)
Definition wanted (me : Agent) (offer : TradeOffer) : Prop :=
  covers_request me offer ∧
  (red (consumption_rates me) > green (consumption_rates me) ∧ offer_red offer > 0
   ∨ green (consumption_rates me) > red (consumption_rates me) ∧ offer_green offer > 0
   ∨ red (consumption_rates me) = green (consumption_rates me)).

Global Instance wanted_dec me offer : Decision (wanted me offer).
Proof. unfold wanted. apply _. Defined.

(** The units of a resource held by all agents together. *)
Definition stock (f : Resources → Z) (l : list Agent) : Z :=
  foldr (λ a s, f (inventory a) + s) 0 l.

(** The markers of kind [k] lying on the grid. *)
Definition markers (k : string) (e : Environment) : Z :=
  Z.of_nat (size (filter (λ kv : (Z * Z) * string, kv.2 = k) (Env.grid e))).

(** Nothing but the inventory of the agent differs. *)
Definition same_but_inventory (a b : Agent) : Prop :=
  b = set_inventory (inventory b) a.

(** What trading may do to the store: agents differ in their inventories
    only and hold the same units of each resource together, the ledger
    and the log of the market grow at their ends; the grid and the
    decision backend are left alone. *)
Definition trade_step (w w' : World) : Prop :=
  Forall2 same_but_inventory (agents w) (agents w') ∧
  stock red (agents w') = stock red (agents w) ∧
  stock green (agents w') = stock green (agents w) ∧
  environment w' = environment w ∧
  llm_responses w' = llm_responses w ∧ llm_requests w' = llm_requests w ∧
  completed_trades (market w) `prefix_of` completed_trades (market w') ∧
  trade_log (market w) `prefix_of` trade_log (market w').

(** An action of the monad that, on a store of [n] agents, returns a
    value that satisfies [Q] and does to the store what trading may. *)
Definition settles (n : nat) {A} (m : M A) (Q : A → Prop) : Prop :=
  ∀ w, length (agents w) = n →
    ∃ a w', m w = Returned a w' ∧ trade_step w w' ∧ Q a.

(** The two traders with both their offers pending on the market. *)
Definition both_offers_pending : World :=
  set_market (set_offers [offer_1_to_2; offer_2_to_1] empty_market) (two_traders []).

(** A call of one of the methods that change the market, and a sequence
    of such calls run one after the other; the sequence gives the number
    of offers it has added and the number of trades it has executed. *)
Inductive MarketCall :=
  | call_add_offer (offer : TradeOffer)
  | call_remove_offer (offer : TradeOffer)
  | call_execute_trade (offer : TradeOffer) (agents_dict : gmap string nat)
  | call_clear_offers.

Definition run_call (c : MarketCall) : M (Z * Z) :=
  match c with
  | call_add_offer offer => add_offer offer;; mret (1, 0)
  | call_remove_offer offer => remove_offer offer;; mret (0, 0)
  | call_execute_trade offer agents_dict =>
      execute_trade offer agents_dict ≫= λ success : bool,
      mret (0, if success then 1 else 0)
  | call_clear_offers => clear_offers;; mret (0, 0)
  end.

Fixpoint run_calls (cs : list MarketCall) : M (Z * Z) :=
  match cs with
  | [] => mret (0, 0)
  | c :: rest =>
      counts ← run_call c;
      counts' ← run_calls rest;
      mret (counts.1 + counts'.1, counts.2 + counts'.2)
  end.

(** ** Running the monad *)

Lemma bind_Returned {A B} (m : M A) (f : A → M B) w a w' :
  m w = Returned a w' → (m ≫= f) w = f a w'.
Proof. intros H. unfold mbind, M_bind. by rewrite H. Qed.

Lemma bind_Raised {A B} (m : M A) (f : A → M B) w e w' :
  m w = Raised e w' → (m ≫= f) w = Raised e w'.
Proof. intros H. unfold mbind, M_bind. by rewrite H. Qed.

Lemma deref_Some w i a : agents w !! i = Some a → deref i w = Returned a w.
Proof. intros H. unfold deref. by rewrite H. Qed.

Lemma deref_None w i : agents w !! i = None → deref i w = Raised DanglingReference w.
Proof. intros H. unfold deref. by rewrite H. Qed.

Lemma update_Some w i a f :
  agents w !! i = Some a → update i f w = Returned () (put i (f a) w).
Proof. intros H. unfold update. by rewrite H. Qed.

Lemma agents_put_eq w i a b :
  agents w !! i = Some a → agents (put i b w) !! i = Some b.
Proof. intros H. simpl. apply list_lookup_insert_eq. by eapply lookup_lt_Some. Qed.

Lemma agents_put_ne w i j b : i ≠ j → agents (put i b w) !! j = agents w !! j.
Proof. intros H. simpl. by apply list_lookup_insert_ne. Qed.

Lemma put_put w i a b : put i b (put i a w) = put i b w.
Proof. unfold put, set_agents. simpl. by rewrite list_insert_insert_eq. Qed.

Lemma put_id w i a : agents w !! i = Some a → put i a w = w.
Proof.
  intros H. unfold put, set_agents. rewrite list_insert_id by done. by destruct w.
Qed.

(** One step of symbolic execution: the first action of a sequence is
    replaced by its result, which [tac] has to establish. *)
Ltac run tac :=
  lazymatch goal with
  | |- @mbind M M_bind ?A ?B ?f ?m ?w = _ =>
      erewrite (@bind_Returned A B m f w) by tac; cbv beta
  end.

Ltac world_fields :=
  cbn [agents environment market llm_responses llm_requests rng
       set_environment set_market set_llm set_rng].

Ltac lookup_agent :=
  world_fields;
  first [ eassumption | eapply agents_put_eq; lookup_agent ].

Ltac run_deref := run ltac:(eapply deref_Some; lookup_agent).
Ltac run_update := run ltac:(eapply update_Some; lookup_agent); rewrite ?put_put.

(** ** The step of an agent that runs out of energy (C7) *)

Lemma decide_and_act_dead cfg self all_agents w a :
  agents w !! self = Some a → alive a = false →
  decide_and_act cfg self all_agents w = Returned "inactive" w.
Proof.
  intros H Ha. unfold decide_and_act.
  run_deref. by rewrite Ha.
Qed.

Lemma decide_and_act_dies cfg self all_agents w a :
  agents w !! self = Some a → alive a = true →
  energy a - ENERGY_LOSS_PER_TURN cfg ≤ 0 →
  decide_and_act cfg self all_agents w =
    Returned "ran out of energy"
      (put self (set_alive false
         (set_energy (energy a - ENERGY_LOSS_PER_TURN cfg)
            (set_step_count (step_count a + 1) a))) w).
Proof.
  intros H Ha He. unfold decide_and_act.
  run_deref. rewrite Ha. cbn [negb].
  run_update. run_update. run_deref.
  cbn [energy set_energy set_step_count]. rewrite decide_True by done.
  run_update. reflexivity.
Qed.

(** ** The effect of the parts of a step *)

Ltac run_in_context tac :=
  match goal with
  | |- context [@mbind M M_bind ?A ?B ?f ?m ?w] =>
      erewrite (@bind_Returned A B m f w) by tac; cbv beta
  end.

Ltac step_deref := run_in_context ltac:(eapply deref_Some; lookup_agent).
Ltac step_update :=
  run_in_context ltac:(eapply update_Some; lookup_agent); rewrite ?put_put.
Ltac step_gets := run_in_context ltac:(reflexivity).

Lemma acted_refl me : acted me me.
Proof. by repeat split. Qed.

Lemma world_unchanged w self me :
  agents w !! self = Some me → w = set_environment (environment w) (put self me w).
Proof. intros H. rewrite put_id by done. by destruct w. Qed.

Lemma add_memory_Some cfg self obs act out w me :
  agents w !! self = Some me →
  ∃ mem, add_memory cfg self obs act out w = Returned () (put self (set_memory mem me) w).
Proof.
  intros H. unfold add_memory.
  step_deref. step_update. step_deref. cbn [memory set_memory].
  case_decide.
  - erewrite update_Some by lookup_agent. rewrite put_put. by eexists.
  - by eexists.
Qed.

Lemma get_current_observation_Some self all_agents w me :
  agents w !! self = Some me →
  ∃ obs, get_current_observation self all_agents w = Returned obs w.
Proof.
  intros H. unfold get_current_observation.
  step_deref. step_gets. step_gets. destruct (position me). by eexists.
Qed.

Lemma get_agent_action_eq q w :
  get_agent_action q w =
    Returned (next_response w)
      (set_llm (tail (llm_responses w)) (llm_requests w ++ [q]) w).
Proof. unfold get_agent_action, next_response. by destruct (llm_responses w). Qed.

Lemma eat_red_Some self w me :
  agents w !! self = Some me →
  eat_red self w =
    Returned (red (consumption_rates me))
      (put self (set_energy (energy me + red (consumption_rates me))
         (set_inventory {| red := red (inventory me) - 1;
                           green := green (inventory me) |} me)) w).
Proof.
  intros H. unfold eat_red. step_update. step_deref. step_update. reflexivity.
Qed.

Lemma eat_green_Some self w me :
  agents w !! self = Some me →
  eat_green self w =
    Returned (green (consumption_rates me))
      (put self (set_energy (energy me + green (consumption_rates me))
         (set_inventory {| red := red (inventory me);
                           green := green (inventory me) - 1 |} me)) w).
Proof.
  intros H. unfold eat_green. step_update. step_deref. step_update. reflexivity.
Qed.

Lemma collect_item_effect self item w me :
  agents w !! self = Some me →
  match collect_item self item w with
  | Returned _ w' =>
      ∃ r, w' = put self (set_inventory r me) w ∧
           red (inventory me) ≤ red r ∧ green (inventory me) ≤ green r
  | Raised _ w' => w' = w
  end.
Proof.
  intros H. unfold collect_item. step_deref.
  destruct item as [k|]; [|done].
  unfold resources_add. repeat case_decide; try done.
  - erewrite update_Some by lookup_agent. eexists. split; [done|simpl; lia].
  - erewrite update_Some by lookup_agent. eexists. split; [done|simpl; lia].
Qed.

Ltac step_pure := run_in_context ltac:(reflexivity).

Lemma set_environment_put w self me :
  put self me w = set_environment (environment w) (put self me w).
Proof. by destruct w. Qed.

Lemma apply_action_effect self x y occupied action retry w me :
  agents w !! self = Some me →
  match apply_action self x y occupied action retry w with
  | Returned _ w' =>
      ∃ me' env', w' = set_environment env' (put self me' w) ∧ acted me me'
  | Raised _ w' => w' = w
  end.
Proof.
  intros H. unfold apply_action. step_deref.
  destruct (startswith action "move").
  { unfold index. destruct (split action !! 1%nat) as [direction|]; [|done].
    step_pure. step_gets. unfold lookup_direction.
    destruct (new_position _ x y direction) as [new_pos|]; [|done].
    step_pure. case_decide.
    - step_update. exists (set_position new_pos me), (environment w).
      split; [apply set_environment_put|by repeat split].
    - exists me, (environment w). split; [by apply world_unchanged|apply acted_refl]. }
  case_decide.
  { step_gets. destruct (collectable _) eqn:Hc.
    - pose proof (collect_item_effect self (get_cell_content (environment w) x y) w me H) as Hi.
      destruct (collect_item _ _ w) as [[] w1|e w1] eqn:Hci.
      + destruct Hi as (r & -> & Hr & Hg).
        run_in_context ltac:(exact Hci). step_pure.
        exists (set_inventory r me), (clear_cell (environment w) x y).
        split; [done|]. repeat split; simpl; lia.
      + subst w1. erewrite bind_Raised by exact Hci. done.
    - exists me, (environment w). split; [by apply world_unchanged|apply acted_refl]. }
  case_decide.
  { run_in_context ltac:(by apply eat_red_Some).
    eexists _, (environment w). split; [apply set_environment_put|].
    repeat split; simpl; lia. }
  case_decide.
  { run_in_context ltac:(by apply eat_green_Some).
    eexists _, (environment w). split; [apply set_environment_put|].
    repeat split; simpl; lia. }
  case_decide.
  - exists me, (environment w). split; [by apply world_unchanged|apply acted_refl].
  - exists me, (environment w). split; [by apply world_unchanged|apply acted_refl].
Qed.

Lemma world_eq w w' :
  agents w = agents w' → environment w = environment w' →
  market w = market w' → llm_responses w = llm_responses w' →
  llm_requests w = llm_requests w' → rng w = rng w' → w = w'.
Proof. destruct w, w'; simpl; congruence. Qed.

Ltac world_eq_tac :=
  apply world_eq;
  cbn [agents environment market llm_responses llm_requests rng put
       set_agents set_environment set_market set_llm set_rng];
  rewrite ?list_insert_insert_eq; try reflexivity.

Lemma acted_set_memory me me' mem : acted me me' → acted me (set_memory mem me').
Proof. intros (?&?&?&?). by repeat split. Qed.

Lemma acted_from_actions_taken me me' l :
  acted (set_actions_taken l me) me' → acted me me'.
Proof. intros (?&?&?&?). by repeat split. Qed.

(** One round of the loop: one request is logged, carrying the [retry]
    the round was entered with; the round never hands over to a next one. *)
Lemma attempt_effect cfg self obs x y cell occupied retry w me :
  agents w !! self = Some me →
  ∃ q me' env', retry_message q = retry ∧ acted me me' ∧
    let w' := set_llm (tail (llm_responses w)) (llm_requests w ++ [q])
                (set_environment env' (put self me' w)) in
    (∃ e, attempt cfg self obs x y cell occupied retry w = Raised e w') ∨
    (∃ res, attempt cfg self obs x y cell occupied retry w = Returned (Return res) w').
Proof.
  intros H. unfold attempt. step_deref.
  run_in_context ltac:(apply get_agent_action_eq).
  step_update.
  match goal with
  | |- context [@mbind M M_bind _ _ _ (apply_action self x y occupied ?action retry) ?w0] =>
      set (act := action); set (w1 := w0);
      pose proof (apply_action_effect self x y occupied act retry w1
                    (set_actions_taken (actions_taken me ++ [act]) me)) as Ha
  end.
  exists {| agent_name := name me; req_position := position me;
            req_inventory := inventory me; cell_content := cell;
            req_energy := energy me; consumption_rate := consumption_rates me;
            req_memory := memory me; grid_image_base64 := None;
            retry_message := retry |}.
  destruct (apply_action _ _ _ _ _ _ w1) as [[res r'] w2|e w2] eqn:Hap.
  - destruct Ha as (me' & env' & -> & Hacted); [by subst w1; lookup_agent|].
    run_in_context ltac:(exact Hap). cbv beta iota.
    destruct (add_memory_Some cfg self obs act res
                (set_environment env' (put self me' w1)) me') as [mem Hm];
      [by subst w1; lookup_agent|].
    run_in_context ltac:(exact Hm).
    exists (set_memory mem me'), env'. split; [reflexivity|]. split.
    { apply acted_set_memory. by eapply acted_from_actions_taken. }
    right. exists res. unfold mret, M_ret. f_equal. subst w1. world_eq_tac.
  - assert (w2 = w1) as -> by (apply Ha; by subst w1; lookup_agent).
    exists (set_actions_taken (actions_taken me ++ [act]) me), (environment w).
    split; [reflexivity|]. split; [by repeat split|].
    left. exists e. by erewrite bind_Raised by exact Hap.
Qed.

(** *** Random mode *)

Lemma randbelow_effect n w :
  ∃ i r, randbelow n w = Returned i (set_rng r w).
Proof.
  unfold randbelow. destruct (rng w) as [|d ds] eqn:Hr.
  - exists 0%nat, []. f_equal. rewrite <- Hr. by destruct w.
  - by eexists _, _.
Qed.

Lemma random_choice_effect {A} (l : list A) w :
  ∃ r, match random_choice l w with
       | Returned a w' => a ∈ l ∧ w' = set_rng r w
       | Raised _ w' => w' = set_rng r w
       end.
Proof.
  unfold random_choice.
  destruct (randbelow_effect (length l) w) as (i & r & Hi).
  exists r. erewrite bind_Returned by exact Hi.
  unfold index. destruct (l !! i) as [a|] eqn:Hl; [|done].
  split; [|done]. by eapply list_elem_of_lookup_2.
Qed.

Lemma moves_start_with_move (step : list string → string → list string)
    (dirs : list string) (acc : list string) :
  (∀ acts d, step acts d = acts ∨ step acts d = acts ++ ["move " +:+ d]) →
  Forall (λ a, startswith a "move" = true) acc →
  Forall (λ a, startswith a "move" = true) (foldl step acc dirs).
Proof.
  intros Hstep. revert acc. induction dirs as [|d dirs IH]; intros acc Hacc; [done|].
  simpl. apply IH. destruct (Hstep acc d) as [->| ->]; [done|].
  apply Forall_app. split; [done|]. by repeat constructor.
Qed.

Lemma available_actions_elem me e occupied a :
  a ∈ available_actions me e occupied →
  startswith a "move" = true ∨ a = "collect" ∨ a = "do nothing" ∨
  (a = "eat red" ∧ red (inventory me) > 0) ∨
  (a = "eat green" ∧ green (inventory me) > 0).
Proof.
  unfold available_actions. destruct (position me) as [x y].
  set (moves := foldl _ _ _).
  assert (Forall (λ a, startswith a "move" = true) moves) as Hm.
  { subst moves. apply moves_start_with_move; [|done].
    intros acts d. destruct (new_position _ _ _ _); [case_decide|]; auto. }
  rewrite Forall_forall in Hm.
  intros Ha. repeat case_match;
    repeat (apply elem_of_app in Ha as [Ha|Ha]);
    repeat match goal with
    | H : _ ∈ [_] |- _ => apply list_elem_of_singleton in H; subst
    end; auto 10.
Qed.

Lemma perform_action_effect self me e action w me0 :
  agents w !! self = Some me0 →
  (action = "eat red" → red (inventory me0) > 0) →
  (action = "eat green" → green (inventory me0) > 0) →
  match perform_action self me e action w with
  | Returned _ w' =>
      ∃ me' env', w' = set_environment env' (put self me' w) ∧ acted me0 me'
  | Raised _ w' => w' = w
  end.
Proof.
  intros H Hred Hgreen. unfold perform_action. destruct (position me) as [x y].
  destruct (startswith action "move").
  { unfold index. destruct (split action !! 1%nat) as [direction|]; [|done].
    step_pure. unfold lookup_direction.
    destruct (new_position _ x y direction) as [new_pos|]; [|done].
    step_pure. step_update.
    exists (set_position new_pos me0), (environment w).
    split; [apply set_environment_put|by repeat split]. }
  case_decide.
  { step_gets.
    pose proof (collect_item_effect self (get_cell_content (environment w) x y) w me0 H) as Hi.
    destruct (collect_item _ _ w) as [[] w1|err w1] eqn:Hci.
    - destruct Hi as (r & -> & Hr & Hg).
      run_in_context ltac:(exact Hci). step_pure.
      exists (set_inventory r me0), (clear_cell (environment w) x y).
      split; [done|]. repeat split; simpl; lia.
    - subst w1. by erewrite bind_Raised by exact Hci. }
  case_decide.
  { run_in_context ltac:(by apply eat_red_Some).
    eexists _, (environment w). split; [apply set_environment_put|].
    specialize (Hred ltac:(done)). repeat split; simpl; lia. }
  case_decide.
  { run_in_context ltac:(by apply eat_green_Some).
    eexists _, (environment w). split; [apply set_environment_put|].
    specialize (Hgreen ltac:(done)). repeat split; simpl; lia. }
  exists me0, (environment w). split; [by apply world_unchanged|apply acted_refl].
Qed.

Lemma _random_action_effect cfg self occupied w me :
  agents w !! self = Some me →
  ∃ me' env' r',
    world_of (_random_action cfg self occupied w)
      = set_rng r' (set_environment env' (put self me' w)) ∧
    acted me me'.
Proof.
  intros H. unfold _random_action. step_deref. step_gets.
  destruct (random_choice_effect (available_actions me (environment w) occupied) w)
    as [r Hr].
  destruct (random_choice _ w) as [action w1|err w1] eqn:Hrc.
  - destruct Hr as [Hin ->]. run_in_context ltac:(exact Hrc). step_update.
    set (me0 := set_actions_taken (actions_taken me ++ [action]) me).
    set (w2 := put self me0 (set_rng r w)).
    assert (agents w2 !! self = Some me0) as H2 by (subst w2; lookup_agent).
    apply available_actions_elem in Hin.
    pose proof (perform_action_effect self me (environment w) action w2 me0 H2) as Hp.
    destruct (perform_action _ _ _ _ w2) as [res w3|err w3] eqn:Hpa.
    + destruct Hp as (me' & env' & -> & Hacted).
      { intros ->. destruct Hin as [?|[?|[?|[[_ ?]|[? _]]]]]; done. }
      { intros ->. destruct Hin as [?|[?|[?|[[? _]|[_ ?]]]]]; done. }
      run_in_context ltac:(exact Hpa).
      destruct (get_current_observation_Some self []
                  (set_environment env' (put self me' w2)) me') as [obs Ho];
        [lookup_agent|].
      run_in_context ltac:(exact Ho).
      destruct (add_memory_Some cfg self obs action res
                  (set_environment env' (put self me' w2)) me') as [mem Hm];
        [lookup_agent|].
      run_in_context ltac:(exact Hm).
      exists (set_memory mem me'), env', r. split.
      * cbn [world_of mret M_ret]. subst w2. world_eq_tac.
      * apply acted_set_memory. by eapply acted_from_actions_taken.
    + erewrite bind_Raised by exact Hpa.
      exists me0, (environment w), r. split; [|by repeat split].
      cbn [world_of]. rewrite Hp; first (subst w2; world_eq_tac).
      * intros ->. destruct Hin as [?|[?|[?|[[_ ?]|[? _]]]]]; done.
      * intros ->. destruct Hin as [?|[?|[?|[[? _]|[_ ?]]]]]; done.
  - erewrite bind_Raised by exact Hrc. subst w1.
    exists me, (environment w), r. split; [|apply acted_refl].
    cbn [world_of]. by rewrite <- (world_unchanged w self me H).
Qed.

(** *** The loop over the two attempts *)

(** The loop ends in its first round, whatever the answer: exactly one
    request is made, without a retry hint. *)
Lemma retry_loop_effect cfg self obs x y cell occupied w me :
  agents w !! self = Some me →
  ∃ q me' env', retry_message q = None ∧ acted me me' ∧
    let w' := set_llm (tail (llm_responses w)) (llm_requests w ++ [q])
                (set_environment env' (put self me' w)) in
    let loop := for_each (range 2)
                  (λ _ retry, attempt cfg self obs x y cell occupied retry) None in
    (∃ e, loop w = Raised e w') ∨ (∃ res, loop w = Returned (Return res) w').
Proof.
  intros H.
  destruct (attempt_effect cfg self obs x y cell occupied None w me H)
    as (q & me' & env' & Hq & Hacted & Hres).
  exists q, me', env'. split; [done|]. split; [done|].
  cbn [range seq for_each]. destruct Hres as [[e He]|[res Hr]].
  - left. exists e. by erewrite bind_Raised by exact He.
  - right. exists res. by erewrite bind_Returned by exact Hr.
Qed.

Lemma world_same w self me :
  agents w !! self = Some me →
  w = set_rng (rng w) (set_llm (llm_responses w) (llm_requests w)
        (set_environment (environment w) (put self me w))).
Proof. intros H. rewrite put_id by done. by destruct w. Qed.

Lemma agent_evolves_refl a : agent_evolves a a.
Proof. by repeat split. Qed.

Lemma agent_evolves_trans a b c :
  agent_evolves a b → agent_evolves b c → agent_evolves a c.
Proof.
  intros (Hn1 & Hd1 & Hr1 & Hg1) (Hn2 & Hd2 & Hr2 & Hg2).
  split; [congruence|]. split; [|split; auto].
  intros Ha. specialize (Hd1 Ha). subst b. by apply Hd2.
Qed.

(** *** A whole step *)

(** A step touches the agent that takes it and nothing of the market;
    it makes at most one request, and none with a retry hint. *)
Lemma decide_and_act_effect cfg self all_agents w me :
  agents w !! self = Some me →
  ∃ me' env' rs qs r',
    world_of (decide_and_act cfg self all_agents w)
      = set_rng r' (set_llm rs qs (set_environment env' (put self me' w))) ∧
    agent_evolves me me' ∧
    (qs = llm_requests w ∨
     ∃ q, qs = llm_requests w ++ [q] ∧ retry_message q = None).
Proof.
  intros H. destruct (alive me) eqn:Ha; cycle 1.
  { rewrite (decide_and_act_dead cfg self all_agents w me H Ha).
    exists me, (environment w), (llm_responses w), (llm_requests w), (rng w).
    split; [by apply world_same|]. split; [apply agent_evolves_refl|by left]. }
  destruct (decide (energy me - ENERGY_LOSS_PER_TURN cfg ≤ 0)) as [He|He].
  { rewrite (decide_and_act_dies cfg self all_agents w me H Ha He).
    eexists _, (environment w), (llm_responses w), (llm_requests w), (rng w).
    split; [by destruct w|]. split; [|by left].
    split; [done|]. split; [congruence|done]. }
  unfold decide_and_act.
  step_deref. rewrite Ha. cbn [negb].
  step_update. step_update. step_deref.
  cbn [energy set_energy set_step_count]. rewrite decide_False by done.
  set (me1 := set_energy _ _). set (w1 := put self me1 w).
  assert (agents w1 !! self = Some me1) as H1 by (subst w1; lookup_agent).
  destruct (get_current_observation_Some self all_agents w1 me1 H1) as [obs Ho].
  run_in_context ltac:(exact Ho).
  destruct (position me1) as [x y]. step_gets. step_gets.
  case_decide.
  - destruct (_random_action_effect cfg self
                (occupied_positions (agents w1) self all_agents) w1 me1 H1)
      as (me' & env' & r' & -> & (Hn & Hal & Hr & Hg)).
    exists me', env', (llm_responses w), (llm_requests w), r'.
    split; [subst w1; world_eq_tac|]. split; [|by left].
    split; [done|]. split; [congruence|done].
  - destruct (retry_loop_effect cfg self obs x y
                (get_cell_content (environment w1) x y)
                (occupied_positions (agents w1) self all_agents) w1 me1 H1)
      as (q & me' & env' & Hq & (Hn & Hal & Hr & Hg) & Hres).
    exists me', env', (tail (llm_responses w)), (llm_requests w ++ [q]), (rng w).
    split; [|split; [|by eauto]].
    + destruct Hres as [[e He']|[res Hr']].
      * erewrite bind_Raised by exact He'. subst w1. cbn [world_of]. world_eq_tac.
      * erewrite bind_Returned by exact Hr'. subst w1. cbn [world_of mret M_ret].
        world_eq_tac.
    + split; [done|]. split; [congruence|done].
Qed.

Lemma decide_and_act_dangling cfg self all_agents w :
  agents w !! self = None →
  decide_and_act cfg self all_agents w = Raised DanglingReference w.
Proof.
  intros H. unfold decide_and_act. by erewrite bind_Raised by (by apply deref_None).
Qed.

(** ** Moves (C8) *)

Lemma occupied_positions_insert l self all_agents a :
  occupied_positions (<[self := a]> l) self all_agents
  = occupied_positions l self all_agents.
Proof.
  unfold occupied_positions. f_equal.
  induction all_agents as [|i rest IH]; [done|].
  cbn [omap list_omap]. rewrite IH. f_equal.
  destruct (decide (i = self)) as [->|Hne].
  - destruct (<[self:=a]> l !! self), (l !! self); try done;
      rewrite !decide_False by (by intros [_ ?]); done.
  - by rewrite list_lookup_insert_ne.
Qed.

Lemma elem_of_occupied_positions l self all_agents p :
  p ∈ occupied_positions l self all_agents ↔
  ∃ j other, j ∈ all_agents ∧ j ≠ self ∧ l !! j = Some other ∧
             alive other = true ∧ position other = p.
Proof.
  unfold occupied_positions. rewrite elem_of_list_to_set, list_elem_of_omap.
  split.
  - intros (j & Hj & Hf). destruct (l !! j) as [other|] eqn:Hl; [|done].
    case_decide as Hc; [|done]. destruct Hc. exists j, other. naive_solver.
  - intros (j & other & Hj & Hne & Hl & Ha & Hp). exists j. split; [done|].
    rewrite Hl. by rewrite decide_True, Hp.
Qed.

Lemma apply_action_move self x y occupied action retry w me direction tgt :
  agents w !! self = Some me →
  startswith action "move" = true →
  split action !! 1%nat = Some direction →
  new_position (Env.size (environment w)) x y direction = Some tgt →
  apply_action self x y occupied action retry w =
    if decide ((tgt ∉ occupied) ∧ tgt ≠ position me)
    then Returned ("moved " +:+ direction +:+ " (energy: "
                   +:+ str_int (energy me) +:+ ")", retry)
           (put self (set_position tgt me) w)
    else Returned ("move blocked: other agent or wall",
                   Some ("move " +:+ direction +:+ " blocked")) w.
Proof.
  intros H Hs Hd Ht. unfold apply_action. step_deref.
  rewrite Hs. unfold index. rewrite Hd. step_pure. step_gets.
  unfold lookup_direction. rewrite Ht. step_pure.
  case_decide; [|done]. by step_update.
Qed.

Lemma apply_action_do_nothing self x y occupied retry w me :
  agents w !! self = Some me →
  apply_action self x y occupied "do nothing" retry w
  = Returned ("did nothing", retry) w.
Proof.
  intros H. unfold apply_action. step_deref.
  change (startswith "do nothing" "move") with false. cbv iota.
  rewrite (decide_False (P := "do nothing" = "collect")) by done.
  rewrite (decide_False (P := "do nothing" = "eat red" ∧ _)) by (by intros [? _]).
  rewrite (decide_False (P := "do nothing" = "eat green" ∧ _)) by (by intros [? _]).
  by rewrite decide_True.
Qed.

(** A round whose action is applied without an exception returns the
    result of the action. *)
Lemma attempt_acts cfg self obs x y cell occupied retry w me :
  agents w !! self = Some me →
  let action := or_default (next_response w) "do nothing" in
  let q := {| agent_name := name me; req_position := position me;
              req_inventory := inventory me; cell_content := cell;
              req_energy := energy me;
              consumption_rate := consumption_rates me;
              req_memory := memory me; grid_image_base64 := None;
              retry_message := retry |} in
  let w2 := put self (set_actions_taken (actions_taken me ++ [action]) me)
              (set_llm (tail (llm_responses w)) (llm_requests w ++ [q]) w) in
  ∀ res retry' w3 me3,
    apply_action self x y occupied action retry w2 = Returned (res, retry') w3 →
    agents w3 !! self = Some me3 →
    ∃ mem, attempt cfg self obs x y cell occupied retry w
           = Returned (Return res) (put self (set_memory mem me3) w3).
Proof.
  intros H action q w2 res retry' w3 me3 Hap H3. unfold attempt.
  step_deref. run_in_context ltac:(apply get_agent_action_eq).
  step_update. fold action q w2.
  run_in_context ltac:(exact Hap). cbv beta iota.
  destruct (add_memory_Some cfg self obs action res w3 me3 H3) as [mem Hm].
  run_in_context ltac:(exact Hm).
  by exists mem.
Qed.

(** A living agent with energy left, outside random mode: the step makes
    one request, without a retry hint, and its outcome is the one of the
    action applied. *)
Lemma decide_and_act_acts cfg self all_agents w me :
  agents w !! self = Some me → alive me = true →
  0 < energy me - ENERGY_LOSS_PER_TURN cfg → RAND_MODE cfg ≠ 1 →
  let me1 := set_energy (energy me - ENERGY_LOSS_PER_TURN cfg)
               (set_step_count (step_count me + 1) me) in
  let action := or_default (next_response w) "do nothing" in
  let me2 := set_actions_taken (actions_taken me ++ [action]) me1 in
  let q := {| agent_name := name me; req_position := position me;
              req_inventory := inventory me;
              cell_content := get_cell_content (environment w)
                                (position me).1 (position me).2;
              req_energy := energy me - ENERGY_LOSS_PER_TURN cfg;
              consumption_rate := consumption_rates me;
              req_memory := memory me; grid_image_base64 := None;
              retry_message := None |} in
  let w2 := put self me2
              (set_llm (tail (llm_responses w)) (llm_requests w ++ [q]) w) in
  ∀ res retry' w3 me3,
    apply_action self (position me).1 (position me).2
      (occupied_positions (agents w) self all_agents) action None w2
      = Returned (res, retry') w3 →
    agents w3 !! self = Some me3 →
    ∃ mem, decide_and_act cfg self all_agents w
           = Returned res (put self (set_memory mem me3) w3).
Proof.
  intros H Ha He Hmode. destruct (position me) as [x y] eqn:Hpos.
  intros me1 action me2 q w2 res retry' w3 me3 Hap H3. cbn [fst snd] in *.
  unfold decide_and_act.
  step_deref. rewrite Ha. cbn [negb].
  step_update. step_update. step_deref.
  cbn [energy set_energy set_step_count]. rewrite decide_False by lia.
  fold me1. set (w1 := put self me1 w).
  assert (agents w1 !! self = Some me1) as H1 by (subst w1; lookup_agent).
  destruct (get_current_observation_Some self all_agents w1 me1 H1) as [obs Ho].
  run_in_context ltac:(exact Ho).
  change (position me1) with (position me). rewrite Hpos. cbv iota.
  step_gets. step_gets. rewrite decide_False by done.
  cbn [range seq for_each].
  assert (agents w1 = <[self := me1]> (agents w)) as -> by done.
  rewrite occupied_positions_insert.
  destruct (attempt_acts cfg self obs x y
              (get_cell_content (environment w1) x y)
              (occupied_positions (agents w) self all_agents) None w1 me1 H1
              res retry' w3 me3) as [mem Hm]; [|done|].
  { rewrite <- Hap. f_equal. subst w1 w2 q.
    change (position me1) with (position me). rewrite Hpos. world_eq_tac. }
  run_in_context ltac:(erewrite bind_Returned by exact Hm; reflexivity).
  by exists mem.
Qed.

(** ** The execution of a trade (C5, C6, C10) *)

Ltac lookup_agent ::=
  world_fields;
  first [ eassumption
        | eapply agents_put_eq; lookup_agent
        | rewrite agents_put_ne by done; lookup_agent ].

Lemma execute_trade_absent offer agents_dict w :
  agents_dict !! offerer offer = None ∨ agents_dict !! target offer = None →
  execute_trade offer agents_dict w = Returned false w.
Proof.
  intros [H|H]; unfold execute_trade; rewrite H; [done|].
  by destruct (agents_dict !! offerer offer).
Qed.

Lemma execute_trade_dead offer agents_dict w io it o t :
  agents_dict !! offerer offer = Some io → agents_dict !! target offer = Some it →
  agents w !! io = Some o → agents w !! it = Some t →
  alive o = false ∨ alive t = false →
  execute_trade offer agents_dict w = Returned false w.
Proof.
  intros Hio Hit Ho Ht Hdead. unfold execute_trade. rewrite Hio, Hit.
  step_deref. step_deref. by destruct Hdead as [-> | ->], (alive o), (alive t).
Qed.

Lemma execute_trade_insufficient offer agents_dict w io it o t :
  agents_dict !! offerer offer = Some io → agents_dict !! target offer = Some it →
  agents w !! io = Some o → agents w !! it = Some t →
  ¬ resources_available o t offer →
  execute_trade offer agents_dict w = Returned false w.
Proof.
  intros Hio Hit Ho Ht Hno. unfold execute_trade. rewrite Hio, Hit.
  step_deref. step_deref. destruct (negb (alive o) || negb (alive t)); [done|].
  by rewrite decide_False.
Qed.

Lemma execute_trade_success offer agents_dict w io it o t :
  agents_dict !! offerer offer = Some io → agents_dict !! target offer = Some it →
  agents w !! io = Some o → agents w !! it = Some t →
  alive o = true → alive t = true → resources_available o t offer →
  execute_trade offer agents_dict w =
    Returned true
      (set_market (record_trade offer (market w))
         (put it (as_target offer (if decide (it = io) then as_offerer offer o else t))
            (put io (as_offerer offer o) w))).
Proof.
  intros Hio Hit Ho Ht Hao Hat Hres. unfold execute_trade. rewrite Hio, Hit.
  step_deref. step_deref. rewrite Hao, Hat. cbn [negb orb].
  rewrite decide_True by done.
  do 4 step_update. fold (as_offerer offer o).
  destruct (decide (it = io)) as [->|Hne].
  - do 4 step_update. step_pure. reflexivity.
  - do 4 step_update. step_pure. reflexivity.
Qed.

(** ** What every operation preserves (C7, C9) *)

Lemma execute_trade_cases offer agents_dict w :
  execute_trade offer agents_dict w = Returned false w ∨
  (∃ e, execute_trade offer agents_dict w = Raised e w) ∨
  ∃ io it o t,
    agents_dict !! offerer offer = Some io ∧ agents_dict !! target offer = Some it ∧
    agents w !! io = Some o ∧ agents w !! it = Some t ∧
    alive o = true ∧ alive t = true ∧ resources_available o t offer ∧
    execute_trade offer agents_dict w =
      Returned true
        (set_market (record_trade offer (market w))
           (put it (as_target offer
                      (if decide (it = io) then as_offerer offer o else t))
              (put io (as_offerer offer o) w))).
Proof.
  destruct (agents_dict !! offerer offer) as [io|] eqn:Hio;
    [|left; apply execute_trade_absent; by left].
  destruct (agents_dict !! target offer) as [it|] eqn:Hit;
    [|left; apply execute_trade_absent; by right].
  destruct (agents w !! io) as [o|] eqn:Ho; cycle 1.
  { right; left. exists DanglingReference. unfold execute_trade.
    rewrite Hio, Hit. by erewrite bind_Raised by (by apply deref_None). }
  destruct (agents w !! it) as [t|] eqn:Ht; cycle 1.
  { right; left. exists DanglingReference. unfold execute_trade.
    rewrite Hio, Hit. step_deref.
    by erewrite bind_Raised by (by apply deref_None). }
  destruct (alive o) eqn:Hao; [|left; eapply execute_trade_dead; eauto].
  destruct (alive t) eqn:Hat; [|left; eapply execute_trade_dead; eauto].
  destruct (decide (resources_available o t offer)) as [Hres|Hres];
    [|left; eapply execute_trade_insufficient; eauto].
  right; right. exists io, it, o, t. repeat (split; [done|]).
  by apply execute_trade_success.
Qed.

Lemma execute_trade_offers offer agents_dict w :
  offers (market (world_of (execute_trade offer agents_dict w))) = offers (market w).
Proof.
  destruct (execute_trade_cases offer agents_dict w)
    as [->|[[e ->]|(io & it & o & t & _ & _ & _ & _ & _ & _ & _ & ->)]]; done.
Qed.

Section Preservation.

Variable R : Agent → Agent → Prop.
Variable good : TradeOffer → Prop.

Hypothesis R_refl : ∀ a, R a a.
Hypothesis R_trans : ∀ a b c, R a b → R b c → R a c.
Hypothesis R_of_evolves : ∀ a b, agent_evolves a b → R a b.
Hypothesis good_of_nonneg : ∀ o, offer_nonneg o → good o.
Hypothesis R_trade : ∀ offer agents_dict w,
  good offer →
  Forall2 R (agents w) (agents (world_of (execute_trade offer agents_dict w))).

Lemma agents_R_refl l : Forall2 R l l.
Proof. apply Forall_Forall2_diag, Forall_forall. auto. Qed.

Lemma agents_R_trans l1 l2 l3 : Forall2 R l1 l2 → Forall2 R l2 l3 → Forall2 R l1 l3.
Proof. apply Forall2_trans. exact R_trans. Qed.

Lemma agents_R_insert l i a b :
  l !! i = Some a → R a b → Forall2 R l (<[i := b]> l).
Proof.
  intros Hl Hab. rewrite <- (list_insert_id l i a Hl) at 1.
  apply Forall2_insert; [apply agents_R_refl|done].
Qed.

(** *** Rules *)

Lemma steady_unchanged {A} (m : M A) (Q : A → Prop) :
  (∀ w, agents (world_of (m w)) = agents w) →
  (∀ w, offers (market (world_of (m w))) = offers (market w)) →
  (∀ w a w', Forall good (offers (market w)) → m w = Returned a w' → Q a) →
  steady R good m Q.
Proof.
  intros Ha Ho HQ w Hg. rewrite Ha, Ho. split; [apply agents_R_refl|].
  split; [done|]. destruct (m w) eqn:Hm; [|done]. by eapply HQ.
Qed.

Lemma steady_ret {A} (a : A) (Q : A → Prop) : Q a → steady R good (mret a) Q.
Proof. intros HQ. apply steady_unchanged; try done. by intros ???? [= <- _]. Qed.

Lemma steady_raise {A} e (Q : A → Prop) : steady R good (raise e) Q.
Proof. by apply steady_unchanged. Qed.

Lemma steady_weaken {A} (m : M A) (Q Q' : A → Prop) :
  steady R good m Q → (∀ a, Q a → Q' a) → steady R good m Q'.
Proof.
  intros Hm HQ w Hg. destruct (Hm w Hg) as (H1 & H2 & H3).
  split; [done|]. split; [done|]. destruct (m w); auto.
Qed.

Lemma steady_bind {A B} (m : M A) (f : A → M B) (Q : A → Prop) (Q' : B → Prop) :
  steady R good m Q → (∀ a, Q a → steady R good (f a) Q') →
  steady R good (m ≫= f) Q'.
Proof.
  intros Hm Hf w Hg. destruct (Hm w Hg) as (H1 & H2 & H3).
  unfold mbind, M_bind. destruct (m w) as [a w1|e w1]; [|done].
  cbn [world_of] in H1, H2. destruct (Hf a H3 w1 H2) as (H4 & H5 & H6).
  split; [by eapply agents_R_trans|done].
Qed.

Lemma steady_gets {A} (f : World → A) (Q : A → Prop) :
  (∀ w, Forall good (offers (market w)) → Q (f w)) → steady R good (gets f) Q.
Proof.
  intros HQ. apply steady_unchanged; try done.
  intros w a w' Hg [= <- _]. auto.
Qed.

Lemma steady_modify (f : World → World) :
  (∀ w, agents (f w) = agents w) →
  (∀ w, Forall good (offers (market w)) → Forall good (offers (market (f w)))) →
  steady R good (modify f) (λ _, True).
Proof.
  intros Ha Ho w Hg. cbn [modify world_of]. rewrite Ha.
  split; [apply agents_R_refl|]. split; auto.
Qed.

Lemma steady_deref i : steady R good (deref i) (λ _, True).
Proof.
  apply steady_unchanged; try done; intros w; unfold deref;
    by destruct (agents w !! i).
Qed.

Lemma steady_index {A} (l : list A) i : steady R good (index l i) (λ a, a ∈ l).
Proof.
  unfold index. destruct (l !! i) eqn:Hl; [|apply steady_raise].
  apply steady_ret. by eapply list_elem_of_lookup_2.
Qed.

Lemma steady_randbelow n : steady R good (randbelow n) (λ _, True).
Proof.
  apply steady_unchanged; try done; intros w; unfold randbelow;
    by destruct (rng w).
Qed.

Lemma steady_random_below_half : steady R good random_below_half (λ _, True).
Proof.
  apply steady_unchanged; try done; intros w; unfold random_below_half;
    by destruct (rng w).
Qed.

Lemma steady_random_choice {A} (l : list A) :
  steady R good (random_choice l) (λ a, a ∈ l).
Proof.
  unfold random_choice. eapply steady_bind; [apply steady_randbelow|].
  intros i _. apply steady_index.
Qed.

Lemma Forall_swap {A} (P : A → Prop) i j (l : list A) :
  Forall P l → Forall P (swap i j l).
Proof.
  intros Hl. unfold swap.
  destruct (l !! i) as [a|] eqn:Hi; [|done].
  destruct (l !! j) as [b|] eqn:Hj; [|done].
  apply Forall_insert; [apply Forall_insert; [done|]|];
    eapply Forall_lookup_1; eauto.
Qed.

Lemma steady_shuffle_from {A} (P : A → Prop) i (l : list A) :
  Forall P l → steady R good (shuffle_from i l) (Forall P).
Proof.
  revert l. induction i as [|i IH]; intros l Hl; [by apply steady_ret|].
  cbn [shuffle_from]. eapply steady_bind; [apply steady_randbelow|].
  intros j _. by apply IH, Forall_swap.
Qed.

Lemma steady_random_shuffle {A} (P : A → Prop) (l : list A) :
  Forall P l → steady R good (random_shuffle l) (Forall P).
Proof. apply steady_shuffle_from. Qed.

Lemma steady_for_ {A S} (xs : list A) (body : A → S → M S) (Q : S → Prop) s :
  (∀ x s, x ∈ xs → Q s → steady R good (body x s) Q) →
  Q s → steady R good (for_ xs body s) Q.
Proof.
  revert s. induction xs as [|x xs IH]; intros s Hbody Hs; [by apply steady_ret|].
  cbn [for_]. eapply steady_bind; [apply Hbody; [left|done]|].
  intros s' Hs'. apply IH; [|done]. intros ????. apply Hbody; [by right|done].
Qed.

Lemma steady_for_each {A S B} (xs : list A) (body : A → S → M (LoopStep S B))
    (Q : B → Prop) s :
  (∀ x s, x ∈ xs →
     steady R good (body x s)
       (λ r, match r with Continue _ => True | Return v => Q v end)) →
  steady R good (for_each xs body s)
    (λ r, match r with Continue _ => True | Return v => Q v end).
Proof.
  revert s. induction xs as [|x xs IH]; intros s Hbody; [by apply steady_ret|].
  cbn [for_each]. eapply steady_bind; [apply Hbody; left|].
  intros [s'|v] Hv.
  - apply IH. intros ???. apply Hbody. by right.
  - by apply steady_ret.
Qed.

(** *** The functions of the trading phase *)

Lemma steady_execute_trade offer agents_dict :
  good offer → steady R good (execute_trade offer agents_dict) (λ _, True).
Proof.
  intros Hgood w Hg. split; [by apply R_trade|].
  rewrite execute_trade_offers. split; [done|]. by destruct (execute_trade _ _ _).
Qed.

Lemma steady_add_offer offer :
  good offer → steady R good (add_offer offer) (λ _, True).
Proof.
  intros Hgood. unfold add_offer. eapply steady_bind; [|intros; by apply steady_ret].
  apply steady_modify; [done|]. intros w Hg. cbn.
  apply Forall_app. split; [done|]. by constructor.
Qed.

Lemma Forall_remove_first (P : TradeOffer → Prop) x l :
  Forall P l → Forall P (remove_first x l).
Proof.
  induction 1 as [|y l Hy Hl IH]; [done|].
  cbn [remove_first]. case_decide; [done|]. by constructor.
Qed.

Lemma steady_remove_offer offer : steady R good (remove_offer offer) (λ _, True).
Proof.
  apply steady_modify; [done|]. intros w Hg. cbn. by apply Forall_remove_first.
Qed.

Lemma steady_clear_offers : steady R good clear_offers (λ _, True).
Proof. apply steady_modify; [done|]. intros w Hg. cbn. constructor. Qed.

Lemma steady__random_trade_offer self nearby_agents step :
  steady R good (_random_trade_offer self nearby_agents step)
    (from_option good True).
Proof.
  unfold _random_trade_offer.
  eapply steady_bind; [apply steady_deref|]. intros me _.
  case_decide; [by apply steady_ret|].
  eapply steady_bind; [apply steady_random_choice|]. intros target_ref _.
  eapply steady_bind; [apply steady_deref|]. intros target_agent _.
  cbv zeta.
  match goal with
  | |- context [decide (?l = [])] => set (offer_types := l)
  end.
  assert (Forall (λ ty : string * Z * Z * Z * Z,
            0 ≤ ty.1.1.1.2 ∧ 0 ≤ ty.1.1.2 ∧ 0 ≤ ty.1.2 ∧ 0 ≤ ty.2) offer_types)
    as Hty.
  { subst offer_types. repeat case_decide;
      repeat first [apply Forall_app; split | apply Forall_cons; split
                   | apply Forall_nil_2]; cbn; lia. }
  case_decide; [by apply steady_ret|].
  eapply steady_bind; [apply steady_random_choice|].
  intros [[[[ty a] b] c] d] Hin.
  rewrite Forall_forall in Hty. specialize (Hty _ Hin). cbn in Hty.
  apply steady_ret. cbn. apply good_of_nonneg. unfold offer_nonneg. cbn. lia.
Qed.

Lemma steady_consider_trade_offer cfg self nearby_agents step :
  steady R good (consider_trade_offer cfg self nearby_agents step)
    (from_option good True).
Proof.
  unfold consider_trade_offer.
  case_decide; [by apply steady_ret|].
  case_decide; [apply steady__random_trade_offer|].
  eapply steady_bind; [apply steady_deref|]. intros me _. cbv zeta.
  case_decide as Hc; [|case_decide as Hc'; [|by apply steady_ret]].
  - eapply steady_bind; [apply steady_random_choice|]. intros target_ref _.
    eapply steady_bind; [apply steady_deref|]. intros target_agent _.
    apply steady_ret. cbn. apply good_of_nonneg. repeat split; cbn; lia.
  - eapply steady_bind; [apply steady_random_choice|]. intros target_ref _.
    eapply steady_bind; [apply steady_deref|]. intros target_agent _.
    apply steady_ret. cbn. apply good_of_nonneg. repeat split; cbn; lia.
Qed.

Lemma steady_consider_trade_acceptance cfg self offers_ step :
  Forall good offers_ →
  steady R good (consider_trade_acceptance cfg self offers_ step)
    (from_option good True).
Proof.
  intros Hoffers. rewrite Forall_forall in Hoffers.
  unfold consider_trade_acceptance.
  case_decide; [by apply steady_ret|].
  eapply steady_bind; [apply steady_deref|]. intros me _.
  case_decide.
  - eapply steady_bind.
    { apply (steady_for_each offers_ _ good). intros offer [] Hin.
      case_decide; [|by apply steady_ret].
      eapply steady_bind; [apply steady_random_below_half|].
      intros [] _; apply steady_ret; auto. }
    intros [[]|offer] Hr; by apply steady_ret.
  - cbv zeta. eapply steady_bind.
    { apply (steady_for_each offers_ _ good). intros offer [] Hin.
      repeat case_decide; apply steady_ret; auto. }
    intros [[]|offer] Hr; by apply steady_ret.
Qed.

Lemma steady_make_offers cfg roster step trading_events :
  steady R good (make_offers cfg roster step trading_events) (λ _, True).
Proof.
  unfold make_offers. apply (steady_for_ roster _ (λ _, True)); [|done].
  intros agent events _ _.
  eapply steady_bind; [apply steady_deref|]. intros a _.
  destruct (alive a); [|by apply steady_ret].
  eapply (steady_bind _ _ (λ _, True)); [by apply steady_gets|]. intros l _. cbv zeta.
  case_decide; [by apply steady_ret|].
  eapply steady_bind; [apply steady_consider_trade_offer|].
  intros [offer|] Hoffer; [|by apply steady_ret].
  eapply steady_bind; [by apply steady_add_offer|]. intros; by apply steady_ret.
Qed.

Lemma steady_collect_agents_with_offers roster :
  steady R good (collect_agents_with_offers roster)
    (Forall (λ entry : nat * list TradeOffer, Forall good entry.2)).
Proof.
  unfold collect_agents_with_offers. apply steady_for_; [|done].
  intros agent entries _ Hentries.
  eapply steady_bind; [apply steady_deref|]. intros a _.
  destruct (alive a); [|by apply steady_ret].
  eapply (steady_bind _ _ (λ m, Forall good (offers m))); [by apply steady_gets|].
  intros m Hm. cbv zeta. case_decide; [by apply steady_ret|].
  apply steady_ret. apply Forall_app. split; [done|]. constructor; [|done].
  cbn. unfold get_offers_for_agent. rewrite Forall_forall in Hm.
  apply Forall_forall. intros o Ho. apply list_elem_of_filter in Ho as [_ Ho]. auto.
Qed.

Lemma steady_process_acceptance cfg agents_dict step entry trading_events :
  Forall good entry.2 →
  steady R good (process_acceptance cfg agents_dict step entry trading_events)
    (λ _, True).
Proof.
  destruct entry as [agent offers_]. cbn [snd]. intros Hoffers.
  unfold process_acceptance.
  eapply steady_bind; [by apply steady_consider_trade_acceptance|].
  intros [accepted_offer|] Hacc; cbn in Hacc.
  - eapply steady_bind; [by apply steady_execute_trade|].
    intros [] _; cbv zeta.
    + eapply steady_bind; [apply steady_remove_offer|]. intros _ _.
      eapply (steady_bind _ _ (λ _, True)); [by apply steady_gets|]. intros m _.
      apply (steady_for_ _ _ (λ _, True)); [|done]. intros conflict events _ _.
      eapply steady_bind; [apply steady_remove_offer|]. intros; by apply steady_ret.
    + eapply steady_bind; [apply steady_remove_offer|]. intros; by apply steady_ret.
  - apply (steady_for_ _ _ (λ _, True)); [|done]. intros offer events _ _.
    cbv zeta.
    eapply steady_bind; [apply steady_remove_offer|]. intros; by apply steady_ret.
Qed.

Lemma steady_process_trading_phase cfg roster step :
  steady R good (process_trading_phase cfg roster step) (λ _, True).
Proof.
  unfold process_trading_phase. case_decide; [by apply steady_ret|].
  eapply (steady_bind _ _ (λ _, True)); [by apply steady_gets|]. intros l _. cbv zeta.
  eapply steady_bind; [apply steady_make_offers|]. intros events _.
  eapply steady_bind; [apply steady_collect_agents_with_offers|].
  intros entries Hentries.
  eapply steady_bind; [by apply steady_random_shuffle|].
  intros shuffled Hshuffled. rewrite Forall_forall in Hshuffled.
  eapply steady_bind.
  { apply (steady_for_ _ _ (λ _, True)); [|done]. intros entry events' Hin _.
    apply steady_process_acceptance; auto. }
  intros events' _.
  eapply steady_bind; [apply steady_clear_offers|]. intros; by apply steady_ret.
Qed.

(** *** Every operation, and every sequence of operations *)

Lemma decide_and_act_preserves cfg self all_agents w :
  Forall2 R (agents w) (agents (world_of (decide_and_act cfg self all_agents w))) ∧
  market (world_of (decide_and_act cfg self all_agents w)) = market w.
Proof.
  destruct (agents w !! self) as [me|] eqn:H.
  - destruct (decide_and_act_effect cfg self all_agents w me H)
      as (me' & env' & rs & qs & r' & -> & Hev & _).
    split; [|done]. cbn. apply agents_R_insert with me; auto.
  - rewrite decide_and_act_dangling by done. split; [apply agents_R_refl|done].
Qed.

Lemma operation_preserves cfg w w' :
  operation good cfg w w' → Forall good (offers (market w)) →
  Forall2 R (agents w) (agents w') ∧ Forall good (offers (market w')).
Proof.
  intros Hop Hg. destruct Hop as [self all_agents w|offer d w Hoffer|roster step w|e rs r w].
  - destruct (decide_and_act_preserves cfg self all_agents w) as [H1 H2].
    split; [done|]. by rewrite H2.
  - destruct (steady_execute_trade offer d Hoffer w Hg) as (H1 & H2 & _). done.
  - destruct (steady_process_trading_phase cfg roster step w Hg) as (H1 & H2 & _).
    done.
  - split; [apply agents_R_refl|done].
Qed.

Lemma run_preserves cfg w w' :
  rtc (operation good cfg) w w' → Forall good (offers (market w)) →
  Forall2 R (agents w) (agents w') ∧ Forall good (offers (market w')).
Proof.
  induction 1 as [w|w w1 w2 Hop _ IH]; intros Hg.
  - split; [apply agents_R_refl|done].
  - destruct (operation_preserves cfg w w1 Hop Hg) as [H1 H2].
    destruct (IH H2) as [H3 H4]. split; [by eapply agents_R_trans|done].
Qed.

End Preservation.

(** *** The two instances *)

Lemma frozen_of_evolves a b : agent_evolves a b → frozen a b.
Proof. intros (?&?&_). by split. Qed.

Lemma frozen_trans a b c : frozen a b → frozen b c → frozen a c.
Proof.
  intros [Hn1 Hd1] [Hn2 Hd2]. split; [congruence|].
  intros Ha. specialize (Hd1 Ha). subst b. by apply Hd2.
Qed.

Lemma Forall2_put (R : Agent → Agent → Prop) l i a b :
  (∀ a, R a a) → l !! i = Some a → R a b → Forall2 R l (<[i := b]> l).
Proof.
  intros Hrefl Hl Hab. rewrite <- (list_insert_id l i a Hl) at 1.
  apply Forall2_insert; [|done]. apply Forall_Forall2_diag, Forall_forall. auto.
Qed.

(** An executed trade leaves dead agents as they are, whatever the
    quantities of the offer. *)
Lemma execute_trade_frozen offer agents_dict w :
  Forall2 frozen (agents w) (agents (world_of (execute_trade offer agents_dict w))).
Proof.
  assert (∀ a, frozen a a) as Hrefl by (by split).
  destruct (execute_trade_cases offer agents_dict w)
    as [->|[[e ->]|(io & it & o & t & _ & _ & Ho & Ht & Hao & Hat & _ & ->)]];
    try (apply Forall_Forall2_diag, Forall_forall; auto).
  cbn. eapply Forall2_trans; [apply frozen_trans| |].
  - apply (Forall2_put frozen _ io o (as_offerer offer o)); [done..|].
    split; [done|congruence].
  - destruct (decide (it = io)) as [->|Hne].
    + eapply (Forall2_put frozen); [done| |].
      * apply list_lookup_insert_eq. by eapply lookup_lt_Some.
      * split; [done|]. cbn. congruence.
    + eapply (Forall2_put frozen); [done| |].
      * by rewrite list_lookup_insert_ne.
      * split; [done|congruence].
Qed.

(** With quantities that are not negative it leaves every count that is
    not negative so. *)
Lemma execute_trade_evolves offer agents_dict w :
  offer_nonneg offer →
  Forall2 agent_evolves (agents w)
    (agents (world_of (execute_trade offer agents_dict w))).
Proof.
  intros (Hor & Hog & Hrr & Hrg).
  destruct (execute_trade_cases offer agents_dict w)
    as [->|[[e ->]|(io & it & o & t & _ & _ & Ho & Ht & Hao & Hat & Hres & ->)]];
    try (apply Forall_Forall2_diag, Forall_forall; intros; apply agent_evolves_refl).
  destruct Hres as (H1 & H2 & H3 & H4).
  cbn. destruct (decide (it = io)) as [->|Hne].
  - rewrite list_insert_insert_eq.
    eapply (Forall2_put agent_evolves); [apply agent_evolves_refl|done|].
    assert (t = o) as -> by congruence.
    split; [done|]. split; [congruence|]. cbn. split; lia.
  - eapply Forall2_trans; [apply agent_evolves_trans| |].
    + apply (Forall2_put agent_evolves _ io o (as_offerer offer o));
        [apply agent_evolves_refl|done|].
      split; [done|]. split; [congruence|]. cbn. split; lia.
    + eapply (Forall2_put agent_evolves); [apply agent_evolves_refl| |].
      * by rewrite list_lookup_insert_ne.
      * split; [done|]. split; [congruence|]. cbn. split; lia.
Qed.

Lemma run_evolves cfg w w' :
  rtc (operation offer_nonneg cfg) w w' → pending_nonneg w →
  world_evolves w w' ∧ pending_nonneg w'.
Proof.
  apply (run_preserves agent_evolves offer_nonneg agent_evolves_refl
           agent_evolves_trans (λ a b H, H) (λ o H, H)).
  intros offer agents_dict w0. apply execute_trade_evolves.
Qed.

Lemma run_frozen cfg w w' :
  rtc (operation (λ _, True) cfg) w w' → Forall2 frozen (agents w) (agents w').
Proof.
  intros Hrun.
  apply (run_preserves frozen (λ _, True) (λ a, conj eq_refl (λ _, eq_refl))
           frozen_trans frozen_of_evolves (λ _ _, I)
           (λ offer agents_dict w0 _, execute_trade_frozen offer agents_dict w0)
           cfg w w' Hrun).
  by apply Forall_forall.
Qed.

(** ** The conflict invariant of the trading phase (C1) *)

Lemma randbelow_bound n w :
  (0 < n)%nat → ∃ i r, (i < n)%nat ∧ randbelow n w = Returned i (set_rng r w).
Proof.
  intros Hn. unfold randbelow. destruct (rng w) as [|d ds] eqn:Hr.
  - exists 0%nat, []. split; [done|]. f_equal. rewrite <- Hr. by destruct w.
  - exists (d mod n)%nat, ds. split; [|done]. apply Nat.mod_upper_bound. lia.
Qed.

Lemma shuffle_pair {A} (a b : A) w :
  ∃ r, random_shuffle [a; b] w = Returned [a; b] (set_rng r w) ∨
       random_shuffle [a; b] w = Returned [b; a] (set_rng r w).
Proof.
  destruct (randbelow_bound 2 w ltac:(lia)) as (i & r & Hi & Hr).
  exists r. unfold random_shuffle. cbn [length Nat.sub shuffle_from].
  erewrite bind_Returned by exact Hr.
  destruct i as [|[|]]; [by right|by left|lia].
Qed.

(** C1, as the code has it: two neighbours offer each other a trade;
    both offers are pending when the acceptance phase starts, each agent
    decides on the offers it was handed before the loop, and after the
    first trade is executed and the other offer is cancelled, that
    cancelled offer is accepted and executed all the same.  Whatever the
    random draws, the ledger of the one phase ends with two trades, and
    each of the two agents is a party of both. *)
Theorem cancelled_offer_still_executed (draws : list nat) :
  let ledger :=
    completed_trades (market (world_of
      (process_trading_phase example_config [0; 1]%nat 1 (two_traders draws)))) in
  (ledger = [offer_1_to_2; offer_2_to_1] ∨ ledger = [offer_2_to_1; offer_1_to_2]) ∧
  involves "Agent1" offer_1_to_2 ∧ involves "Agent1" offer_2_to_1 ∧
  ¬ conflict_free ledger.
Proof.
  cbv zeta.
  assert (let ledger :=
    completed_trades (market (world_of
      (process_trading_phase example_config [0; 1]%nat 1 (two_traders draws)))) in
    ledger = [offer_1_to_2; offer_2_to_1] ∨ ledger = [offer_2_to_1; offer_1_to_2])
    as Hledger.
  { unfold process_trading_phase.
    rewrite decide_False by (cbn; lia). step_gets. cbv zeta.
    destruct draws as [|d1 [|d2 rest]];
      (run_in_context ltac:(vm_compute; reflexivity);
       run_in_context ltac:(vm_compute; reflexivity);
       match goal with
       | |- context [@mbind M M_bind _ _ _ (random_shuffle [?a; ?b]) ?w0] =>
           destruct (shuffle_pair a b w0) as [r [Hs|Hs]]
       end;
       run_in_context ltac:(exact Hs); vm_compute; auto). }
  split; [exact Hledger|]. split; [by left|]. split; [by right|].
  intros Hfree. cbv zeta in Hledger.
  destruct Hledger as [Hl|Hl]; rewrite Hl in Hfree.
  - by specialize (Hfree "Agent1" 0%nat 1%nat _ _ eq_refl eq_refl
                     (or_introl eq_refl) (or_intror eq_refl)).
  - by specialize (Hfree "Agent1" 0%nat 1%nat _ _ eq_refl eq_refl
                     (or_intror eq_refl) (or_introl eq_refl)).
Qed.

(** ** The retry of a failed attempt (C2) *)

(** A step never makes a second request, and no request carries a retry
    hint: the requests logged by a step are those logged before, or those
    and one more without a hint. *)
Lemma step_requests_once cfg self all_agents w :
  let w' := world_of (decide_and_act cfg self all_agents w) in
  llm_requests w' = llm_requests w ∨
  ∃ q, llm_requests w' = llm_requests w ++ [q] ∧ retry_message q = None.
Proof.
  cbv zeta. destruct (agents w !! self) as [me|] eqn:H.
  - destruct (decide_and_act_effect cfg self all_agents w me H)
      as (me' & env' & rs & qs & r' & -> & _ & Hqs). exact Hqs.
  - rewrite decide_and_act_dangling by done. by left.
Qed.

(** C2, as the code has it: the body of the loop over the two attempts
    ends with [return result], so the first attempt is the only one.
    Whatever the store, a step logs no request or one, and never one with
    a retry hint.  An invalid answer ends the step with "failed to act"
    and a blocked move ends it with "move blocked: other agent or wall";
    either way one request has been made, without a hint, and the second
    answer of the backend is still waiting. *)
Theorem failed_attempt_is_not_retried :
  (∀ cfg self all_agents w,
     let w' := world_of (decide_and_act cfg self all_agents w) in
     llm_requests w' = llm_requests w ∨
     ∃ q, llm_requests w' = llm_requests w ++ [q] ∧ retry_message q = None) ∧
  (∃ w', decide_and_act example_config 0 [0%nat]
           (lone_agent [Some "fly"; Some "do nothing"])
         = Returned "failed to act" w' ∧
         retry_message <$> llm_requests w' = [None] ∧
         llm_responses w' = [Some "do nothing"]) ∧
  (∃ w', decide_and_act example_config 0 [0%nat]
           (lone_agent [Some "move up"; Some "move down"])
         = Returned "move blocked: other agent or wall" w' ∧
         retry_message <$> llm_requests w' = [None] ∧
         llm_responses w' = [Some "move down"]).
Proof.
  split; [exact step_requests_once|].
  split; eexists; vm_compute; done.
Qed.

(** ** An empty or absent answer (C3) *)

Lemma or_default_falsy s d : truthy s = false → or_default s d = d.
Proof.
  destruct s as [t|]; [|done]. cbn. intros Ht. apply bool_decide_eq_false in Ht.
  rewrite decide_True; [done|]. by destruct (decide (t = "")).
Qed.

(** C3, as the claim states it, fails: an absent answer ends the step
    with "did nothing", not with "failed to act". *)
Lemma absent_answer_is_no_failure :
  let r := decide_and_act example_config 0 [0%nat] (lone_agent [None]) in
  (∃ w', r = Returned "did nothing" w') ∧ ¬ (∃ w', r = Returned "failed to act" w').
Proof.
  cbv zeta. split.
  - eexists. vm_compute. reflexivity.
  - intros [w' Hw']. vm_compute in Hw'. discriminate.
Qed.

(** C3, amended: an empty or absent answer is replaced by the action
    "do nothing".  One request is made, without a retry hint; the step
    ends with "did nothing"; the agent keeps its position, its inventory
    and its life, its energy is lower by the loss of the turn only, the
    action is entered into its history; the environment, the market and
    the other agents are as before. *)
Theorem empty_answer_does_nothing cfg self all_agents w me :
  agents w !! self = Some me → alive me = true →
  0 < energy me - ENERGY_LOSS_PER_TURN cfg → RAND_MODE cfg ≠ 1 →
  truthy (next_response w) = false →
  ∃ w' me' q,
    decide_and_act cfg self all_agents w = Returned "did nothing" w' ∧
    agents w' = <[self := me']> (agents w) ∧
    position me' = position me ∧ inventory me' = inventory me ∧
    alive me' = true ∧ energy me' = energy me - ENERGY_LOSS_PER_TURN cfg ∧
    actions_taken me' = actions_taken me ++ ["do nothing"] ∧
    environment w' = environment w ∧ market w' = market w ∧
    llm_requests w' = llm_requests w ++ [q] ∧ retry_message q = None.
Proof.
  intros H Ha He Hmode Hempty.
  pose proof (decide_and_act_acts cfg self all_agents w me H Ha He Hmode) as Hact.
  cbv zeta in Hact. rewrite (or_default_falsy _ _ Hempty) in Hact.
  edestruct Hact as [mem Hm].
  { eapply apply_action_do_nothing. lookup_agent. }
  { lookup_agent. }
  rewrite put_put in Hm. eexists _, _, _. split; [exact Hm|].
  cbn. rewrite ?list_insert_insert_eq. by repeat split.
Qed.

Lemma empty_answer_does_nothing_witness :
  ∃ w' me' q,
    decide_and_act example_config 0 [0%nat] (lone_agent [Some ""])
      = Returned "did nothing" w' ∧
    agents w' = <[0%nat := me']> (agents (lone_agent [Some ""])) ∧
    position me' = (0, 3) ∧ inventory me' = {| red := 0; green := 2 |} ∧
    alive me' = true ∧ energy me' = 10 - 1 ∧
    actions_taken me' = [] ++ ["do nothing"] ∧
    environment w' = example_grid ∧ market w' = empty_market ∧
    llm_requests w' = [] ++ [q] ∧ retry_message q = None.
Proof.
  apply (empty_answer_does_nothing example_config 0 [0%nat] (lone_agent [Some ""])
           (new_agent "Agent1" (0, 3) {| red := 0; green := 2 |} 10
              {| red := 3; green := 1 |}));
    [reflexivity|reflexivity|cbn; lia|cbn; lia|reflexivity].
Defined.

(** ** Running out of energy (C7) *)

(** C7, as the claim states it, fails: the step that kills the agent
    changes more of it than the energy and the flag, the step counter has
    been advanced. *)
Lemma death_advances_step_counter :
  ∃ w' a a',
    agents exhausted_agent !! 0%nat = Some a ∧
    decide_and_act example_config 0 [0%nat] exhausted_agent
      = Returned "ran out of energy" w' ∧
    agents w' !! 0%nat = Some a' ∧
    a' ≠ set_alive false (set_energy (energy a - 1) a) ∧
    step_count a = 0 ∧ step_count a' = 1.
Proof.
  eexists _, _, _. split; [reflexivity|]. split; [vm_compute; reflexivity|].
  split; [reflexivity|]. split; [|done]. intros Heq.
  apply (f_equal step_count) in Heq. vm_compute in Heq. discriminate.
Qed.

(** C7, amended.  A living agent whose energy, lowered by the loss of the
    turn, is not positive: the step returns "ran out of energy"; the agent
    is as before but for its energy, lowered by the loss, its flag, now
    false, and its step counter, advanced by one on entry; nothing else
    of the store changes, so nothing was observed, requested or applied.
    From then on, through any sequence of operations, the agent stays
    exactly as it died, and a step of it returns "inactive" and changes
    nothing. *)
Theorem exhausted_agent_dies_for_good cfg self all_agents w me :
  agents w !! self = Some me → alive me = true →
  energy me - ENERGY_LOSS_PER_TURN cfg ≤ 0 →
  let dead := set_alive false
                (set_energy (energy me - ENERGY_LOSS_PER_TURN cfg)
                   (set_step_count (step_count me + 1) me)) in
  decide_and_act cfg self all_agents w
    = Returned "ran out of energy" (put self dead w) ∧
  ∀ w', rtc (operation (λ _, True) cfg) (put self dead w) w' →
    agents w' !! self = Some dead ∧
    ∀ others, decide_and_act cfg self others w' = Returned "inactive" w'.
Proof.
  intros H Ha He dead. split; [by apply decide_and_act_dies|].
  intros w' Hrun. apply run_frozen in Hrun.
  assert (agents (put self dead w) !! self = Some dead) as Hd by lookup_agent.
  destruct (Forall2_lookup_l _ _ _ _ _ Hrun Hd) as (a' & Ha' & _ & Hfrozen).
  rewrite (Hfrozen eq_refl) in Ha'. split; [done|].
  intros others. by eapply decide_and_act_dead.
Qed.

Lemma exhausted_agent_dies_for_good_witness :
  let me := new_agent "Agent1" (0, 3) {| red := 1; green := 2 |} 1
              {| red := 3; green := 1 |} in
  let dead := set_alive false (set_energy (1 - 1) (set_step_count (0 + 1) me)) in
  decide_and_act example_config 0 [0%nat] exhausted_agent
    = Returned "ran out of energy" (put 0 dead exhausted_agent) ∧
  ∀ w', rtc (operation (λ _, True) example_config) (put 0 dead exhausted_agent) w' →
    agents w' !! 0%nat = Some dead ∧
    ∀ others, decide_and_act example_config 0 others w' = Returned "inactive" w'.
Proof.
  apply (exhausted_agent_dies_for_good example_config 0 [0%nat] exhausted_agent
           (new_agent "Agent1" (0, 3) {| red := 1; green := 2 |} 1
              {| red := 3; green := 1 |}));
    [reflexivity|reflexivity|cbn; lia].
Defined.

(** ** Moves (C8) *)

(** Within the grid the dictionary of the four neighbours is the
    displacement by one step, clamped to the bounds. *)
Lemma new_position_clamped size x y direction :
  0 ≤ x < size → 0 ≤ y < size →
  new_position size x y direction = clamped_step size (x, y) direction.
Proof.
  intros Hx Hy. unfold new_position, clamped_step, displacement, clamp.
  repeat case_decide; try done; cbn [fst snd]; do 2 f_equal; lia.
Qed.

Lemma or_default_move action d :
  startswith action "move" = true → or_default (Some action) d = action.
Proof. intros Hs. cbn. case_decide; [by subst|done]. Qed.

(** C8: the answer is a move in one of the four directions.  The target
    is read from the dictionary of the four clamped neighbours, which for
    a position on the grid is the displaced position clamped to the grid.
    The move succeeds, with the position updated in the store at once, if
    the target differs from the current position and no other living
    agent stands on it; otherwise the position is kept and the outcome
    is "move blocked: other agent or wall". *)
Theorem move_succeeds_iff_target_free cfg self all_agents w me action direction tgt :
  agents w !! self = Some me → alive me = true →
  0 < energy me - ENERGY_LOSS_PER_TURN cfg → RAND_MODE cfg ≠ 1 →
  next_response w = Some action →
  startswith action "move" = true → split action !! 1%nat = Some direction →
  new_position (Env.size (environment w)) (position me).1 (position me).2 direction
    = Some tgt →
  let free := tgt ≠ position me ∧ ¬ occupied_by_other w self all_agents tgt in
  (0 ≤ (position me).1 < Env.size (environment w) →
   0 ≤ (position me).2 < Env.size (environment w) →
   clamped_step (Env.size (environment w)) (position me) direction = Some tgt) ∧
  ∃ w' me',
    agents w' !! self = Some me' ∧
    (free →
     decide_and_act cfg self all_agents w
       = Returned ("moved " +:+ direction +:+ " (energy: "
                   +:+ str_int (energy me - ENERGY_LOSS_PER_TURN cfg) +:+ ")") w' ∧
     position me' = tgt) ∧
    (¬ free →
     decide_and_act cfg self all_agents w
       = Returned "move blocked: other agent or wall" w' ∧
     position me' = position me).
Proof.
  intros H Ha He Hmode Hresp Hs Hd Ht free. split.
  { intros Hx Hy. rewrite <- Ht. symmetry.
    rewrite (surjective_pairing (position me)) at 3.
    by apply new_position_clamped. }
  pose proof (decide_and_act_acts cfg self all_agents w me H Ha He Hmode) as Hact.
  cbv zeta in Hact. rewrite Hresp, (or_default_move _ _ Hs) in Hact.
  match type of Hact with
  | ∀ res retry' w3 me3, apply_action _ _ _ _ _ _ ?w2 = _ → _ =>
      pose proof (apply_action_move self (position me).1 (position me).2
        (occupied_positions (agents w) self all_agents) action None w2
        _ direction tgt ltac:(lookup_agent) Hs Hd Ht) as Hmove
  end.
  cbn [position energy set_actions_taken set_energy set_step_count] in Hmove.
  assert (free ↔ (tgt ∉ occupied_positions (agents w) self all_agents)
                 ∧ tgt ≠ position me) as Hfree.
  { unfold free, occupied_by_other. rewrite elem_of_occupied_positions. tauto. }
  destruct (decide ((tgt ∉ occupied_positions (agents w) self all_agents)
                    ∧ tgt ≠ position me)) as [Hyes|Hno].
  - edestruct Hact as [mem Hm]; [exact Hmove|lookup_agent|].
    match type of Hm with _ = Returned _ ?w1 => exists w1 end.
    eexists. split; [lookup_agent|]. split; [|tauto].
    intros _. split; [exact Hm|done].
  - edestruct Hact as [mem Hm]; [exact Hmove|lookup_agent|].
    match type of Hm with _ = Returned _ ?w1 => exists w1 end.
    eexists. split; [lookup_agent|]. split; [tauto|].
    intros _. split; [exact Hm|done].
Qed.

(** The example of the claim: [move up] from (0, 3) on a grid of side 5
    has the target (0, 3), the position of the agent, and is blocked. *)
Lemma move_succeeds_iff_target_free_witness :
  new_position 5 0 3 "up" = Some (0, 3) ∧
  ∃ w', decide_and_act example_config 0 [0%nat] (lone_agent [Some "move up"])
        = Returned "move blocked: other agent or wall" w'.
Proof.
  split; [reflexivity|].
  destruct (move_succeeds_iff_target_free example_config 0 [0%nat]
              (lone_agent [Some "move up"])
              (new_agent "Agent1" (0, 3) {| red := 0; green := 2 |} 10
                 {| red := 3; green := 1 |})
              "move up" "up" (0, 3))
    as (_ & w' & me' & _ & _ & Hblocked);
    [reflexivity|reflexivity|cbn; lia|cbn; lia|reflexivity|reflexivity
    |reflexivity|reflexivity|].
  exists w'. apply Hblocked. intros [Hne _]. by apply Hne.
Defined.

(** ** The offer of an agent (C4) *)

Lemma random_choice_nonempty {A} (l : list A) w :
  l ≠ [] → ∃ a r, a ∈ l ∧ random_choice l w = Returned a (set_rng r w).
Proof.
  intros Hl. destruct (randbelow_bound (length l) w) as (i & r & Hi & Hr).
  { destruct l; [done|cbn; lia]. }
  destruct (lookup_lt_is_Some_2 l i Hi) as [a Ha].
  exists a, r. split; [by eapply list_elem_of_lookup_2|].
  unfold random_choice. erewrite bind_Returned by exact Hr.
  unfold index. by rewrite Ha.
Qed.

Lemma elem_of_get_agents_in_trade_range l agent all_agents trade_range i :
  i ∈ get_agents_in_trade_range l agent all_agents trade_range →
  ∃ me other, l !! agent = Some me ∧ l !! i = Some other ∧ i ∈ all_agents ∧
              within_trade_range me other trade_range.
Proof.
  unfold get_agents_in_trade_range. case_decide; [by intros ?%elem_of_nil|].
  intros (j & Hj & Hf)%list_elem_of_omap.
  destruct (l !! agent) as [me|]; [|done].
  destruct (l !! j) as [other|] eqn:Hl; [|done].
  case_decide; [|done]. injection Hf as <-. by exists me, other.
Qed.

(** C4, as the claim states it, fails: a red-leaning agent that holds no
    green and has a neighbour makes no offer at all, rather than an offer
    of 0 green for 1 red. *)
Lemma no_offer_without_the_resource :
  let nearby := get_agents_in_trade_range (agents nothing_to_offer) 0 [0; 1]%nat
                  (TRADE_RANGE example_config) in
  nearby = [1%nat] ∧
  consider_trade_offer example_config 0 nearby 1 nothing_to_offer
    = Returned None nothing_to_offer ∧
  ¬ ∃ offer w', consider_trade_offer example_config 0 nearby 1 nothing_to_offer
                = Returned (Some offer) w'.
Proof.
  cbv zeta. split; [by vm_compute|]. split; [by vm_compute|].
  intros (offer & w' & Ho). vm_compute in Ho. discriminate.
Qed.

(** C4, amended.  Outside random mode, an agent with at least one living
    neighbour in trade range: if its rates are strictly unequal and it
    holds at least one unit of the resource it gains less from, it makes
    one offer, to a living neighbour in range, of exactly 1 unit of that
    resource (which its inventory covers) for 1 unit of the other; if it
    holds none of that resource it makes no offer; with equal rates it
    makes no offer. *)
Theorem offer_needs_the_offered_resource cfg self roster step w me :
  agents w !! self = Some me → RAND_MODE cfg ≠ 1 →
  let nearby := get_agents_in_trade_range (agents w) self roster (TRADE_RANGE cfg) in
  nearby ≠ [] →
  let red_rate := red (consumption_rates me) in
  let green_rate := green (consumption_rates me) in
  (red_rate > green_rate → green (inventory me) > 0 →
   ∃ i other r,
     i ∈ roster ∧ agents w !! i = Some other ∧
     within_trade_range me other (TRADE_RANGE cfg) ∧
     1 ≤ green (inventory me) ∧
     consider_trade_offer cfg self nearby step w =
       Returned (Some {| offerer := name me; target := name other;
                         offer_red := 0; offer_green := 1;
                         request_red := 1; request_green := 0;
                         step := step |}) (set_rng r w)) ∧
  (green_rate > red_rate → red (inventory me) > 0 →
   ∃ i other r,
     i ∈ roster ∧ agents w !! i = Some other ∧
     within_trade_range me other (TRADE_RANGE cfg) ∧
     1 ≤ red (inventory me) ∧
     consider_trade_offer cfg self nearby step w =
       Returned (Some {| offerer := name me; target := name other;
                         offer_red := 1; offer_green := 0;
                         request_red := 0; request_green := 1;
                         step := step |}) (set_rng r w)) ∧
  (red_rate > green_rate → green (inventory me) ≤ 0 →
   consider_trade_offer cfg self nearby step w = Returned None w) ∧
  (green_rate > red_rate → red (inventory me) ≤ 0 →
   consider_trade_offer cfg self nearby step w = Returned None w) ∧
  (red_rate = green_rate →
   consider_trade_offer cfg self nearby step w = Returned None w).
Proof.
  intros H Hmode nearby Hnearby red_rate green_rate.
  assert (¬ (TRADE_RANGE cfg ≤ 0 ∨ nearby = [])) as Hguard.
  { intros [Hr|Hn]; [|done]. apply Hnearby. unfold nearby, get_agents_in_trade_range.
    by rewrite decide_True. }
  assert (∀ (build : Agent → TradeOffer),
    ∃ i other r, i ∈ roster ∧ agents w !! i = Some other ∧
      within_trade_range me other (TRADE_RANGE cfg) ∧
      (random_choice nearby ≫= λ target_ref, deref target_ref ≫= λ target_agent,
         mret (Some (build target_agent))) w
      = Returned (Some (build other)) (set_rng r w)) as Hchoice.
  { intros build.
    destruct (random_choice_nonempty nearby w Hnearby) as (i & r & Hi & Hr).
    apply elem_of_get_agents_in_trade_range in Hi
      as (me0 & other & Hme0 & Hother & Hin & Hrange).
    assert (me0 = me) as -> by congruence.
    exists i, other, r. repeat (split; [done|]).
    erewrite bind_Returned by exact Hr.
    by erewrite bind_Returned by (apply deref_Some; lookup_agent). }
  unfold consider_trade_offer. fold nearby.
  rewrite (decide_False (P := _ ∨ _)) by done.
  rewrite (decide_False (P := RAND_MODE cfg = 1)) by done.
  erewrite bind_Returned by (by apply deref_Some). cbv zeta.
  fold red_rate green_rate.
  repeat split.
  - intros Hr Hg. rewrite decide_True by done.
    destruct (Hchoice (λ target_agent,
      {| offerer := name me; target := name target_agent; offer_red := 0;
         offer_green := Z.min 1 (green (inventory me));
         request_red := 1; request_green := 0; step := step |}))
      as (i & other & r & ? & ? & ? & Heq).
    exists i, other, r. repeat (split; [done|]). split; [lia|].
    rewrite Heq. by rewrite Z.min_l by lia.
  - intros Hr Hg. rewrite decide_False by lia. rewrite decide_True by done.
    destruct (Hchoice (λ target_agent,
      {| offerer := name me; target := name target_agent;
         offer_red := Z.min 1 (red (inventory me)); offer_green := 0;
         request_red := 0; request_green := 1; step := step |}))
      as (i & other & r & ? & ? & ? & Heq).
    exists i, other, r. repeat (split; [done|]). split; [lia|].
    rewrite Heq. by rewrite Z.min_l by lia.
  - intros Hr Hg. by rewrite !decide_False by lia.
  - intros Hr Hg. by rewrite !decide_False by lia.
  - intros Hr. by rewrite !decide_False by lia.
Qed.

Lemma offer_needs_the_offered_resource_witness :
  ∃ i other r,
    i ∈ [0; 1]%nat ∧ agents (two_traders []) !! i = Some other ∧
    consider_trade_offer example_config 0 [1%nat] 1 (two_traders []) =
      Returned (Some {| offerer := "Agent1"; target := name other;
                        offer_red := 0; offer_green := 1;
                        request_red := 1; request_green := 0;
                        step := 1 |}) (set_rng r (two_traders [])).
Proof.
  destruct (offer_needs_the_offered_resource example_config 0 [0; 1]%nat 1
              (two_traders [])
              (new_agent "Agent1" (0, 3) {| red := 0; green := 2 |} 10
                 {| red := 3; green := 1 |}))
    as [Hoffer _]; [reflexivity|cbn; lia|by vm_compute|].
  destruct Hoffer as (i & other & r & Hi & Ho & _ & _ & Heq); [cbn; lia..|].
  by exists i, other, r.
Defined.

(** ** The execution of a trade (C5, C6, C10) *)

Lemma as_offerer_inventory offer o :
  as_offerer offer o =
    set_inventory
      {| red := red (inventory o) - offer_red offer + request_red offer;
         green := green (inventory o) - offer_green offer + request_green offer |} o.
Proof. reflexivity. Qed.

Lemma as_target_inventory offer t :
  as_target offer t =
    set_inventory
      {| red := red (inventory t) - request_red offer + offer_red offer;
         green := green (inventory t) - request_green offer + offer_green offer |} t.
Proof. reflexivity. Qed.

Lemma trade_with_oneself offer o : as_target offer (as_offerer offer o) = o.
Proof.
  rewrite as_offerer_inventory, as_target_inventory.
  destruct o as [n p [r g] e a c at_ m s]. unfold set_inventory.
  cbn [name position inventory energy alive consumption_rates actions_taken
       memory step_count red green].
  f_equal. f_equal; lia.
Qed.

(** C5: both parties are on the roster and alive.  If the inventories no
    longer cover the trade, [execute_trade] returns [False] with the
    store as it was: no inventory and no ledger entry has changed; the
    trading phase then enters the failure into its events, takes the
    offer off the pending ones and goes on, nothing else being done with
    it.  If they cover it, the offerer has lost what it offered and gained
    what it requested, the target has lost what was requested and gained
    what was offered, nothing else of the agents has changed, and the
    offer has been appended to the ledger. *)
Theorem trade_revalidated_at_execution offer agents_dict w io it o t :
  agents_dict !! offerer offer = Some io → agents_dict !! target offer = Some it →
  agents w !! io = Some o → agents w !! it = Some t →
  alive o = true → alive t = true →
  (¬ resources_available o t offer →
   execute_trade offer agents_dict w = Returned false w ∧
   ∀ cfg step agent offers_ events w0,
     consider_trade_acceptance cfg agent offers_ step w0 = Returned (Some offer) w →
     process_acceptance cfg agents_dict step (agent, offers_) events w0 =
       Returned
         (events ++ ["  FAILED: " +:+ str_offer offer +:+ " (insufficient resources)"])
         (set_market (set_offers (remove_first offer (offers (market w))) (market w)) w)) ∧
  (resources_available o t offer →
   ∃ w', execute_trade offer agents_dict w = Returned true w' ∧
     completed_trades (market w') = completed_trades (market w) ++ [offer] ∧
     offers (market w') = offers (market w) ∧
     (io ≠ it →
      agents w' =
        <[it := set_inventory
            {| red := red (inventory t) - request_red offer + offer_red offer;
               green := green (inventory t) - request_green offer + offer_green offer |} t]>
          (<[io := set_inventory
               {| red := red (inventory o) - offer_red offer + request_red offer;
                  green := green (inventory o) - offer_green offer + request_green offer |} o]>
             (agents w))) ∧
     (io = it → agents w' = agents w)).
Proof.
  intros Hio Hit Ho Ht Hao Hat. split.
  - intros Hno.
    pose proof (execute_trade_insufficient offer agents_dict w io it o t
                  Hio Hit Ho Ht Hno) as Hex.
    split; [done|]. intros cfg step agent offers_ events w0 Hacc.
    unfold process_acceptance. cbv beta iota.
    run_in_context ltac:(exact Hacc). cbv beta iota.
    run_in_context ltac:(exact Hex). cbv beta iota zeta.
    by run_in_context ltac:(reflexivity).
  - intros Hres. eexists. split; [by apply execute_trade_success|].
    split; [done|]. split; [done|]. split.
    + intros Hne. cbn. by rewrite decide_False by done.
    + intros ->. cbn. rewrite decide_True by done.
      rewrite list_insert_insert_eq, trade_with_oneself. by apply list_insert_id.
Qed.

Lemma example_dict_valid w :
  (2 ≤ length (agents w))%nat → dict_valid example_dict w.
Proof.
  intros Hlen n i. unfold example_dict.
  rewrite !lookup_insert_Some, lookup_empty.
  intros [[_ <-]|[_ [[_ <-]|[_ ?]]]]; [| |done]; apply lookup_lt_is_Some_2; lia.
Qed.

Lemma trade_revalidated_at_execution_witness :
  let stale := {| offerer := "Agent1"; target := "Agent2"; offer_red := 1;
                  offer_green := 0; request_red := 1; request_green := 0;
                  step := 1 |} in
  execute_trade stale example_dict trade_example = Returned false trade_example ∧
  ∃ w', execute_trade offer_1_to_2 example_dict trade_example = Returned true w' ∧
        completed_trades (market w') = [] ++ [offer_1_to_2].
Proof.
  pose (a1 := new_agent "Agent1" (0, 3) {| red := 0; green := 3 |} 10
                {| red := 2; green := 1 |}).
  pose (a2 := new_agent "Agent2" (0, 4) {| red := 2; green := 0 |} 10
                {| red := 2; green := 2 |}).
  split.
  - refine (proj1 (proj1 (trade_revalidated_at_execution _ example_dict trade_example
              0 1 a1 a2 _ _ _ _ _ _) _));
      try reflexivity.
    unfold resources_available. cbn. lia.
  - destruct (proj2 (trade_revalidated_at_execution offer_1_to_2 example_dict
                trade_example 0 1 a1 a2 eq_refl eq_refl eq_refl eq_refl
                eq_refl eq_refl)) as (w' & Hex & Hledger & _).
    { unfold resources_available. cbn. lia. }
    by exists w'.
Defined.

(** C6: an executed trade leaves the sum of each resource over its two
    parties as it was.  The example of the specification: the agent with
    {red: 0, green: 3} trades 1 green for 1 red with the neighbour that
    holds {red: 2, green: 0}, and ends with {red: 1, green: 2}, the
    neighbour with {red: 1, green: 1}; so does the whole trading phase in
    which the agent makes that offer and the neighbour accepts it. *)
Theorem trade_conserves_resources :
  (∀ offer agents_dict w io it o t,
     agents_dict !! offerer offer = Some io → agents_dict !! target offer = Some it →
     agents w !! io = Some o → agents w !! it = Some t →
     alive o = true → alive t = true → resources_available o t offer →
     ∃ w' o' t',
       execute_trade offer agents_dict w = Returned true w' ∧
       agents w' !! io = Some o' ∧ agents w' !! it = Some t' ∧
       red (inventory o') + red (inventory t')
         = red (inventory o) + red (inventory t) ∧
       green (inventory o') + green (inventory t')
         = green (inventory o) + green (inventory t)) ∧
  inventory <$> agents (world_of (execute_trade offer_1_to_2 example_dict trade_example))
    = [{| red := 1; green := 2 |}; {| red := 1; green := 1 |}] ∧
  inventory <$> agents (world_of
      (process_trading_phase example_config [0; 1]%nat 1 trade_example))
    = [{| red := 1; green := 2 |}; {| red := 1; green := 1 |}].
Proof.
  split; [|split; by vm_compute].
  intros offer agents_dict w io it o t Hio Hit Ho Ht Hao Hat Hres.
  pose proof (execute_trade_success offer agents_dict w io it o t
                Hio Hit Ho Ht Hao Hat Hres) as Hex.
  destruct (decide (it = io)) as [->|Hne].
  - assert (t = o) as -> by congruence.
    eexists _, _, _. split; [exact Hex|].
    split; [lookup_agent|]. split; [lookup_agent|].
    rewrite trade_with_oneself. split; lia.
  - eexists _, _, _. split; [exact Hex|].
    split; [lookup_agent|]. split; [lookup_agent|]. cbn. split; lia.
Qed.

Lemma trade_conserves_resources_witness :
  ∃ w' o' t',
    execute_trade offer_1_to_2 example_dict trade_example = Returned true w' ∧
    agents w' !! 0%nat = Some o' ∧ agents w' !! 1%nat = Some t' ∧
    red (inventory o') + red (inventory t') = 0 + 2 ∧
    green (inventory o') + green (inventory t') = 3 + 0.
Proof.
  apply (proj1 trade_conserves_resources offer_1_to_2 example_dict trade_example
           0%nat 1%nat
           (new_agent "Agent1" (0, 3) {| red := 0; green := 3 |} 10
              {| red := 2; green := 1 |})
           (new_agent "Agent2" (0, 4) {| red := 2; green := 0 |} 10
              {| red := 2; green := 2 |}));
    try reflexivity.
  unfold resources_available. cbn. lia.
Defined.

(** C10: if the offerer or the target of an offer is not on the roster,
    or is dead, [execute_trade] returns [False] with the store as it was:
    inventories, pending offers and ledger are unchanged.  Hence whenever
    it returns [True], or the ledger has changed at all, both parties
    were on the roster and alive in the store it was called on, and the
    ledger has grown by this offer. *)
Theorem trade_needs_two_living_agents offer agents_dict w :
  dict_valid agents_dict w →
  ((agents_dict !! offerer offer = None ∨ agents_dict !! target offer = None ∨
    ∃ i a, (agents_dict !! offerer offer = Some i ∨ agents_dict !! target offer = Some i)
           ∧ agents w !! i = Some a ∧ alive a = false) →
   execute_trade offer agents_dict w = Returned false w) ∧
  (((∃ w', execute_trade offer agents_dict w = Returned true w') ∨
    completed_trades (market (world_of (execute_trade offer agents_dict w)))
      ≠ completed_trades (market w)) →
   ∃ io it o t,
     agents_dict !! offerer offer = Some io ∧ agents_dict !! target offer = Some it ∧
     agents w !! io = Some o ∧ agents w !! it = Some t ∧
     alive o = true ∧ alive t = true ∧
     completed_trades (market (world_of (execute_trade offer agents_dict w)))
       = completed_trades (market w) ++ [offer]).
Proof.
  intros Hvalid. split.
  - intros [Habs|[Habs|(i & a & Hi & Ha & Hdead)]];
      [apply execute_trade_absent; by left|apply execute_trade_absent; by right|].
    destruct (agents_dict !! offerer offer) as [io|] eqn:Hio;
      [|apply execute_trade_absent; by left].
    destruct (agents_dict !! target offer) as [it|] eqn:Hit;
      [|apply execute_trade_absent; by right].
    destruct (Hvalid _ _ Hio) as [o Ho]. destruct (Hvalid _ _ Hit) as [t Ht].
    eapply execute_trade_dead; eauto.
    destruct Hi as [[= <-]|[= <-]]; [left|right]; congruence.
  - intros Hdone.
    destruct (execute_trade_cases offer agents_dict w)
      as [Hex|[[e Hex]|(io & it & o & t & Hio & Hit & Ho & Ht & Hao & Hat & _ & Hex)]].
    + rewrite Hex in Hdone. by destruct Hdone as [[w' ?]|?].
    + rewrite Hex in Hdone. by destruct Hdone as [[w' ?]|?].
    + exists io, it, o, t. repeat (split; [done|]). by rewrite Hex.
Qed.

Lemma trade_needs_two_living_agents_witness :
  execute_trade offer_1_to_2 example_dict dead_neighbour = Returned false dead_neighbour.
Proof.
  apply (proj1 (trade_needs_two_living_agents offer_1_to_2 example_dict dead_neighbour
                  (example_dict_valid dead_neighbour ltac:(cbn; lia)))).
  right; right. exists 1%nat. eexists. split; [by right|]. split; reflexivity.
Defined.

(** ** Inventories are never negative (C9) *)

Lemma evolves_nonneg l l' :
  Forall2 agent_evolves l l' →
  Forall (λ a, nonneg (inventory a)) l → Forall (λ a, nonneg (inventory a)) l'.
Proof.
  induction 1 as [|a a' l l' (_ & _ & Hr & Hg) _ IH]; [done|].
  intros [[? ?] ?]%Forall_cons. constructor; [split|]; auto.
Qed.

(** C9: through every sequence of operations (steps of agents with
    whatever the backend answers or the random mode chooses, among them
    collecting and eating; executions of trades, whose offers carry
    amounts and no negative quantity, as every offer the agents build
    does; whole trading phases), inventories that have no negative count,
    with pending offers of that kind, keep having none. *)
Theorem inventories_never_negative cfg w w' :
  rtc (operation offer_nonneg cfg) w w' →
  pending_nonneg w → inventories_nonneg w → inventories_nonneg w'.
Proof.
  intros Hrun Hpending Hinv.
  destruct (run_evolves cfg w w' Hrun Hpending) as [Hev _].
  by eapply evolves_nonneg.
Qed.

Lemma inventories_never_negative_witness :
  inventories_nonneg
    (world_of (process_trading_phase example_config [0; 1]%nat 1
       (world_of (decide_and_act example_config 0 [0; 1]%nat
          (example_world (agents trade_example) [Some "eat green"] []))))).
Proof.
  apply (inventories_never_negative example_config
           (example_world (agents trade_example) [Some "eat green"] [])).
  - eapply rtc_l; [apply op_decide_and_act|]. apply rtc_once, op_trading_phase.
  - constructor.
  - repeat constructor; cbn; lia.
Defined.

(** ** What the action of a step does, case by case *)

Lemma collectable_Some item :
  collectable item = true →
  ∃ k, item = Some k ∧ ∀ r, ∃ r', resources_add k 1 r = Some r'.
Proof.
  destruct item as [k|]; [|done]. cbn. intros [_ Hin]%andb_prop.
  exists k. split; [done|]. intros r. unfold resources_add, in_resources in *.
  apply orb_prop in Hin as [H|H]; apply bool_decide_eq_true in H; subst;
    cbn; eauto.
Qed.

Lemma collect_item_Some self k r w me :
  agents w !! self = Some me → resources_add k 1 (inventory me) = Some r →
  collect_item self (Some k) w = Returned () (put self (set_inventory r me) w).
Proof.
  intros H Hr. unfold collect_item. step_deref. rewrite Hr.
  by erewrite update_Some by lookup_agent.
Qed.

Lemma apply_action_precise self x y occupied action retry w me :
  agents w !! self = Some me → position me = (x, y) →
  match apply_action self x y occupied action retry w with
  | Returned _ w' =>
      ∃ me' env', w' = set_environment env' (put self me' w) ∧
                  action_effect occupied (environment w) me me' env'
  | Raised _ w' => w' = w
  end.
Proof.
  intros H Hpos. unfold apply_action. step_deref.
  destruct (startswith action "move").
  { unfold index. destruct (split action !! 1%nat) as [direction|]; [|done].
    step_pure. step_gets. unfold lookup_direction.
    destruct (new_position _ x y direction) as [new_pos|] eqn:Hnew; [|done].
    step_pure. case_decide as Hfree.
    - step_update. exists (set_position new_pos me), (environment w).
      split; [apply set_environment_put|].
      destruct Hfree. eapply effect_moved; [|done..]. by rewrite Hpos.
    - exists me, (environment w). split; [by apply world_unchanged|constructor]. }
  case_decide.
  { step_gets. destruct (collectable _) eqn:Hc.
    - destruct (collectable_Some _ Hc) as (k & Hk & Hadd).
      destruct (Hadd (inventory me)) as [r Hr]. rewrite Hk.
      run_in_context ltac:(by eapply collect_item_Some). step_pure.
      exists (set_inventory r me), (clear_cell (environment w) x y).
      split; [done|].
      replace x with (position me).1 by (by rewrite Hpos).
      replace y with (position me).2 by (by rewrite Hpos).
      eapply effect_collected; [|done]. by rewrite Hpos.
    - exists me, (environment w). split; [by apply world_unchanged|constructor]. }
  case_decide as Hred.
  { run_in_context ltac:(by apply eat_red_Some).
    eexists _, (environment w). split; [apply set_environment_put|].
    apply effect_ate_red. by destruct Hred. }
  case_decide as Hgreen.
  { run_in_context ltac:(by apply eat_green_Some).
    eexists _, (environment w). split; [apply set_environment_put|].
    apply effect_ate_green. by destruct Hgreen. }
  case_decide; exists me, (environment w);
    (split; [by apply world_unchanged|constructor]).
Qed.

Lemma set_memory_same a : set_memory (memory a) a = a.
Proof. by destruct a. Qed.

Lemma add_memory_exact cfg self obs act out w me :
  agents w !! self = Some me →
  add_memory cfg self obs act out w =
    Returned () (put self (set_memory
      (remembered cfg (memory me) (memory_entry me obs act out)) me) w).
Proof.
  intros H. unfold add_memory, remembered, memory_entry.
  step_deref. step_update. step_deref. cbn [memory set_memory]. cbv zeta.
  case_decide.
  - erewrite update_Some by lookup_agent. by rewrite put_put.
  - done.
Qed.

Lemma action_effect_memory occupied e me me' e' :
  action_effect occupied e me me' e' → memory me' = memory me.
Proof. by destruct 1. Qed.

(** One round of the loop, with the effect of its action. *)
Lemma attempt_precise cfg self obs x y cell occupied retry w me :
  agents w !! self = Some me → position me = (x, y) →
  ∃ action q me' env' mem,
    action_effect occupied (environment w)
      (set_actions_taken (actions_taken me ++ [action]) me) me' env' ∧
    let w' := set_llm (tail (llm_responses w)) (llm_requests w ++ [q])
                (set_environment env' (put self (set_memory mem me') w)) in
    (∃ e, attempt cfg self obs x y cell occupied retry w = Raised e w'
          ∧ mem = memory me) ∨
    (∃ res entry,
       attempt cfg self obs x y cell occupied retry w = Returned (Return res) w'
       ∧ mem = remembered cfg (memory me) entry).
Proof.
  intros H Hpos. unfold attempt. step_deref.
  run_in_context ltac:(apply get_agent_action_eq).
  step_update.
  match goal with
  | |- context [@mbind M M_bind _ _ _ (apply_action self x y occupied ?action retry) ?w0] =>
      set (act := action); set (w1 := w0);
      pose proof (apply_action_precise self x y occupied act retry w1
                    (set_actions_taken (actions_taken me ++ [act]) me)) as Ha
  end.
  exists act.
  exists {| agent_name := name me; req_position := position me;
            req_inventory := inventory me; cell_content := cell;
            req_energy := energy me; consumption_rate := consumption_rates me;
            req_memory := memory me; grid_image_base64 := None;
            retry_message := retry |}.
  destruct (apply_action _ _ _ _ _ _ w1) as [[res r'] w2|e w2] eqn:Hap.
  - destruct Ha as (me' & env' & -> & Heff); [by subst w1; lookup_agent|done|].
    run_in_context ltac:(exact Hap). cbv beta iota.
    run_in_context ltac:(apply add_memory_exact; subst w1; lookup_agent).
    exists me', env'. eexists. split; [exact Heff|].
    right. exists res. eexists. split.
    + unfold mret, M_ret. f_equal. subst w1. world_eq_tac.
    + by rewrite (action_effect_memory _ _ _ _ _ Heff).
  - assert (w2 = w1) as -> by (apply Ha; [by subst w1; lookup_agent|done]).
    exists (set_actions_taken (actions_taken me ++ [act]) me), (environment w),
      (memory me).
    split; [constructor|].
    left. exists e. split; [|done]. by erewrite bind_Raised by exact Hap.
Qed.

(** *** Random mode: the action chosen has been validated *)

Lemma moves_are_free (size x y : Z) (occupied : gset (Z * Z)) (pos : Z * Z)
    (dirs acc : list string) :
  let P := λ a : string, ∃ d p, a = "move " +:+ d ∧
             new_position size x y d = Some p ∧ (p ∉ occupied) ∧ p ≠ pos in
  Forall P acc →
  Forall P
    (foldl (λ acts direction,
       match new_position size x y direction with
       | Some new_pos =>
           if decide ((new_pos ∉ occupied) ∧ new_pos ≠ pos)
           then acts ++ ["move " +:+ direction] else acts
       | None => acts
       end) acc dirs).
Proof.
  intros P. revert acc. induction dirs as [|d dirs IH]; intros acc Hacc; [done|].
  cbn [foldl]. apply IH.
  destruct (new_position size x y d) as [p|] eqn:Hp; [|done].
  case_decide as Hfree; [|done].
  apply Forall_app. split; [done|]. constructor; [|done].
  exists d, p. by destruct Hfree.
Qed.

Lemma available_actions_precise me e occupied a :
  a ∈ available_actions me e occupied →
  (∃ d p, a = "move " +:+ d ∧
     new_position (Env.size e) (position me).1 (position me).2 d = Some p ∧
     (p ∉ occupied) ∧ p ≠ position me) ∨
  (a = "collect" ∧
   collectable (get_cell_content e (position me).1 (position me).2) = true) ∨
  a = "do nothing" ∨
  (a = "eat red" ∧ red (inventory me) > 0) ∨
  (a = "eat green" ∧ green (inventory me) > 0).
Proof.
  unfold available_actions. destruct (position me) as [x y] eqn:Hpos.
  cbn [fst snd]. set (moves := foldl _ _ _).
  pose proof (moves_are_free (Env.size e) x y occupied (x, y)
                ["up"; "down"; "left"; "right"] [] (Forall_nil_2 _)) as Hm.
  cbv zeta in Hm. fold moves in Hm. rewrite Forall_forall in Hm.
  intros Ha. repeat case_match;
    repeat (apply elem_of_app in Ha as [Ha|Ha]);
    repeat match goal with
    | H : _ ∈ [_] |- _ => apply list_elem_of_singleton in H; subst
    end; auto 10.
Qed.

Lemma available_actions_nonempty me e occupied :
  available_actions me e occupied ≠ [].
Proof.
  unfold available_actions. destruct (position me). cbv zeta.
  intros Hnil. apply app_eq_nil in Hnil as [_ ?]. done.
Qed.

Lemma split_move d p size x y :
  new_position size x y d = Some p →
  startswith ("move " +:+ d) "move" = true ∧
  split ("move " +:+ d) !! 1%nat = Some d.
Proof.
  unfold new_position. intros Hd. split; [done|].
  repeat (case_decide; [by subst|]). done.
Qed.

(** The execution of a chosen action never raises, and does what the
    action says. *)
Lemma perform_action_precise self me action occupied w me0 :
  agents w !! self = Some me0 →
  position me0 = position me → inventory me0 = inventory me →
  action ∈ available_actions me (environment w) occupied →
  ∃ res me' env',
    perform_action self me (environment w) action w
      = Returned res (set_environment env' (put self me' w)) ∧
    action_effect occupied (environment w) me0 me' env'.
Proof.
  intros H Hp Hi Hin. apply available_actions_precise in Hin.
  unfold perform_action. destruct (position me) as [x y] eqn:Hpos.
  cbn [fst snd] in Hin.
  destruct Hin as [(d & p & -> & Hnew & Hocc & Hne)|
                   [[-> Hcol]|[->|[[-> Hred]|[-> Hgreen]]]]].
  - destruct (split_move d p _ _ _ Hnew) as [Hs Hd]. rewrite Hs.
    unfold index. rewrite Hd. step_pure. unfold lookup_direction. rewrite Hnew.
    step_pure. step_update.
    eexists _, (set_position p me0), (environment w).
    split; [unfold mret, M_ret; f_equal; apply set_environment_put|].
    eapply effect_moved; rewrite ?Hp; cbn [fst snd]; try done.
  - change (startswith "collect" "move") with false. cbv iota.
    rewrite decide_True by done. step_gets.
    destruct (collectable_Some _ Hcol) as (k & Hk & Hadd).
    destruct (Hadd (inventory me0)) as [r Hr]. rewrite Hk.
    run_in_context ltac:(by eapply collect_item_Some). step_pure.
    eexists _, (set_inventory r me0), (clear_cell (environment w) x y).
    split; [done|].
    replace x with (position me0).1 by (by rewrite Hp).
    replace y with (position me0).2 by (by rewrite Hp).
    eapply effect_collected; [|done]. by rewrite Hp.
  - change (startswith "do nothing" "move") with false. cbv iota.
    rewrite !decide_False by done.
    eexists _, me0, (environment w). split; [|constructor].
    unfold mret, M_ret. f_equal. by apply world_unchanged.
  - change (startswith "eat red" "move") with false. cbv iota.
    rewrite decide_False by done. rewrite decide_True by done.
    run_in_context ltac:(by apply eat_red_Some).
    eexists _, _, (environment w).
    split; [unfold mret, M_ret; f_equal; apply set_environment_put|].
    apply effect_ate_red. by rewrite Hi.
  - change (startswith "eat green" "move") with false. cbv iota.
    rewrite !(decide_False (P := "eat green" = _)) by done.
    rewrite decide_True by done.
    run_in_context ltac:(by apply eat_green_Some).
    eexists _, _, (environment w).
    split; [unfold mret, M_ret; f_equal; apply set_environment_put|].
    apply effect_ate_green. by rewrite Hi.
Qed.

(** In random mode a step always returns, and its action is one of the
    validated ones. *)
Lemma _random_action_precise cfg self occupied w me :
  agents w !! self = Some me →
  ∃ res action mem me' env' r,
    _random_action cfg self occupied w
      = Returned res
          (set_rng r (set_environment env' (put self (set_memory mem me') w))) ∧
    action ∈ available_actions me (environment w) occupied ∧
    action_effect occupied (environment w)
      (set_actions_taken (actions_taken me ++ [action]) me) me' env' ∧
    ∃ entry, mem = remembered cfg (memory me) entry.
Proof.
  intros H. unfold _random_action. step_deref. step_gets.
  destruct (random_choice_nonempty (available_actions me (environment w) occupied) w
              (available_actions_nonempty _ _ _)) as (action & r & Hin & Hrc).
  run_in_context ltac:(exact Hrc). step_update.
  set (me0 := set_actions_taken (actions_taken me ++ [action]) me).
  set (w2 := put self me0 (set_rng r w)).
  assert (agents w2 !! self = Some me0) as H2 by (subst w2; lookup_agent).
  destruct (perform_action_precise self me action occupied w2 me0 H2 eq_refl eq_refl Hin)
    as (res & me' & env' & Hpa & Heff).
  change (environment w2) with (environment w) in Hpa, Heff.
  run_in_context ltac:(exact Hpa).
  destruct (get_current_observation_Some self []
              (set_environment env' (put self me' w2)) me') as [obs Ho];
    [lookup_agent|].
  run_in_context ltac:(exact Ho).
  run_in_context ltac:(apply add_memory_exact; lookup_agent).
  exists res, action. eexists. exists me', env', r.
  split; [|split; [done|split; [done|]]].
  - unfold mret, M_ret. f_equal. subst w2. world_eq_tac.
  - eexists. by rewrite (action_effect_memory _ _ _ _ _ Heff).
Qed.

(** A step of a living agent with energy left, in either mode: the step
    is counted, the loss paid and an action entered, and then that
    action takes its effect; nothing but the agent, the environment, the
    answers of the backend and the random draws is touched. *)
Lemma decide_and_act_precise cfg self all_agents w me :
  agents w !! self = Some me → alive me = true →
  0 < energy me - ENERGY_LOSS_PER_TURN cfg →
  ∃ action mem me',
    let w' := world_of (decide_and_act cfg self all_agents w) in
    agents w' = <[self := set_memory mem me']> (agents w) ∧
    market w' = market w ∧
    action_effect (occupied_positions (agents w) self all_agents) (environment w)
      (entered cfg action me) me' (environment w') ∧
    match decide_and_act cfg self all_agents w with
    | Returned _ _ => ∃ entry, mem = remembered cfg (memory me) entry
    | Raised _ _ => mem = memory me
    end.
Proof.
  intros H Ha He. unfold decide_and_act.
  step_deref. rewrite Ha. cbn [negb].
  step_update. step_update. step_deref.
  cbn [energy set_energy set_step_count]. rewrite decide_False by lia.
  set (me1 := set_energy _ _). set (w1 := put self me1 w).
  assert (agents w1 !! self = Some me1) as H1 by (subst w1; lookup_agent).
  destruct (get_current_observation_Some self all_agents w1 me1 H1) as [obs Ho].
  run_in_context ltac:(exact Ho).
  destruct (position me1) as [x y] eqn:Hpos. step_gets. step_gets.
  assert (agents w1 = <[self := me1]> (agents w)) as -> by done.
  rewrite occupied_positions_insert.
  case_decide.
  - destruct (_random_action_precise cfg self
                (occupied_positions (agents w) self all_agents) w1 me1 H1)
      as (res & action & mem & me' & env' & r & -> & _ & Heff & Hmem).
    exists action, mem, me'. cbn [world_of].
    split; [|split; [done|split; [exact Heff|exact Hmem]]].
    subst w1. cbn. by rewrite list_insert_insert_eq.
  - destruct (attempt_precise cfg self obs x y
                (get_cell_content (environment w1) x y)
                (occupied_positions (agents w) self all_agents) None w1 me1 H1 Hpos)
      as (action & q & me' & env' & mem & Heff & Hres).
    exists action, mem, me'. cbn [range seq for_each].
    destruct Hres as [(e & He' & Hmem)|(res & entry & Hr' & Hmem)].
    + erewrite bind_Raised by (erewrite bind_Raised by exact He'; reflexivity).
      cbn [world_of]. split; [|split; [done|split; [exact Heff|exact Hmem]]].
      subst w1. cbn. by rewrite list_insert_insert_eq.
    + erewrite bind_Returned by (erewrite bind_Returned by exact Hr'; reflexivity).
      cbn [world_of mret M_ret].
      split; [|split; [done|split; [exact Heff|by exists entry]]].
      subst w1. cbn. by rewrite list_insert_insert_eq.
Qed.

(** ** Positions: apart and on the grid *)

Lemma action_effect_position occupied e me me' e' :
  action_effect occupied e me me' e' →
  alive me' = alive me ∧
  (position me' = position me ∨
   ∃ d, new_position (Env.size e) (position me).1 (position me).2 d
          = Some (position me') ∧ position me' ∉ occupied).
Proof. destruct 1; split; eauto. Qed.

Lemma living_apart_insert l self all_agents me me' :
  l !! self = Some me → lists_all all_agents l →
  (alive me' = true →
   alive me = true ∧
   (position me' = position me ∨
    position me' ∉ occupied_positions l self all_agents)) →
  living_apart l → living_apart (<[self := me']> l).
Proof.
  intros Hme Hall Hme' Hapart i j a b Hij Hi Hj Ha Hb.
  assert (self < length l)%nat as Hlen by (by eapply lookup_lt_Some).
  assert (∀ k c, alive me' = true → k ≠ self → l !! k = Some c →
            alive c = true → position me' ≠ position c) as Hother.
  { intros k c Hal' Hk Hc Hac Heq. destruct (Hme' Hal') as [Hal [Hsame|Hfree]].
    - eapply (Hapart self k me c); eauto. congruence.
    - apply Hfree. apply elem_of_occupied_positions. exists k, c.
      repeat split; try done. apply Hall. by eapply lookup_lt_Some. }
  destruct (decide (i = self)) as [->|Hi'].
  - rewrite list_lookup_insert_eq in Hi by done. injection Hi as <-.
    rewrite list_lookup_insert_ne in Hj by done.
    apply (Hother j b); [done|by intros ->|done|done].
  - rewrite list_lookup_insert_ne in Hi by done.
    destruct (decide (j = self)) as [->|Hj'].
    + rewrite list_lookup_insert_eq in Hj by done. injection Hj as <-.
      intros Heq. by apply (Hother i a Hb Hi' Hi Ha).
    + rewrite list_lookup_insert_ne in Hj by done. by apply (Hapart i j a b).
Qed.

Lemma decide_and_act_apart cfg self all_agents w :
  lists_all all_agents (agents w) → living_apart (agents w) →
  living_apart (agents (world_of (decide_and_act cfg self all_agents w))).
Proof.
  intros Hall Hapart. destruct (agents w !! self) as [me|] eqn:H;
    [|by rewrite decide_and_act_dangling].
  destruct (alive me) eqn:Ha; [|by erewrite decide_and_act_dead].
  destruct (decide (energy me - ENERGY_LOSS_PER_TURN cfg ≤ 0)) as [He|He].
  { erewrite decide_and_act_dies by done. cbn.
    eapply living_apart_insert; eauto. }
  destruct (decide_and_act_precise cfg self all_agents w me H Ha ltac:(lia))
    as (action & mem & me' & Hagents & _ & Heff & _).
  cbv zeta in Hagents. rewrite Hagents.
  apply action_effect_position in Heff as [Hal [Hsame|(d & _ & Hfree)]];
    (eapply living_apart_insert; [done..| |done]); cbn; intros _;
    (split; [done|]); [by left|by right].
Qed.

Lemma decide_and_act_length cfg self all_agents w :
  length (agents (world_of (decide_and_act cfg self all_agents w)))
  = length (agents w).
Proof.
  destruct (agents w !! self) as [me|] eqn:H;
    [|by rewrite decide_and_act_dangling].
  destruct (decide_and_act_effect cfg self all_agents w me H)
    as (me' & env' & rs & qs & r' & -> & _). cbn. apply length_insert.
Qed.

(** X1.  A step keeps living agents apart: if [all_agents] names every
    agent and no two living agents share a cell, then after the step of
    any agent [all_agents] still names every agent and no two living
    agents share a cell, whatever the mode, the answer of the backend or
    the random draws, and also when the step raises an exception. *)
Theorem step_keeps_living_agents_apart cfg self all_agents w :
  lists_all all_agents (agents w) → living_apart (agents w) →
  let w' := world_of (decide_and_act cfg self all_agents w) in
  lists_all all_agents (agents w') ∧ living_apart (agents w').
Proof.
  intros Hall Hapart. split.
  - intros i Hi. apply Hall. by rewrite decide_and_act_length in Hi.
  - by apply decide_and_act_apart.
Qed.

Lemma step_keeps_living_agents_apart_witness :
  living_apart
    (agents (world_of (decide_and_act example_config 0 [0; 1]%nat
       (example_world two_traders_start [Some "move right"] [])))).
Proof.
  apply step_keeps_living_agents_apart.
  - intros i Hi. cbn in Hi. destruct i as [|[|]]; [by left|right; by left|lia].
  - intros i j a b Hij Hi Hj _ _.
    destruct i as [|[|]], j as [|[|]]; cbn in Hi, Hj; try done;
      injection Hi as <-; injection Hj as <-; done.
Defined.

Lemma for__preserves {A S} (I : World → Prop) (xs : list A)
    (body : A → S → M S) s w :
  (∀ x s w, I w → I (world_of (body x s w))) →
  I w → I (world_of (for_ xs body s w)).
Proof.
  intros Hbody. revert s w. induction xs as [|x xs IH]; intros s w Hw; [done|].
  cbn [for_]. unfold mbind, M_bind. specialize (Hbody x s w Hw).
  destruct (body x s w) as [s' w1|e w1]; [|done]. by apply IH.
Qed.

(** X2.  The loop of [main] in which all living agents act, one after the
    other on the store the earlier ones left, keeps living agents apart:
    if no two of them share a cell before the loop, no two do after it. *)
Theorem action_phase_keeps_living_agents_apart cfg roster w :
  lists_all roster (agents w) → living_apart (agents w) →
  living_apart (agents (world_of (action_phase cfg roster w))).
Proof.
  intros Hall Hapart. unfold action_phase.
  apply (for__preserves
           (λ w0, length (agents w0) = length (agents w)
                  ∧ living_apart (agents w0))); [|done].
  intros agent outcomes w0 [Hlen Hw0]. unfold mbind, M_bind, deref.
  destruct (agents w0 !! agent) as [a|]; [|done].
  destruct (alive a); [|done].
  pose proof (decide_and_act_length cfg agent roster w0) as Hlen'.
  pose proof (decide_and_act_apart cfg agent roster w0) as Hstep.
  destruct (decide_and_act cfg agent roster w0) as [res w1|e w1];
    cbn [world_of mret M_ret] in *; (split; [congruence|]); apply Hstep; try done;
    intros i Hi; apply Hall; lia.
Qed.

Lemma action_phase_keeps_living_agents_apart_witness :
  living_apart
    (agents (world_of (action_phase example_config [0; 1]%nat
       (example_world two_traders_start [Some "move right"; Some "move left"] [])))).
Proof.
  apply action_phase_keeps_living_agents_apart.
  - intros i Hi. cbn in Hi. destruct i as [|[|]]; [by left|right; by left|lia].
  - intros i j a b Hij Hi Hj _ _.
    destruct i as [|[|]], j as [|[|]]; cbn in Hi, Hj; try done;
      injection Hi as <-; injection Hj as <-; done.
Defined.

Lemma new_position_on_grid size x y d p :
  on_grid size (x, y) → new_position size x y d = Some p → on_grid size p.
Proof.
  unfold on_grid, new_position. cbn [fst snd]. intros [Hx Hy].
  repeat case_decide; intros [= <-]; cbn [fst snd]; lia.
Qed.

Lemma action_effect_grid occupied e me me' e' :
  action_effect occupied e me me' e' →
  Env.size e' = Env.size e ∧
  (on_grid (Env.size e) (position me) → on_grid (Env.size e) (position me')).
Proof.
  destruct 1 as [|d p Hnew _ _| | |]; (split; [done|]); try done.
  intros Hon. cbn. eapply new_position_on_grid; [|exact Hnew].
  by destruct (position me).
Qed.

(** X3.  A step keeps every agent on the grid and the grid at its size:
    the target of a move is clamped to the bounds. *)
Theorem step_stays_on_grid cfg self all_agents w :
  Forall (λ a, on_grid (Env.size (environment w)) (position a)) (agents w) →
  let w' := world_of (decide_and_act cfg self all_agents w) in
  Env.size (environment w') = Env.size (environment w) ∧
  Forall (λ a, on_grid (Env.size (environment w')) (position a)) (agents w').
Proof.
  intros Hgrid. cbv zeta.
  destruct (agents w !! self) as [me|] eqn:H;
    [|by rewrite decide_and_act_dangling].
  pose proof (Forall_lookup_1 _ _ _ _ Hgrid H) as Hme. cbn beta in Hme.
  destruct (alive me) eqn:Ha; [|by erewrite decide_and_act_dead].
  destruct (decide (energy me - ENERGY_LOSS_PER_TURN cfg ≤ 0)) as [He|He].
  { erewrite decide_and_act_dies by done. cbn. split; [done|].
    by apply Forall_insert. }
  destruct (decide_and_act_precise cfg self all_agents w me H Ha ltac:(lia))
    as (action & mem & me' & Hagents & _ & Heff & _).
  cbv zeta in Hagents. rewrite Hagents.
  apply action_effect_grid in Heff as [Hsize Hon]. split; [done|].
  rewrite Hsize. apply Forall_insert; [done|]. cbn. by apply Hon.
Qed.

Lemma step_stays_on_grid_witness :
  let w' := world_of (decide_and_act example_config 0 [0%nat]
                        (lone_agent [Some "move up"])) in
  Env.size (environment w') = 5 ∧
  Forall (λ a, on_grid (Env.size (environment w')) (position a)) (agents w').
Proof.
  apply (step_stays_on_grid example_config 0 [0%nat] (lone_agent [Some "move up"])).
  repeat constructor; cbn; lia.
Defined.

(** ** Energy and inventory of a step *)

(** X4.  The account of a step of a living agent.  Its energy ends as
    the energy before less the loss of the turn, and it stays alive if
    and only if that is positive; only eating adds to it, the gain of the
    resource eaten, and takes one unit of that resource, of which there
    was one, from the inventory; only collecting adds to the inventory,
    one unit of the marker of the agent's cell. *)
Theorem step_accounts_for_energy_and_inventory cfg self all_agents w me :
  agents w !! self = Some me → alive me = true →
  let paid := energy me - ENERGY_LOSS_PER_TURN cfg in
  ∃ me',
    agents (world_of (decide_and_act cfg self all_agents w)) !! self = Some me' ∧
    (alive me' = true ↔ 0 < paid) ∧
    ((energy me' = paid ∧ inventory me' = inventory me) ∨
     (0 < paid ∧ energy me' = paid ∧
      ∃ k, get_cell_content (environment w) (position me).1 (position me).2 = Some k ∧
           resources_add k 1 (inventory me) = Some (inventory me')) ∨
     (0 < paid ∧ energy me' = paid + red (consumption_rates me) ∧
      red (inventory me) > 0 ∧
      inventory me' = {| red := red (inventory me) - 1;
                         green := green (inventory me) |}) ∨
     (0 < paid ∧ energy me' = paid + green (consumption_rates me) ∧
      green (inventory me) > 0 ∧
      inventory me' = {| red := red (inventory me);
                         green := green (inventory me) - 1 |})).
Proof.
  intros H Ha paid.
  assert (self < length (agents w))%nat as Hlen by (by eapply lookup_lt_Some).
  destruct (decide (paid ≤ 0)) as [He|He].
  { erewrite decide_and_act_dies by done. eexists. split; [lookup_agent|].
    cbn. split; [split; [done|lia]|by left]. }
  destruct (decide_and_act_precise cfg self all_agents w me H Ha ltac:(lia))
    as (action & mem & me' & Hagents & _ & Heff & _).
  cbv zeta in Hagents. rewrite Hagents. eexists.
  split; [by apply list_lookup_insert_eq|].
  inversion Heff as [|d p Hnew Hocc Hne|k r Hcell Hadd|Hred|Hgreen]; subst; cbn.
  - split; [split; [lia|done]|by left].
  - split; [split; [lia|done]|by left].
  - split; [split; [lia|done]|]. right; left. repeat split; [lia|]. by exists k.
  - split; [split; [lia|done]|]. right; right; left. repeat split; [lia|done].
  - split; [split; [lia|done]|]. right; right; right. repeat split; [lia|done].
Qed.

Lemma step_accounts_for_energy_and_inventory_witness :
  ∃ me',
    agents (world_of (decide_and_act example_config 0 [0%nat]
                        (lone_agent [Some "eat green"]))) !! 0%nat = Some me' ∧
    energy me' = 10 - 1 + 1 ∧ inventory me' = {| red := 0; green := 2 - 1 |}.
Proof.
  destruct (step_accounts_for_energy_and_inventory example_config 0 [0%nat]
              (lone_agent [Some "eat green"])
              (new_agent "Agent1" (0, 3) {| red := 0; green := 2 |} 10
                 {| red := 3; green := 1 |}) eq_refl eq_refl)
    as (me' & Hme' & _ & _).
  exists me'. split; [exact Hme'|].
  vm_compute in Hme'. injection Hme' as <-. by vm_compute.
Defined.

(** ** Answers that are not carried out *)




Lemma apply_action_eat_red self x y occupied retry w me :
  agents w !! self = Some me →
  apply_action self x y occupied "eat red" retry w =
    if decide (red (inventory me) > 0)
    then Returned ("ate red (+" +:+ str_int (red (consumption_rates me)) +:+ ")", retry)
           (put self (set_energy (energy me + red (consumption_rates me))
              (set_inventory {| red := red (inventory me) - 1;
                                green := green (inventory me) |} me)) w)
    else Returned ("failed to act", Some "action 'eat red' invalid") w.
Proof.
  intros H. unfold apply_action. step_deref.
  change (startswith "eat red" "move") with false. cbv iota.
  rewrite (decide_False (P := "eat red" = "collect")) by done.
  destruct (decide (red (inventory me) > 0)) as [Hr|Hr].
  - rewrite decide_True by done. by run_in_context ltac:(by apply eat_red_Some).
  - rewrite (decide_False (P := _ ∧ red _ > 0)) by (by intros [_ ?]).
    rewrite (decide_False (P := "eat red" = "eat green" ∧ _)) by (by intros [? _]).
    by rewrite decide_False.
Qed.

Lemma apply_action_eat_green self x y occupied retry w me :
  agents w !! self = Some me →
  apply_action self x y occupied "eat green" retry w =
    if decide (green (inventory me) > 0)
    then Returned ("ate green (+" +:+ str_int (green (consumption_rates me)) +:+ ")",
                   retry)
           (put self (set_energy (energy me + green (consumption_rates me))
              (set_inventory {| red := red (inventory me);
                                green := green (inventory me) - 1 |} me)) w)
    else Returned ("failed to act", Some "action 'eat green' invalid") w.
Proof.
  intros H. unfold apply_action. step_deref.
  change (startswith "eat green" "move") with false. cbv iota.
  rewrite (decide_False (P := "eat green" = "collect")) by done.
  rewrite (decide_False (P := "eat green" = "eat red" ∧ _)) by (by intros [? _]).
  destruct (decide (green (inventory me) > 0)) as [Hg|Hg].
  - rewrite decide_True by done. by run_in_context ltac:(by apply eat_green_Some).
  - rewrite (decide_False (P := _ ∧ green _ > 0)) by (by intros [_ ?]).
    by rewrite decide_False.
Qed.

(** X6.  The answer "eat red": with at least one red in the inventory the
    step ends with "ate red (+gain)", one red less and the energy raised
    by the gain after the loss of the turn; with none it ends with
    "failed to act", the outcome of an invalid action, and inventory and
    position are as before.  Likewise for "eat green". *)
Theorem eating_needs_stock cfg self all_agents w me :
  agents w !! self = Some me → alive me = true →
  0 < energy me - ENERGY_LOSS_PER_TURN cfg → RAND_MODE cfg ≠ 1 →
  let paid := energy me - ENERGY_LOSS_PER_TURN cfg in
  let rates := consumption_rates me in
  ∃ w' me',
    agents w' !! self = Some me' ∧ position me' = position me ∧
    (next_response w = Some "eat red" →
     (red (inventory me) > 0 →
      decide_and_act cfg self all_agents w
        = Returned ("ate red (+" +:+ str_int (red rates) +:+ ")") w' ∧
      energy me' = paid + red rates ∧
      inventory me' = {| red := red (inventory me) - 1;
                         green := green (inventory me) |}) ∧
     (red (inventory me) ≤ 0 →
      decide_and_act cfg self all_agents w = Returned "failed to act" w' ∧
      energy me' = paid ∧ inventory me' = inventory me)) ∧
    (next_response w = Some "eat green" →
     (green (inventory me) > 0 →
      decide_and_act cfg self all_agents w
        = Returned ("ate green (+" +:+ str_int (green rates) +:+ ")") w' ∧
      energy me' = paid + green rates ∧
      inventory me' = {| red := red (inventory me);
                         green := green (inventory me) - 1 |}) ∧
     (green (inventory me) ≤ 0 →
      decide_and_act cfg self all_agents w = Returned "failed to act" w' ∧
      energy me' = paid ∧ inventory me' = inventory me)).
Proof.
  intros H Ha He Hmode paid rates.
  pose proof (decide_and_act_acts cfg self all_agents w me H Ha He Hmode) as Hact.
  cbv zeta in Hact.
  destruct (decide (next_response w = Some "eat red")) as [Hred|Hnred];
    [|destruct (decide (next_response w = Some "eat green")) as [Hgreen|Hngreen]].
  - rewrite Hred in Hact. cbn [or_default] in Hact.
    rewrite (decide_False (P := "eat red" = "")) in Hact by done.
    match type of Hact with
    | ∀ res retry' w3 me3, apply_action _ ?x ?y ?occ _ _ ?w2 = _ → _ =>
        pose proof (apply_action_eat_red self x y occ None w2 _
                      ltac:(lookup_agent)) as Heat
    end.
    cbn [inventory energy consumption_rates set_actions_taken set_energy
         set_step_count] in Heat.
    destruct (decide (red (inventory me) > 0)) as [Hr|Hr].
    + edestruct Hact as [mem Hm]; [exact Heat|lookup_agent|].
      match type of Hm with _ = Returned _ ?w1 => exists w1 end.
      eexists. split; [lookup_agent|]. split; [done|]. split; [|by rewrite Hred].
      intros _. split; [|lia]. intros _. by rewrite Hm.
    + edestruct Hact as [mem Hm]; [exact Heat|lookup_agent|].
      match type of Hm with _ = Returned _ ?w1 => exists w1 end.
      eexists. split; [lookup_agent|]. split; [done|]. split; [|by rewrite Hred].
      intros _. split; [lia|]. intros _. by rewrite Hm.
  - rewrite Hgreen in Hact. cbn [or_default] in Hact.
    rewrite (decide_False (P := "eat green" = "")) in Hact by done.
    match type of Hact with
    | ∀ res retry' w3 me3, apply_action _ ?x ?y ?occ _ _ ?w2 = _ → _ =>
        pose proof (apply_action_eat_green self x y occ None w2 _
                      ltac:(lookup_agent)) as Heat
    end.
    cbn [inventory energy consumption_rates set_actions_taken set_energy
         set_step_count] in Heat.
    destruct (decide (green (inventory me) > 0)) as [Hg|Hg].
    + edestruct Hact as [mem Hm]; [exact Heat|lookup_agent|].
      match type of Hm with _ = Returned _ ?w1 => exists w1 end.
      eexists. split; [lookup_agent|]. split; [done|]. split; [by rewrite Hgreen|].
      intros _. split; [|lia]. intros _. by rewrite Hm.
    + edestruct Hact as [mem Hm]; [exact Heat|lookup_agent|].
      match type of Hm with _ = Returned _ ?w1 => exists w1 end.
      eexists. split; [lookup_agent|]. split; [done|]. split; [by rewrite Hgreen|].
      intros _. split; [lia|]. intros _. by rewrite Hm.
  - exists w, me. by repeat split.
Qed.

Lemma eating_needs_stock_witness :
  ∃ w', decide_and_act example_config 0 [0%nat] (lone_agent [Some "eat red"])
        = Returned "failed to act" w'.
Proof.
  destruct (eating_needs_stock example_config 0 [0%nat] (lone_agent [Some "eat red"])
              (new_agent "Agent1" (0, 3) {| red := 0; green := 2 |} 10
                 {| red := 3; green := 1 |}))
    as (w' & me' & _ & _ & Hred & _);
    [reflexivity|reflexivity|cbn; lia|cbn; lia|].
  exists w'. apply Hred; [reflexivity|cbn; lia].
Defined.

(** ** Collecting *)

Lemma collectable_iff item :
  collectable item = true ↔ item = Some "red" ∨ item = Some "green".
Proof.
  destruct item as [k|]; cbn; [|split; [done|by intros [|]]].
  unfold in_resources. rewrite andb_true_iff, orb_true_iff, !bool_decide_eq_true.
  split.
  - intros [_ [->| ->]]; auto.
  - intros [[= ->]|[= ->]]; auto.
Qed.

Lemma apply_action_collect self x y occupied retry w me :
  agents w !! self = Some me →
  apply_action self x y occupied "collect" retry w =
    match get_cell_content (environment w) x y with
    | Some k =>
        match resources_add k 1 (inventory me) with
        | Some r =>
            Returned ("collected " +:+ k, retry)
              (set_environment (clear_cell (environment w) x y)
                 (put self (set_inventory r me) w))
        | None => Returned ("nothing to collect", retry) w
        end
    | None => Returned ("nothing to collect", retry) w
    end.
Proof.
  intros H. unfold apply_action. step_deref.
  change (startswith "collect" "move") with false. cbv iota.
  rewrite decide_True by done. step_gets.
  destruct (get_cell_content (environment w) x y) as [k|] eqn:Hk; [|done].
  destruct (collectable (Some k)) eqn:Hc.
  - destruct (collectable_Some _ Hc) as (k' & [= <-] & Hadd).
    destruct (Hadd (inventory me)) as [r Hr]. rewrite Hr.
    run_in_context ltac:(by eapply collect_item_Some). by step_pure.
  - destruct (resources_add k 1 (inventory me)) as [r|] eqn:Hr; [|done].
    assert (collectable (Some k) = true) as Hc'; [|congruence].
    apply collectable_iff. unfold resources_add in Hr.
    repeat case_decide; subst; auto; done.
Qed.

(** X7.  The answer "collect".  On a cell that holds a red or a green
    marker the step ends with "collected" and the name of the marker, the
    inventory has one unit more of it, and the marker is gone from the
    cell while every other cell is as before; on any other cell the step
    ends with "nothing to collect" and inventory and grid are as before.
    Either way the agent stays where it is and pays the loss of the turn
    only. *)
Theorem collecting_takes_the_marker cfg self all_agents w me :
  agents w !! self = Some me → alive me = true →
  0 < energy me - ENERGY_LOSS_PER_TURN cfg → RAND_MODE cfg ≠ 1 →
  next_response w = Some "collect" →
  let x := (position me).1 in
  let y := (position me).2 in
  ∃ res w' me',
    decide_and_act cfg self all_agents w = Returned res w' ∧
    agents w' !! self = Some me' ∧ position me' = position me ∧
    energy me' = energy me - ENERGY_LOSS_PER_TURN cfg ∧
    (∀ k, get_cell_content (environment w) x y = Some k → k = "red" ∨ k = "green" →
       res = "collected " +:+ k ∧
       resources_add k 1 (inventory me) = Some (inventory me') ∧
       get_cell_content (environment w') x y = None ∧
       ∀ x' y', (x', y') ≠ (x, y) →
         get_cell_content (environment w') x' y'
         = get_cell_content (environment w) x' y') ∧
    (get_cell_content (environment w) x y ∉ [Some "red"; Some "green"] →
       res = "nothing to collect" ∧ inventory me' = inventory me ∧
       environment w' = environment w).
Proof.
  intros H Ha He Hmode Hresp x y.
  pose proof (decide_and_act_acts cfg self all_agents w me H Ha He Hmode) as Hact.
  cbv zeta in Hact. rewrite Hresp in Hact. cbn [or_default] in Hact.
  rewrite (decide_False (P := "collect" = "")) in Hact by done.
  match type of Hact with
  | ∀ res retry' w3 me3, apply_action _ ?x ?y ?occ _ _ ?w2 = _ → _ =>
      pose proof (apply_action_collect self x y occ None w2 _
                    ltac:(lookup_agent)) as Hcol
  end.
  fold x y in Hact, Hcol.
  cbn [environment put set_agents set_llm inventory set_actions_taken set_energy
       set_step_count] in Hcol.
  destruct (get_cell_content (environment w) x y) as [k|] eqn:Hk;
    [destruct (resources_add k 1 (inventory me)) as [r|] eqn:Hr|].
  - edestruct Hact as [mem Hm]; [exact Hcol|lookup_agent|].
    eexists _, _, _. split; [exact Hm|]. split; [lookup_agent|].
    split; [done|]. split; [done|]. split.
    + intros k' [= <-] _. split; [done|]. split; [done|].
      cbn. unfold get_cell_content. cbn. split; [apply lookup_delete_eq|].
      intros x' y' Hne. by rewrite lookup_delete_ne.
    + intros Hnot. exfalso. apply Hnot. unfold resources_add in Hr.
      repeat case_decide; subst; [by left|right; by left|done].
  - edestruct Hact as [mem Hm]; [exact Hcol|lookup_agent|].
    eexists _, _, _. split; [exact Hm|]. split; [lookup_agent|].
    split; [done|]. split; [done|]. split.
    + intros k' [= <-] Hkk. exfalso. unfold resources_add in Hr.
      destruct Hkk; subst; done.
    + done.
  - edestruct Hact as [mem Hm]; [exact Hcol|lookup_agent|].
    eexists _, _, _. split; [exact Hm|]. split; [lookup_agent|].
    split; [done|]. split; [done|]. split; done.
Qed.

Lemma collecting_takes_the_marker_witness :
  ∃ w', decide_and_act example_config 0 [0%nat] (lone_agent [Some "collect"])
        = Returned "collected red" w' ∧
        get_cell_content (environment w') 0 3 = None.
Proof.
  destruct (collecting_takes_the_marker example_config 0 [0%nat]
              (lone_agent [Some "collect"])
              (new_agent "Agent1" (0, 3) {| red := 0; green := 2 |} 10
                 {| red := 3; green := 1 |}))
    as (res & w' & me' & Hres & _ & _ & _ & Hred & _);
    [reflexivity|reflexivity|cbn; lia|cbn; lia|reflexivity|].
  destruct (Hred "red") as (-> & _ & Hcell & _); [reflexivity|by left|].
  by exists w'.
Defined.

(** ** Random mode *)

Lemma bind_Returned_inv {A B} (m : M A) (f : A → M B) w b w' :
  (m ≫= f) w = Returned b w' →
  ∃ a w1, m w = Returned a w1 ∧ f a w1 = Returned b w'.
Proof.
  unfold mbind, M_bind. destruct (m w) as [a w1|e w1]; [|done]. eauto.
Qed.

Lemma perform_action_outcome self me e action w res w' :
  perform_action self me e action w = Returned res w' →
  res ∉ ["failed to act"; "move blocked: other agent or wall"; "nothing to collect"].
Proof.
  unfold perform_action. destruct (position me) as [x y].
  assert (∀ s : string,
            (∃ t, s = "moved " +:+ t) ∨ (∃ t, s = "collected " +:+ t) ∨
            (∃ t, s = "ate " +:+ t) ∨ s = "did nothing" →
            s ∉ ["failed to act"; "move blocked: other agent or wall";
                 "nothing to collect"]) as Hout.
  { intros s Hs Hin.
    repeat (apply elem_of_cons in Hin as [->|Hin]);
      [..|by apply elem_of_nil in Hin];
      destruct Hs as [[t Ht]|[[t Ht]|[[t Ht]|Ht]]]; by cbn in Ht. }
  intros Hrun. apply Hout. destruct (startswith action "move").
  { apply bind_Returned_inv in Hrun as (d & w1 & _ & Hrun).
    apply bind_Returned_inv in Hrun as (p & w2 & _ & Hrun).
    apply bind_Returned_inv in Hrun as ([] & w3 & _ & [= <- _]).
    left. by eexists. }
  case_decide.
  { apply bind_Returned_inv in Hrun as (e' & w1 & _ & Hrun).
    apply bind_Returned_inv in Hrun as ([] & w2 & _ & Hrun).
    apply bind_Returned_inv in Hrun as ([] & w3 & _ & [= <- _]).
    right; left. by eexists. }
  case_decide.
  { apply bind_Returned_inv in Hrun as (gain & w1 & _ & [= <- _]).
    right; right; left. by eexists. }
  case_decide.
  { apply bind_Returned_inv in Hrun as (gain & w1 & _ & [= <- _]).
    right; right; left. by eexists. }
  injection Hrun as <- _. auto.
Qed.

Lemma _random_action_outcome cfg self occupied w res w' :
  _random_action cfg self occupied w = Returned res w' →
  res ∉ ["failed to act"; "move blocked: other agent or wall"; "nothing to collect"].
Proof.
  unfold _random_action. intros Hrun.
  apply bind_Returned_inv in Hrun as (me & w1 & _ & Hrun).
  apply bind_Returned_inv in Hrun as (e & w2 & _ & Hrun).
  apply bind_Returned_inv in Hrun as (action & w3 & _ & Hrun).
  apply bind_Returned_inv in Hrun as ([] & w4 & _ & Hrun).
  apply bind_Returned_inv in Hrun as (result & w5 & Hpa & Hrun).
  apply bind_Returned_inv in Hrun as (obs & w6 & _ & Hrun).
  apply bind_Returned_inv in Hrun as ([] & w7 & _ & [= <- _]).
  by eapply perform_action_outcome.
Qed.

(** A living agent with energy left, in random mode: the step is the
    random action of the agent that has paid the loss of the turn. *)
Lemma decide_and_act_random cfg self all_agents w me :
  agents w !! self = Some me → alive me = true →
  0 < energy me - ENERGY_LOSS_PER_TURN cfg → RAND_MODE cfg = 1 →
  decide_and_act cfg self all_agents w =
    _random_action cfg self (occupied_positions (agents w) self all_agents)
      (put self (set_energy (energy me - ENERGY_LOSS_PER_TURN cfg)
                   (set_step_count (step_count me + 1) me)) w).
Proof.
  intros H Ha He Hmode. unfold decide_and_act.
  step_deref. rewrite Ha. cbn [negb].
  step_update. step_update. step_deref.
  cbn [energy set_energy set_step_count]. rewrite decide_False by lia.
  set (me1 := set_energy _ _). set (w1 := put self me1 w).
  assert (agents w1 !! self = Some me1) as H1 by (subst w1; lookup_agent).
  destruct (get_current_observation_Some self all_agents w1 me1 H1) as [obs Ho].
  run_in_context ltac:(exact Ho).
  destruct (position me1) as [x y] eqn:Hpos. step_gets. step_gets.
  assert (agents w1 = <[self := me1]> (agents w)) as -> by done.
  rewrite occupied_positions_insert. by rewrite decide_True.
Qed.

Lemma action_effect_history occupied e me me' e' :
  action_effect occupied e me me' e' →
  actions_taken me' = actions_taken me ∧ step_count me' = step_count me ∧
  name me' = name me.
Proof. by destruct 1. Qed.

(** X8.  In random mode the step of a living agent with energy left
    always returns: it makes no request to the decision backend, enters
    one action into the history, which is one of those found available
    for the agent where it stands, and its outcome is none of the three a
    refused action has. *)
Theorem random_step_always_acts cfg self all_agents w me :
  agents w !! self = Some me → alive me = true →
  0 < energy me - ENERGY_LOSS_PER_TURN cfg → RAND_MODE cfg = 1 →
  ∃ res w' me' action,
    decide_and_act cfg self all_agents w = Returned res w' ∧
    llm_requests w' = llm_requests w ∧ llm_responses w' = llm_responses w ∧
    market w' = market w ∧
    agents w' !! self = Some me' ∧
    actions_taken me' = actions_taken me ++ [action] ∧
    action ∈ available_actions me (environment w)
               (occupied_positions (agents w) self all_agents) ∧
    res ∉ ["failed to act"; "move blocked: other agent or wall"; "nothing to collect"].
Proof.
  intros H Ha He Hmode.
  rewrite (decide_and_act_random cfg self all_agents w me H Ha He Hmode).
  set (me1 := set_energy _ _).
  destruct (_random_action_precise cfg self
              (occupied_positions (agents w) self all_agents) (put self me1 w) me1)
    as (res & action & mem & me' & env' & r & Hrun & Hin & Heff & _); [lookup_agent|].
  exists res. eexists. exists (set_memory mem me'), action.
  split; [exact Hrun|]. split; [done|]. split; [done|]. split; [done|].
  split; [lookup_agent|].
  split; [apply action_effect_history in Heff as [Hh _]; cbn; by rewrite Hh|].
  split; [exact Hin|]. by eapply _random_action_outcome.
Qed.

Lemma random_step_always_acts_witness :
  ∃ res w',
    decide_and_act {| ENERGY_LOSS_PER_TURN := 1; AGENT_MEMORY_SIZE := 5;
                      TRADE_RANGE := 1; RAND_MODE := 1 |} 0 [0%nat] (lone_agent [])
      = Returned res w' ∧ llm_requests w' = [].
Proof.
  destruct (random_step_always_acts
              {| ENERGY_LOSS_PER_TURN := 1; AGENT_MEMORY_SIZE := 5;
                 TRADE_RANGE := 1; RAND_MODE := 1 |} 0 [0%nat] (lone_agent [])
              (new_agent "Agent1" (0, 3) {| red := 0; green := 2 |} 10
                 {| red := 3; green := 1 |}))
    as (res & w' & me' & action & Hrun & Hreq & _);
    [reflexivity|reflexivity|cbn; lia|reflexivity|].
  by exists res, w'.
Defined.

(** ** The memory of an agent *)

Lemma remembered_positive cfg mem entry :
  1 ≤ AGENT_MEMORY_SIZE cfg →
  remembered cfg mem entry
  = drop (length (mem ++ [entry]) - Z.to_nat (AGENT_MEMORY_SIZE cfg)) (mem ++ [entry]).
Proof.
  intros HN. unfold remembered, slice_from. cbv zeta. case_decide as Hlen.
  - rewrite decide_True by lia. f_equal. lia.
  - replace (_ - _)%nat with 0%nat by lia. done.
Qed.

Lemma remembered_zero cfg mem entry :
  AGENT_MEMORY_SIZE cfg = 0 → remembered cfg mem entry = mem ++ [entry].
Proof.
  intros HN. unfold remembered, slice_from. cbv zeta. rewrite HN.
  case_decide; [|done]. rewrite decide_False by lia.
  by replace (Z.to_nat _) with 0%nat by lia.
Qed.

Lemma remembered_negative cfg mem entry :
  AGENT_MEMORY_SIZE cfg < 0 →
  remembered cfg mem entry
  = drop (Z.to_nat (- AGENT_MEMORY_SIZE cfg)) (mem ++ [entry]).
Proof.
  intros HN. unfold remembered, slice_from. cbv zeta.
  rewrite decide_True by lia. rewrite decide_False by lia.
  destruct (decide (- AGENT_MEMORY_SIZE cfg ≤ Z.of_nat (length (mem ++ [entry]))))
    as [Hle|Hgt].
  - by rewrite Z.min_l by lia.
  - rewrite Z.min_r by lia. rewrite !drop_ge; [done|lia..].
Qed.

Lemma remembered_bound cfg mem entry :
  1 ≤ AGENT_MEMORY_SIZE cfg →
  Z.of_nat (length (remembered cfg mem entry)) ≤ AGENT_MEMORY_SIZE cfg.
Proof.
  intros HN. rewrite remembered_positive by done. rewrite length_drop. lia.
Qed.

Lemma remembered_newest cfg mem entry :
  1 ≤ AGENT_MEMORY_SIZE cfg → last (remembered cfg mem entry) = Some entry.
Proof.
  intros HN. rewrite remembered_positive by done.
  rewrite last_lookup, length_drop, lookup_drop.
  rewrite length_app. cbn [length].
  replace (_ + _)%nat with (length mem) by lia.
  by rewrite lookup_app_r, Nat.sub_diag by lia.
Qed.

(** X9.  What [add_memory] keeps.  The entry is appended; with a memory
    size of at least one the last entries up to that number are kept, the
    new one last; with a memory size of zero nothing is ever dropped,
    since the slice [memory[-0:]] is the whole list; with a negative size
    that many of the oldest entries are dropped at each call. *)
Theorem add_memory_keeps_the_last cfg self obs act out w me :
  agents w !! self = Some me →
  let size := AGENT_MEMORY_SIZE cfg in
  let entry := memory_entry me obs act out in
  let l := memory me ++ [entry] in
  ∃ mem,
    add_memory cfg self obs act out w = Returned () (put self (set_memory mem me) w) ∧
    (1 ≤ size →
     mem = drop (length l - Z.to_nat size) l ∧ Z.of_nat (length mem) ≤ size ∧
     last mem = Some entry) ∧
    (size = 0 → mem = l) ∧
    (size < 0 → mem = drop (Z.to_nat (- size)) l).
Proof.
  intros H size entry l. eexists. split; [by apply add_memory_exact|].
  split; [|split].
  - intros HN. split; [by apply remembered_positive|].
    split; [by apply remembered_bound|by apply remembered_newest].
  - apply remembered_zero.
  - apply remembered_negative.
Qed.

Lemma add_memory_keeps_the_last_witness :
  ∃ mem,
    add_memory example_config 0 "obs" "collect" "collected red" (lone_agent [])
      = Returned () (put 0 (set_memory mem
          (new_agent "Agent1" (0, 3) {| red := 0; green := 2 |} 10
             {| red := 3; green := 1 |})) (lone_agent [])) ∧
    length mem = 1%nat.
Proof.
  destruct (add_memory_keeps_the_last example_config 0 "obs" "collect" "collected red"
              (lone_agent [])
              (new_agent "Agent1" (0, 3) {| red := 0; green := 2 |} 10
                 {| red := 3; green := 1 |}) eq_refl)
    as (mem & Hrun & Hpos & _).
  exists mem. split; [exact Hrun|].
  destruct Hpos as (-> & _ & _); [cbn; lia|reflexivity].
Defined.

(** X10.  With a memory size of at least one, a step leaves no agent
    with more entries in its memory than that, if none had more before:
    whatever the mode, the answer of the backend or the random draws, and
    also when the step raises an exception. *)
Theorem step_keeps_memory_bounded cfg self all_agents w :
  1 ≤ AGENT_MEMORY_SIZE cfg →
  Forall (λ a, Z.of_nat (length (memory a)) ≤ AGENT_MEMORY_SIZE cfg) (agents w) →
  Forall (λ a, Z.of_nat (length (memory a)) ≤ AGENT_MEMORY_SIZE cfg)
    (agents (world_of (decide_and_act cfg self all_agents w))).
Proof.
  intros HN Hmem.
  destruct (agents w !! self) as [me|] eqn:H;
    [|by rewrite decide_and_act_dangling].
  pose proof (Forall_lookup_1 _ _ _ _ Hmem H) as Hme. cbn beta in Hme.
  destruct (alive me) eqn:Ha; [|by erewrite decide_and_act_dead].
  destruct (decide (energy me - ENERGY_LOSS_PER_TURN cfg ≤ 0)) as [He|He].
  { erewrite decide_and_act_dies by done. cbn. by apply Forall_insert. }
  destruct (decide_and_act_precise cfg self all_agents w me H Ha ltac:(lia))
    as (action & mem & me' & Hagents & _ & _ & Hmem').
  cbv zeta in Hagents. rewrite Hagents. apply Forall_insert; [done|]. cbn.
  destruct (decide_and_act cfg self all_agents w).
  - destruct Hmem' as [entry ->]. by apply remembered_bound.
  - by subst mem.
Qed.

Lemma step_keeps_memory_bounded_witness :
  Forall (λ a, Z.of_nat (length (memory a)) ≤ 5)
    (agents (world_of (decide_and_act example_config 0 [0%nat]
                         (lone_agent [Some "collect"])))).
Proof.
  apply (step_keeps_memory_bounded example_config 0 [0%nat]
           (lone_agent [Some "collect"])); [cbn; lia|].
  repeat constructor; cbn; lia.
Defined.

(** ** The trading phase as a whole *)

Lemma same_but_inventory_refl a : same_but_inventory a a.
Proof. by destruct a. Qed.

Lemma same_but_inventory_trans a b c :
  same_but_inventory a b → same_but_inventory b c → same_but_inventory a c.
Proof. unfold same_but_inventory. intros -> ->. done. Qed.

Lemma stock_insert f l i a b :
  l !! i = Some a →
  stock f (<[i := b]> l) = stock f l - f (inventory a) + f (inventory b).
Proof.
  revert i. unfold stock. induction l as [|c l IH]; intros [|i] Hl; try done.
  - injection Hl as ->. cbn. lia.
  - simpl in *. rewrite (IH i Hl). lia.
Qed.

Lemma trade_step_refl w : trade_step w w.
Proof.
  repeat split; try done.
  apply Forall_Forall2_diag, Forall_forall. intros. apply same_but_inventory_refl.
Qed.

Lemma trade_step_trans w1 w2 w3 :
  trade_step w1 w2 → trade_step w2 w3 → trade_step w1 w3.
Proof.
  intros (A1 & B1 & C1 & D1 & E1 & F1 & G1 & H1) (A2 & B2 & C2 & D2 & E2 & F2 & G2 & H2).
  repeat split; try congruence.
  - eapply Forall2_trans; [apply same_but_inventory_trans|done..].
  - by etrans.
  - by etrans.
Qed.

Lemma trade_step_length w w' : trade_step w w' → length (agents w') = length (agents w).
Proof. intros [H _]. symmetry. by eapply Forall2_length. Qed.

(** *** Rules *)

Lemma settles_ret n {A} (a : A) (Q : A → Prop) : Q a → settles n (mret a) Q.
Proof. intros HQ w _. exists a, w. split; [done|]. split; [apply trade_step_refl|done]. Qed.

Lemma settles_weaken n {A} (m : M A) (Q Q' : A → Prop) :
  settles n m Q → (∀ a, Q a → Q' a) → settles n m Q'.
Proof.
  intros Hm HQ w Hw. destruct (Hm w Hw) as (a & w' & ? & ? & ?).
  exists a, w'. auto.
Qed.

Lemma settles_bind n {A B} (m : M A) (f : A → M B) (Q : A → Prop) (Q' : B → Prop) :
  settles n m Q → (∀ a, Q a → settles n (f a) Q') → settles n (m ≫= f) Q'.
Proof.
  intros Hm Hf w Hw. destruct (Hm w Hw) as (a & w1 & Hrun & Hstep & Ha).
  destruct (Hf a Ha w1) as (b & w2 & Hrun' & Hstep' & Hb).
  { rewrite <- Hw. by apply trade_step_length. }
  exists b, w2. split; [by erewrite bind_Returned by exact Hrun|].
  split; [by eapply trade_step_trans|done].
Qed.

Lemma settles_gets n {A} (f : World → A) (Q : A → Prop) :
  (∀ w, length (agents w) = n → Q (f w)) → settles n (gets f) Q.
Proof.
  intros HQ w Hw. exists (f w), w. split; [done|]. split; [apply trade_step_refl|auto].
Qed.

Lemma settles_modify n (f : World → World) :
  (∀ w, trade_step w (f w)) → settles n (modify f) (λ _, True).
Proof. intros Hf w _. exists (), (f w). split; [done|]. split; [apply Hf|done]. Qed.

Lemma settles_deref n i : (i < n)%nat → settles n (deref i) (λ _, True).
Proof.
  intros Hi w Hw. destruct (lookup_lt_is_Some_2 (agents w) i) as [a Ha]; [lia|].
  exists a, w. split; [by apply deref_Some|]. split; [apply trade_step_refl|done].
Qed.

Lemma trade_step_set_rng r w : trade_step w (set_rng r w).
Proof. exact (trade_step_refl w). Qed.

Lemma settles_random_choice n {A} (l : list A) :
  l ≠ [] → settles n (random_choice l) (λ a, a ∈ l).
Proof.
  intros Hl w _. destruct (random_choice_nonempty l w Hl) as (a & r & Ha & Hrun).
  exists a, (set_rng r w). split; [done|]. split; [apply trade_step_set_rng|done].
Qed.

Lemma settles_randbelow n k : settles n (randbelow k) (λ _, True).
Proof.
  intros w _. unfold randbelow. destruct (rng w) as [|d ds].
  - eexists _, _. split; [done|]. split; [apply trade_step_refl|done].
  - eexists _, _. split; [done|]. split; [apply trade_step_set_rng|done].
Qed.

Lemma settles_random_below_half n : settles n random_below_half (λ _, True).
Proof.
  intros w _. unfold random_below_half. destruct (rng w) as [|d ds].
  - eexists _, _. split; [done|]. split; [apply trade_step_refl|done].
  - eexists _, _. split; [done|]. split; [apply trade_step_set_rng|done].
Qed.

Lemma settles_shuffle_from n {A} (P : A → Prop) i (l : list A) :
  Forall P l → settles n (shuffle_from i l) (Forall P).
Proof.
  revert l. induction i as [|i IH]; intros l Hl; [by apply settles_ret|].
  cbn [shuffle_from]. eapply settles_bind; [apply settles_randbelow|].
  intros j _. by apply IH, Forall_swap.
Qed.

Lemma settles_for_ n {A S} (xs : list A) (body : A → S → M S) (Q : S → Prop) s :
  (∀ x s, x ∈ xs → Q s → settles n (body x s) Q) →
  Q s → settles n (for_ xs body s) Q.
Proof.
  revert s. induction xs as [|x xs IH]; intros s Hbody Hs; [by apply settles_ret|].
  cbn [for_]. eapply settles_bind; [apply Hbody; [left|done]|].
  intros s' Hs'. apply IH; [|done]. intros ????. apply Hbody; [by right|done].
Qed.

Lemma settles_for_each n {A S B} (xs : list A) (body : A → S → M (LoopStep S B))
    (Q : B → Prop) s :
  (∀ x s, x ∈ xs →
     settles n (body x s)
       (λ r, match r with Continue _ => True | Return v => Q v end)) →
  settles n (for_each xs body s)
    (λ r, match r with Continue _ => True | Return v => Q v end).
Proof.
  revert s. induction xs as [|x xs IH]; intros s Hbody; [by apply settles_ret|].
  cbn [for_each]. eapply settles_bind; [apply Hbody; left|].
  intros [s'|v] Hv.
  - apply IH. intros ???. apply Hbody. by right.
  - by apply settles_ret.
Qed.

(** *** The functions of the trading phase *)

Lemma build_agents_dict_elem l roster n i :
  build_agents_dict l roster !! n = Some i →
  i ∈ roster ∧ ∃ a, l !! i = Some a ∧ name a = n.
Proof.
  unfold build_agents_dict.
  assert (∀ d : gmap string nat,
            foldl (λ d i, match l !! i with
                          | Some a => <[name a := i]> d
                          | None => d
                          end) d roster !! n = Some i →
            d !! n = Some i ∨ (i ∈ roster ∧ ∃ a, l !! i = Some a ∧ name a = n)) as H.
  { induction roster as [|j roster IH]; intros d Hd; [by left|].
    cbn [foldl] in Hd. apply IH in Hd as [Hd|[Hin Ha]].
    - destruct (l !! j) as [a|] eqn:Hj; [|by left].
      apply lookup_insert_Some in Hd as [[<- <-]|[_ Hd]]; [|by left].
      right. split; [by left|]. by exists a.
    - right. split; [by right|done]. }
  intros Hd. apply H in Hd as [Hd|Hd]; [|done]. by rewrite lookup_empty in Hd.
Qed.

Lemma trade_step_market m w :
  completed_trades (market w) `prefix_of` completed_trades m →
  trade_log (market w) `prefix_of` trade_log m →
  trade_step w (set_market m w).
Proof.
  intros Hc Hl. repeat split; try done.
  apply Forall_Forall2_diag, Forall_forall. intros. apply same_but_inventory_refl.
Qed.

Lemma settles_add_offer n offer : settles n (add_offer offer) (λ _, True).
Proof.
  unfold add_offer. eapply settles_bind; [|intros; by apply settles_ret].
  apply settles_modify. intros w. apply trade_step_market; cbn; [done|].
  by apply prefix_app_r.
Qed.

Lemma settles_remove_offer n offer : settles n (remove_offer offer) (λ _, True).
Proof. apply settles_modify. intros w. by apply trade_step_market. Qed.

Lemma settles_clear_offers n : settles n clear_offers (λ _, True).
Proof. apply settles_modify. intros w. by apply trade_step_market. Qed.

Lemma trade_step_put w i a b :
  agents w !! i = Some a → same_but_inventory a b → inventory b = inventory a →
  trade_step w (put i b w).
Proof.
  intros Ha Hab Hinv. repeat split; try done;
    cbn [agents put set_agents].
  - eapply Forall2_put; [apply same_but_inventory_refl|done..].
  - rewrite (stock_insert _ _ _ a) by done. rewrite Hinv. lia.
  - rewrite (stock_insert _ _ _ a) by done. rewrite Hinv. lia.
Qed.

Lemma trade_step_executed offer w io it o t :
  agents w !! io = Some o → agents w !! it = Some t →
  trade_step w
    (set_market (record_trade offer (market w))
       (put it (as_target offer (if decide (it = io) then as_offerer offer o else t))
          (put io (as_offerer offer o) w))).
Proof.
  intros Ho Ht.
  assert (io < length (agents w))%nat as Hlen by (by eapply lookup_lt_Some).
  destruct (decide (it = io)) as [->|Hne].
  - rewrite trade_with_oneself. rewrite put_put, put_id by done.
    apply trade_step_market; cbn; by apply prefix_app_r.
  - repeat split;
      cbn [agents environment market llm_responses llm_requests put set_agents
           set_market record_trade completed_trades trade_log];
      try done; try (by apply prefix_app_r).
    + eapply Forall2_trans; [apply same_but_inventory_trans| |].
      * by apply (Forall2_put same_but_inventory _ io o (as_offerer offer o)
                    same_but_inventory_refl).
      * eapply (Forall2_put same_but_inventory); [apply same_but_inventory_refl| |].
        -- by rewrite list_lookup_insert_ne.
        -- done.
    + rewrite (stock_insert _ _ _ t) by (by rewrite list_lookup_insert_ne).
      rewrite (stock_insert _ _ _ o) by done. cbn. lia.
    + rewrite (stock_insert _ _ _ t) by (by rewrite list_lookup_insert_ne).
      rewrite (stock_insert _ _ _ o) by done. cbn. lia.
Qed.

Lemma settles_execute_trade n offer agents_dict :
  (∀ k i, agents_dict !! k = Some i → (i < n)%nat) →
  settles n (execute_trade offer agents_dict) (λ _, True).
Proof.
  intros Hvalid w Hw.
  destruct (agents_dict !! offerer offer) as [io|] eqn:Hio; cycle 1.
  { exists false, w. split; [apply execute_trade_absent; by left|].
    split; [apply trade_step_refl|done]. }
  destruct (agents_dict !! target offer) as [it|] eqn:Hit; cycle 1.
  { exists false, w. split; [apply execute_trade_absent; by right|].
    split; [apply trade_step_refl|done]. }
  destruct (lookup_lt_is_Some_2 (agents w) io) as [o Ho];
    [rewrite Hw; by eapply Hvalid|].
  destruct (lookup_lt_is_Some_2 (agents w) it) as [t Ht];
    [rewrite Hw; by eapply Hvalid|].
  destruct (alive o) eqn:Hao; cycle 1.
  { exists false, w. split; [eapply execute_trade_dead; eauto|].
    split; [apply trade_step_refl|done]. }
  destruct (alive t) eqn:Hat; cycle 1.
  { exists false, w. split; [eapply execute_trade_dead; eauto|].
    split; [apply trade_step_refl|done]. }
  destruct (decide (resources_available o t offer)) as [Hres|Hres]; cycle 1.
  { exists false, w. split; [eapply execute_trade_insufficient; eauto|].
    split; [apply trade_step_refl|done]. }
  eexists true, _. split; [by eapply execute_trade_success|].
  split; [by apply trade_step_executed|done].
Qed.

Lemma settles__random_trade_offer n self nearby_agents step :
  (self < n)%nat → Forall (λ i, (i < n)%nat) nearby_agents → nearby_agents ≠ [] →
  settles n (_random_trade_offer self nearby_agents step) (λ _, True).
Proof.
  intros Hself Hnearby Hne. rewrite Forall_forall in Hnearby.
  unfold _random_trade_offer.
  eapply settles_bind; [by apply settles_deref|]. intros me _. cbv zeta.
  case_decide; [by apply settles_ret|].
  eapply settles_bind; [by apply settles_random_choice|]. intros target_ref Hin.
  eapply settles_bind; [apply settles_deref; auto|]. intros target_agent _.
  case_decide as Hty; [by apply settles_ret|].
  eapply settles_bind; [by apply settles_random_choice|].
  intros [[[[ty a] b] c] d] _. by apply settles_ret.
Qed.

Lemma settles_consider_trade_offer n cfg self nearby_agents step :
  (self < n)%nat → Forall (λ i, (i < n)%nat) nearby_agents →
  settles n (consider_trade_offer cfg self nearby_agents step) (λ _, True).
Proof.
  intros Hself Hnearby. unfold consider_trade_offer.
  case_decide as Hguard; [by apply settles_ret|].
  assert (nearby_agents ≠ []) as Hne by tauto.
  case_decide; [by apply settles__random_trade_offer|].
  rewrite Forall_forall in Hnearby.
  eapply settles_bind; [by apply settles_deref|]. intros me _. cbv zeta.
  case_decide; [|case_decide; [|by apply settles_ret]].
  - eapply settles_bind; [by apply settles_random_choice|]. intros target_ref Hin.
    eapply settles_bind; [apply settles_deref; auto|]. intros target_agent _.
    by apply settles_ret.
  - eapply settles_bind; [by apply settles_random_choice|]. intros target_ref Hin.
    eapply settles_bind; [apply settles_deref; auto|]. intros target_agent _.
    by apply settles_ret.
Qed.

Lemma settles_consider_trade_acceptance n cfg self offers_ step :
  (self < n)%nat →
  settles n (consider_trade_acceptance cfg self offers_ step) (λ _, True).
Proof.
  intros Hself. unfold consider_trade_acceptance.
  case_decide; [by apply settles_ret|].
  eapply settles_bind; [by apply settles_deref|]. intros me _.
  case_decide.
  - eapply settles_bind.
    { apply (settles_for_each n offers_ _ (λ _, True)). intros offer [] Hin.
      case_decide; [|by apply settles_ret].
      eapply settles_bind; [apply settles_random_below_half|].
      intros [] _; by apply settles_ret. }
    intros [[]|offer] _; by apply settles_ret.
  - cbv zeta. eapply settles_bind.
    { apply (settles_for_each n offers_ _ (λ _, True)). intros offer [] Hin.
      repeat case_decide; by apply settles_ret. }
    intros [[]|offer] _; by apply settles_ret.
Qed.

Lemma get_agents_in_trade_range_roster l agent roster trade_range :
  get_agents_in_trade_range l agent roster trade_range ⊆ roster.
Proof.
  intros i Hi.
  by apply elem_of_get_agents_in_trade_range in Hi as (_ & _ & _ & _ & ? & _).
Qed.

Lemma settles_make_offers n cfg roster step trading_events :
  Forall (λ i, (i < n)%nat) roster →
  settles n (make_offers cfg roster step trading_events) (λ _, True).
Proof.
  intros Hroster. unfold make_offers.
  apply (settles_for_ n roster _ (λ _, True)); [|done].
  intros agent events Hin _. rewrite Forall_forall in Hroster.
  eapply settles_bind; [apply settles_deref; auto|]. intros a _.
  destruct (alive a); [|by apply settles_ret].
  eapply (settles_bind _ _ _ (λ _, True)); [by apply settles_gets|].
  intros l _. cbv zeta.
  case_decide; [by apply settles_ret|].
  eapply settles_bind.
  { apply settles_consider_trade_offer; [auto|].
    apply Forall_forall. intros i Hi. apply Hroster.
    by eapply get_agents_in_trade_range_roster. }
  intros [offer|] _; [|by apply settles_ret].
  eapply settles_bind; [apply settles_add_offer|]. intros; by apply settles_ret.
Qed.

Lemma settles_collect_agents_with_offers n roster :
  Forall (λ i, (i < n)%nat) roster →
  settles n (collect_agents_with_offers roster)
    (Forall (λ entry : nat * list TradeOffer, (entry.1 < n)%nat)).
Proof.
  intros Hroster. unfold collect_agents_with_offers.
  apply settles_for_; [|done]. rewrite Forall_forall in Hroster.
  intros agent entries Hin Hentries.
  eapply settles_bind; [apply settles_deref; auto|]. intros a _.
  destruct (alive a); [|by apply settles_ret].
  eapply (settles_bind _ _ _ (λ _, True)); [by apply settles_gets|].
  intros m _. cbv zeta. case_decide; [by apply settles_ret|].
  apply settles_ret. apply Forall_app. split; [done|]. constructor; [|done].
  cbn. auto.
Qed.

Lemma settles_process_acceptance n cfg agents_dict step entry trading_events :
  (entry.1 < n)%nat →
  (∀ k i, agents_dict !! k = Some i → (i < n)%nat) →
  settles n (process_acceptance cfg agents_dict step entry trading_events)
    (λ _, True).
Proof.
  destruct entry as [agent offers_]. cbn [fst]. intros Hagent Hdict.
  unfold process_acceptance.
  eapply settles_bind; [by apply settles_consider_trade_acceptance|].
  intros [accepted_offer|] _.
  - eapply settles_bind; [by apply settles_execute_trade|].
    intros [] _; cbv zeta.
    + eapply settles_bind; [apply settles_remove_offer|]. intros _ _.
      eapply (settles_bind _ _ _ (λ _, True)); [by apply settles_gets|]. intros m _.
      apply (settles_for_ _ _ _ (λ _, True)); [|done]. intros conflict events _ _.
      eapply settles_bind; [apply settles_remove_offer|]. intros; by apply settles_ret.
    + eapply settles_bind; [apply settles_remove_offer|]. intros; by apply settles_ret.
  - apply (settles_for_ _ _ _ (λ _, True)); [|done]. intros offer events _ _.
    cbv zeta.
    eapply settles_bind; [apply settles_remove_offer|]. intros; by apply settles_ret.
Qed.

Lemma settles_process_trading_phase n cfg roster step :
  Forall (λ i, (i < n)%nat) roster →
  settles n (process_trading_phase cfg roster step) (λ _, True).
Proof.
  intros Hroster. unfold process_trading_phase.
  case_decide; [by apply settles_ret|].
  eapply (settles_bind _ _ _
            (λ l, ∀ k i, build_agents_dict l roster !! k = Some i → (i < n)%nat)).
  { apply settles_gets. intros w _ k i Hk.
    apply build_agents_dict_elem in Hk as [Hin _].
    rewrite Forall_forall in Hroster. auto. }
  intros l Hdict. cbv zeta.
  eapply settles_bind; [by apply settles_make_offers|]. intros events _.
  eapply settles_bind; [by apply settles_collect_agents_with_offers|].
  intros entries Hentries.
  eapply settles_bind; [by apply settles_shuffle_from|].
  intros shuffled Hshuffled. rewrite Forall_forall in Hshuffled.
  eapply settles_bind.
  { apply (settles_for_ _ _ _ (λ _, True)); [|done]. intros entry events' Hin _.
    apply settles_process_acceptance; auto. }
  intros events' _.
  eapply settles_bind; [apply settles_clear_offers|]. intros; by apply settles_ret.
Qed.

Lemma process_trading_phase_clears cfg roster step w events w' :
  0 < TRADE_RANGE cfg →
  process_trading_phase cfg roster step w = Returned events w' →
  offers (market w') = [].
Proof.
  intros Hrange. unfold process_trading_phase. rewrite decide_False by lia.
  intros Hrun.
  apply bind_Returned_inv in Hrun as (l & w1 & _ & Hrun). cbv zeta in Hrun.
  apply bind_Returned_inv in Hrun as (ev1 & w2 & _ & Hrun).
  apply bind_Returned_inv in Hrun as (entries & w3 & _ & Hrun).
  apply bind_Returned_inv in Hrun as (shuffled & w4 & _ & Hrun).
  apply bind_Returned_inv in Hrun as (ev2 & w5 & _ & Hrun).
  apply bind_Returned_inv in Hrun as ([] & w6 & Hclear & Hrun).
  injection Hclear as <-. by injection Hrun as _ <-.
Qed.

(** X11.  The trading phase on a roster of agents of the store always
    returns, whatever the mode and the random draws.  It changes nothing
    of an agent but the inventory, leaves the units of red and of green
    that all agents hold together as they were, and leaves the grid and
    the decision backend alone; ledger and log of the market only grow at
    their ends.  With trading enabled no offer is pending afterwards;
    with a trade range of zero or less the phase returns no events and
    touches nothing, not even the offers pending. *)
Theorem trading_phase_settles cfg roster step w :
  Forall (λ i, (i < length (agents w))%nat) roster →
  ∃ events w',
    process_trading_phase cfg roster step w = Returned events w' ∧
    trade_step w w' ∧
    (0 < TRADE_RANGE cfg → offers (market w') = []) ∧
    (TRADE_RANGE cfg ≤ 0 → events = [] ∧ w' = w).
Proof.
  intros Hroster.
  destruct (settles_process_trading_phase (length (agents w)) cfg roster step
              Hroster w eq_refl) as (events & w' & Hrun & Hstep & _).
  exists events, w'. split; [done|]. split; [done|]. split.
  - intros Hrange. by eapply process_trading_phase_clears.
  - intros Hrange. unfold process_trading_phase in Hrun.
    rewrite decide_True in Hrun by done. by injection Hrun as <- <-.
Qed.

Lemma trading_phase_settles_witness :
  ∃ events w',
    process_trading_phase example_config [0; 1]%nat 1 (two_traders []) = Returned events w' ∧
    trade_step (two_traders []) w' ∧ offers (market w') = [].
Proof.
  destruct (trading_phase_settles example_config [0; 1]%nat 1 (two_traders []))
    as (events & w' & Hrun & Hstep & Hclear & _).
  { repeat constructor; cbn; lia. }
  exists events, w'. split; [done|]. split; [done|]. apply Hclear. cbn. lia.
Defined.

(** ** Offers taken off the market *)

Lemma remove_first_middle (x : TradeOffer) pre l :
  x ∉ pre → remove_first x (pre ++ x :: l) = pre ++ l.
Proof.
  induction pre as [|y pre IH]; intros Hx; cbn [remove_first app].
  - by rewrite decide_True.
  - apply not_elem_of_cons in Hx as [Hne Hx]. rewrite decide_False by done.
    by rewrite IH.
Qed.

Lemma remove_first_absent (x : TradeOffer) l : x ∉ l → remove_first x l = l.
Proof.
  induction l as [|y l IH]; intros Hx; [done|]. cbn [remove_first].
  apply not_elem_of_cons in Hx as [Hne Hx]. rewrite decide_False by done.
  by rewrite IH.
Qed.

Lemma foldl_remove_first_filter (P : TradeOffer → Prop) `{!∀ o, Decision (P o)} pre l :
  Forall (λ o, ¬ P o) pre →
  foldl (λ l c, remove_first c l) (pre ++ l) (filter P l)
  = pre ++ filter (λ o, ¬ P o) l.
Proof.
  revert pre. induction l as [|y l IH]; intros pre Hpre; [done|].
  destruct (decide (P y)) as [Hy|Hy].
  - rewrite filter_cons_True by done. rewrite filter_cons_False by tauto.
    cbn [foldl]. rewrite remove_first_middle; [by apply IH|].
    intros Hin. rewrite Forall_forall in Hpre. by apply (Hpre y).
  - rewrite filter_cons_False by done. rewrite filter_cons_True by done.
    rewrite (cons_middle y pre l), app_assoc. rewrite IH.
    + by rewrite <- app_assoc.
    + apply Forall_app. split; [done|]. by constructor.
Qed.

Lemma filter_remove_first (P : TradeOffer → Prop) `{!∀ o, Decision (P o)} x l :
  ¬ P x → filter P (remove_first x l) = filter P l.
Proof.
  intros Hx. induction l as [|y l IH]; [done|]. cbn [remove_first].
  case_decide as Hxy.
  - subst y. by rewrite filter_cons_False.
  - destruct (decide (P y)).
    + rewrite !filter_cons_True by done. by rewrite IH.
    + rewrite !filter_cons_False by done. by rewrite IH.
Qed.

Lemma set_offers_same w : set_market (set_offers (offers (market w)) (market w)) w = w.
Proof. by destruct w as [? ? [] ? ? ?]. Qed.

Lemma cancel_conflicts conflicts events w :
  for_ conflicts (λ conflict trading_events,
    remove_offer conflict;;
    mret (trading_events ++ ["  CANCELLED (conflict): " +:+ str_offer conflict]))
    events w
  = Returned
      (events ++ ((λ c, "  CANCELLED (conflict): " +:+ str_offer c) <$> conflicts))
      (set_market
         (set_offers (foldl (λ l c, remove_first c l) (offers (market w)) conflicts)
            (market w)) w).
Proof.
  revert events w. induction conflicts as [|c cs IH]; intros events w.
  - cbn. by rewrite app_nil_r, set_offers_same.
  - cbn [for_ foldl fmap list_fmap]. unfold remove_offer at 1.
    erewrite bind_Returned by (erewrite bind_Returned by reflexivity; reflexivity).
    rewrite IH. by rewrite <- app_assoc.
Qed.

(** X12.  An accepted offer that is executed takes every offer off the
    market that names its offerer or its target, as offerer or as target,
    the accepted one included: the offers left pending are those of before
    that name neither, in their order.  The events report the acceptance
    and one cancellation for each other offer removed. *)
Theorem executed_trade_cancels_conflicts cfg agents_dict step agent offers_ events
    w0 w offer w1 :
  consider_trade_acceptance cfg agent offers_ step w0 = Returned (Some offer) w →
  execute_trade offer agents_dict w = Returned true w1 →
  let left := filter (λ o, ¬ conflicts_with offer o) (offers (market w)) in
  let cancelled :=
    filter (conflicts_with offer) (remove_first offer (offers (market w))) in
  process_acceptance cfg agents_dict step (agent, offers_) events w0
    = Returned
        (events ++ ["  ACCEPTED: " +:+ str_offer offer]
           ++ ((λ c, "  CANCELLED (conflict): " +:+ str_offer c) <$> cancelled))
        (set_market (set_offers left (market w1)) w1) ∧
  ∀ o, o ∈ left →
    ¬ involves (offerer offer) o ∧ ¬ involves (target offer) o.
Proof.
  intros Hacc Hex left cancelled.
  pose proof (execute_trade_offers offer agents_dict w) as Hoffers.
  rewrite Hex in Hoffers. cbn [world_of] in Hoffers.
  split.
  - unfold process_acceptance. cbv beta iota.
    run_in_context ltac:(exact Hacc). cbv beta iota.
    run_in_context ltac:(exact Hex). cbv beta iota zeta.
    unfold remove_offer at 1. run_in_context ltac:(reflexivity).
    run_in_context ltac:(reflexivity).
    rewrite cancel_conflicts.
    cbn [market set_market offers set_offers]. rewrite Hoffers.
    fold cancelled. rewrite <- app_assoc. f_equal.
    unfold cancelled.
    rewrite (foldl_remove_first_filter (conflicts_with offer) []
               (remove_first offer (offers (market w)))) by constructor.
    cbn [app].
    rewrite (filter_remove_first (λ o, ¬ conflicts_with offer o)).
    + by destruct w1 as [? ? [] ? ? ?].
    + intros Hnot. apply Hnot. by left.
  - intros o Ho. apply list_elem_of_filter in Ho as [Hno _].
    unfold conflicts_with, involves in *. tauto.
Qed.

Lemma executed_trade_cancels_conflicts_witness :
  ∃ events w',
    process_acceptance example_config example_dict 1 (1%nat, [offer_1_to_2]) []
      both_offers_pending = Returned events w' ∧
    offers (market w') = [].
Proof.
  eexists _, _. split.
  - refine (proj1 (executed_trade_cancels_conflicts example_config example_dict 1
                     1%nat [offer_1_to_2] [] both_offers_pending both_offers_pending
                     offer_1_to_2 _ _ _)); reflexivity.
  - reflexivity.
Defined.

(** ** Which offer is accepted *)

Lemma set_rng_same w : set_rng (rng w) w = w.
Proof. by destruct w. Qed.

Lemma first_wanted me (offers_ : list TradeOffer) w :
  for_each offers_ (λ offer (_ : unit),
    if decide (covers_request me offer) then
      if decide (red (consumption_rates me) > green (consumption_rates me)
                 ∧ offer_red offer > 0)
      then mret (Return offer)
      else if decide (green (consumption_rates me) > red (consumption_rates me)
                      ∧ offer_green offer > 0)
      then mret (Return offer)
      else if decide (red (consumption_rates me) = green (consumption_rates me))
      then mret (Return offer)
      else mret (Continue ())
    else mret (Continue ())) () w
  = Returned (match head (filter (wanted me) offers_) with
              | Some offer => Return offer
              | None => Continue ()
              end) w.
Proof.
  induction offers_ as [|offer rest IH]; [done|]. cbn [for_each].
  destruct (decide (wanted me offer)) as [Hw|Hw].
  - rewrite filter_cons_True by done. cbn [head].
    destruct Hw as [Hc Hw]. rewrite (decide_True (P := covers_request _ _)) by done.
    repeat case_decide; try done; exfalso; tauto.
  - rewrite filter_cons_False by done. unfold wanted in Hw.
    repeat case_decide; try (exfalso; tauto);
      (erewrite bind_Returned by reflexivity; exact IH).
Qed.

(** X13.  Outside random mode an agent accepts the first of the offers
    handed to it, in their order, that its inventory covers and that
    brings some of the resource it gains more from; an agent that gains
    the same from both accepts the first offer its inventory covers,
    whatever that offer brings.  Later offers are not looked at, nothing
    of the store changes and no random draw is made. *)
Theorem first_wanted_offer_is_accepted cfg self offers_ step w me :
  agents w !! self = Some me → RAND_MODE cfg ≠ 1 →
  consider_trade_acceptance cfg self offers_ step w
  = Returned (head (filter (wanted me) offers_)) w.
Proof.
  intros H Hmode. unfold consider_trade_acceptance.
  case_decide as Hnil; [by subst|].
  step_deref. rewrite decide_False by done. cbv zeta.
  erewrite bind_Returned by apply first_wanted.
  by destruct (head _).
Qed.

Lemma first_wanted_offer_is_accepted_witness :
  consider_trade_acceptance example_config 1 [offer_2_to_1; offer_1_to_2] 1
    (two_traders [])
  = Returned (Some offer_1_to_2) (two_traders []).
Proof.
  apply (first_wanted_offer_is_accepted example_config 1 [offer_2_to_1; offer_1_to_2] 1
           (two_traders [])
           (new_agent "Agent2" (0, 4) {| red := 2; green := 0 |} 10
              {| red := 1; green := 3 |})); [reflexivity|cbn; lia].
Defined.

Lemma random_below_half_cases w :
  ∃ b r, random_below_half w = Returned b (set_rng r w).
Proof.
  unfold random_below_half. destruct (rng w) as [|d ds] eqn:Hrng.
  - exists true, []. f_equal. rewrite <- Hrng. by destruct w.
  - by exists (Nat.even d), ds.
Qed.

Lemma random_acceptance me (offers_ : list TradeOffer) w :
  ∃ res r,
    for_each offers_ (λ offer (_ : unit),
      if decide (covers_request me offer) then
        random_below_half ≫= λ b : bool,
        if b then mret (Return offer) else mret (Continue ())
      else mret (Continue ())) () w
    = Returned res (set_rng r w) ∧
    match res with
    | Return offer => offer ∈ offers_ ∧ covers_request me offer
    | Continue _ => True
    end.
Proof.
  revert w. induction offers_ as [|offer rest IH]; intros w.
  { exists (Continue ()), (rng w). by rewrite set_rng_same. }
  cbn [for_each]. case_decide as Hc.
  - destruct (random_below_half_cases w) as (b & r & Hb). destruct b.
    + exists (Return offer), r. split; [|split; [by left|done]].
      by erewrite bind_Returned
        by (erewrite bind_Returned by exact Hb; reflexivity).
    + destruct (IH (set_rng r w)) as (res & r' & Hrun & Hres).
      exists res, r'. split.
      * by erewrite bind_Returned
          by (erewrite bind_Returned by exact Hb; reflexivity).
      * destruct res; [done|]. destruct Hres. split; [by right|done].
  - destruct (IH w) as (res & r & Hrun & Hres).
    exists res, r. split.
    + by erewrite bind_Returned by reflexivity.
    + destruct res; [done|]. destruct Hres. split; [by right|done].
Qed.

(** X14.  In either mode the choice among the offers always returns and
    touches nothing but the random draws; an offer it accepts is one of
    those handed in, and the inventory of the agent covers what that
    offer requests. *)
Theorem accepted_offer_is_covered cfg self offers_ step w me :
  agents w !! self = Some me →
  ∃ res r,
    consider_trade_acceptance cfg self offers_ step w = Returned res (set_rng r w) ∧
    ∀ offer, res = Some offer → offer ∈ offers_ ∧ covers_request me offer.
Proof.
  intros H. destruct (decide (RAND_MODE cfg = 1)) as [Hmode|Hmode].
  - unfold consider_trade_acceptance. case_decide as Hnil.
    { exists None, (rng w). by rewrite set_rng_same. }
    step_deref. rewrite decide_True by done.
    destruct (random_acceptance me offers_ w) as (res & r & Hrun & Hres).
    erewrite bind_Returned by exact Hrun.
    destruct res as [[]|offer].
    + exists None, r. done.
    + exists (Some offer), r. split; [done|]. by intros ? [= <-].
  - exists (head (filter (wanted me) offers_)), (rng w). rewrite set_rng_same.
    split.
    { unfold consider_trade_acceptance. case_decide as Hnil; [by subst|].
      step_deref. rewrite decide_False by done. cbv zeta.
      erewrite bind_Returned by apply first_wanted. by destruct (head _). }
    intros offer Hhead. apply head_Some_elem_of in Hhead.
    apply list_elem_of_filter in Hhead as [[Hc _] Hin]. done.
Qed.

Lemma accepted_offer_is_covered_witness :
  ∃ res r,
    consider_trade_acceptance
      {| ENERGY_LOSS_PER_TURN := 1; AGENT_MEMORY_SIZE := 5;
         TRADE_RANGE := 1; RAND_MODE := 1 |} 1 [offer_1_to_2] 1 (two_traders [3%nat])
    = Returned res (set_rng r (two_traders [3%nat])) ∧
    ∀ offer, res = Some offer → offer = offer_1_to_2.
Proof.
  destruct (accepted_offer_is_covered
              {| ENERGY_LOSS_PER_TURN := 1; AGENT_MEMORY_SIZE := 5;
                 TRADE_RANGE := 1; RAND_MODE := 1 |} 1 [offer_1_to_2] 1
              (two_traders [3%nat])
              (new_agent "Agent2" (0, 4) {| red := 2; green := 0 |} 10
                 {| red := 1; green := 3 |}) eq_refl)
    as (res & r & Hrun & Hres).
  exists res, r. split; [exact Hrun|].
  intros offer Ho. destruct (Hres offer Ho) as [Hin _].
  by apply list_elem_of_singleton in Hin.
Defined.

(** ** Which offer is made *)

(** The choice of a neighbour among valid references. *)
Lemma choose_target (nearby : list nat) w :
  nearby ≠ [] → Forall (λ i, is_Some (agents w !! i)) nearby →
  ∃ i other r,
    i ∈ nearby ∧ agents w !! i = Some other ∧
    random_choice nearby w = Returned i (set_rng r w) ∧
    deref i (set_rng r w) = Returned other (set_rng r w).
Proof.
  intros Hne Hvalid.
  destruct (random_choice_nonempty nearby w Hne) as (i & r & Hi & Hr).
  rewrite Forall_forall in Hvalid. destruct (Hvalid i Hi) as [other Ho].
  exists i, other, r. repeat (split; [done|]). by apply deref_Some.
Qed.

(** X15.  In either mode the decision on an offer always returns and
    touches nothing but the random draws.  An offer that is made comes
    from the agent, goes to one of the neighbours handed in, offers units
    of one resource only, no more of it than the agent holds and at least
    one, and requests units of the other resource only: one for one
    outside random mode, two for one or one for two in random mode.  With
    a trade range of zero or less no offer is made. *)
Theorem offer_made_is_covered cfg self nearby at_step w me :
  agents w !! self = Some me →
  Forall (λ i, is_Some (agents w !! i)) nearby →
  ∃ res r,
    consider_trade_offer cfg self nearby at_step w = Returned res (set_rng r w) ∧
    ∀ offer, res = Some offer →
      0 < TRADE_RANGE cfg ∧ offerer offer = name me ∧ step offer = at_step ∧
      (∃ i other, i ∈ nearby ∧ agents w !! i = Some other ∧ target offer = name other) ∧
      (0 < offer_red offer ≤ red (inventory me) ∧ offer_green offer = 0 ∧
       request_red offer = 0 ∧ 0 < request_green offer
       ∨ offer_red offer = 0 ∧ 0 < offer_green offer ≤ green (inventory me) ∧
         0 < request_red offer ∧ request_green offer = 0) ∧
      offer_red offer + offer_green offer + request_red offer + request_green offer
      = (if decide (RAND_MODE cfg = 1) then 3 else 2).
Proof.
  intros H Hvalid. unfold consider_trade_offer.
  case_decide as Hguard.
  { exists None, (rng w). by rewrite set_rng_same. }
  assert (0 < TRADE_RANGE cfg ∧ nearby ≠ []) as [Hrange Hne].
  { split; [lia|tauto]. }
  destruct (choose_target nearby w Hne Hvalid) as (i & other & r & Hi & Ho & Hrc & Hd).
  case_decide as Hmode.
  - unfold _random_trade_offer. step_deref. cbv zeta.
    case_decide as Hnone.
    { exists None, (rng w). by rewrite set_rng_same. }
    run_in_context ltac:(exact Hrc). run_in_context ltac:(exact Hd).
    match goal with
    | |- context [decide (?l = [])] => set (offer_types := l)
    end.
    assert (Forall (λ ty : string * Z * Z * Z * Z,
              let '(_, o_red, o_green, r_red, r_green) := ty in
              (0 < o_red ≤ red (inventory me) ∧ o_green = 0 ∧ r_red = 0 ∧ 0 < r_green
               ∨ o_red = 0 ∧ 0 < o_green ≤ green (inventory me)
                 ∧ 0 < r_red ∧ r_green = 0) ∧
              o_red + o_green + r_red + r_green = 3) offer_types) as Hty.
    { subst offer_types. repeat case_decide;
        repeat first [apply Forall_app; split | apply Forall_cons; split
                     | apply Forall_nil_2]; cbn; lia. }
    case_decide as Hnil.
    { exists None, r. done. }
    destruct (random_choice_nonempty offer_types (set_rng r w) Hnil)
      as ([[[[ty a] b] c] d] & r' & Hin & Hr').
    run_in_context ltac:(exact Hr').
    rewrite Forall_forall in Hty. specialize (Hty _ Hin). cbn beta iota in Hty.
    eexists _, r'. split; [reflexivity|].
    intros offer [= <-]. cbn.
    split; [done|]. split; [done|]. split; [done|]. split; [by exists i, other|].
    tauto.
  - step_deref. cbv zeta.
    case_decide as Hred; [|case_decide as Hgreen].
    + run_in_context ltac:(exact Hrc). run_in_context ltac:(exact Hd).
      eexists _, r. split; [reflexivity|].
      intros offer [= <-]. cbn.
      split; [done|]. split; [done|]. split; [done|]. split; [by exists i, other|].
      lia.
    + run_in_context ltac:(exact Hrc). run_in_context ltac:(exact Hd).
      eexists _, r. split; [reflexivity|].
      intros offer [= <-]. cbn.
      split; [done|]. split; [done|]. split; [done|]. split; [by exists i, other|].
      lia.
    + exists None, (rng w). by rewrite set_rng_same.
Qed.

Lemma offer_made_is_covered_witness :
  ∃ res r,
    consider_trade_offer
      {| ENERGY_LOSS_PER_TURN := 1; AGENT_MEMORY_SIZE := 5;
         TRADE_RANGE := 1; RAND_MODE := 1 |} 0 [1%nat] 1 (two_traders [])
    = Returned res (set_rng r (two_traders [])) ∧
    ∀ offer, res = Some offer →
      offer_red offer = 0 ∧ 0 < offer_green offer ≤ 2.
Proof.
  destruct (offer_made_is_covered
              {| ENERGY_LOSS_PER_TURN := 1; AGENT_MEMORY_SIZE := 5;
                 TRADE_RANGE := 1; RAND_MODE := 1 |} 0 [1%nat] 1 (two_traders [])
              (new_agent "Agent1" (0, 3) {| red := 0; green := 2 |} 10
                 {| red := 3; green := 1 |}) eq_refl)
    as (res & r & Hrun & Hres).
  { repeat constructor. by eexists. }
  exists res, r. split; [exact Hrun|].
  intros offer Ho.
  destruct (Hres offer Ho) as (_ & _ & _ & _ & [(Hr & _)|(Hr & Hg & _)] & _);
    cbn in *; [lia|done].
Defined.

(** ** Who can trade with whom *)

Lemma get_agents_in_trade_range_elem l agent all_agents trade_range i me other :
  l !! agent = Some me → l !! i = Some other →
  i ∈ get_agents_in_trade_range l agent all_agents trade_range ↔
  0 < trade_range ∧ i ∈ all_agents ∧ within_trade_range me other trade_range.
Proof.
  intros Hme Hother. split.
  - intros Hin. split.
    + unfold get_agents_in_trade_range in Hin. case_decide; [|lia].
      by apply elem_of_nil in Hin.
    + apply elem_of_get_agents_in_trade_range in Hin
        as (me0 & other0 & Hme0 & Hother0 & Hin & Hrange).
      split; [done|]. congruence.
  - intros (Hrange & Hin & Hwithin). unfold get_agents_in_trade_range.
    rewrite decide_False by lia. apply list_elem_of_omap. exists i.
    split; [done|]. rewrite Hme, Hother. by rewrite decide_True.
Qed.

(** X16.  The neighbours an agent can trade with.  One living agent of
    the roster is in the trade range of another exactly if the range is
    positive, their names differ and the Manhattan distance of their
    positions is at most the range (two agents on one cell are at
    distance zero); hence being in trade range is mutual, no agent is in
    its own range, and two agents that share a name are never in each
    other's. *)
Theorem trade_range_is_mutual l roster trade_range i j a b :
  l !! i = Some a → l !! j = Some b → i ∈ roster → j ∈ roster →
  alive a = true → alive b = true →
  (j ∈ get_agents_in_trade_range l i roster trade_range ↔
   0 < trade_range ∧ name b ≠ name a ∧
   Z.abs ((position a).1 - (position b).1) + Z.abs ((position a).2 - (position b).2)
     ≤ trade_range) ∧
  (j ∈ get_agents_in_trade_range l i roster trade_range ↔
   i ∈ get_agents_in_trade_range l j roster trade_range) ∧
  i ∉ get_agents_in_trade_range l i roster trade_range.
Proof.
  intros Ha Hb Hi Hj Hla Hlb.
  rewrite (get_agents_in_trade_range_elem l i roster trade_range j a b Ha Hb).
  rewrite (get_agents_in_trade_range_elem l j roster trade_range i b a Hb Ha).
  rewrite (get_agents_in_trade_range_elem l i roster trade_range i a a Ha Ha).
  unfold within_trade_range, calculate_manhattan_distance.
  split; [|split].
  - tauto.
  - split; intros (? & _ & _ & Hn & Hd); (split; [done|]); (split; [done|]);
      (split; [done|]); (split; [congruence|]); lia.
  - intros (_ & _ & _ & Hn & _). done.
Qed.

Lemma trade_range_is_mutual_witness :
  (1%nat ∈ get_agents_in_trade_range two_traders_start 0 [0; 1]%nat 1 ↔
   0%nat ∈ get_agents_in_trade_range two_traders_start 1 [0; 1]%nat 1).
Proof.
  refine (proj1 (proj2 (trade_range_is_mutual two_traders_start [0; 1]%nat 1 0 1
            _ _ eq_refl eq_refl _ _ eq_refl eq_refl))).
  - by left.
  - right. by left.
Defined.

(** ** The dictionary of the agents by name *)

Lemma build_agents_dict_app l pre post :
  build_agents_dict l (pre ++ post)
  = foldl (λ d i, match l !! i with
                  | Some a => <[name a := i]> d
                  | None => d
                  end) (build_agents_dict l pre) post.
Proof. unfold build_agents_dict. by rewrite foldl_app. Qed.

Lemma foldl_insert_other (l : list Agent) (post : list nat) (d : gmap string nat) n :
  (∀ j b, j ∈ post → l !! j = Some b → name b ≠ n) →
  foldl (λ d i, match l !! i with
                | Some a => <[name a := i]> d
                | None => d
                end) d post !! n = d !! n.
Proof.
  revert d. induction post as [|j post IH]; intros d Hother; [done|].
  cbn [foldl]. rewrite IH by (intros ????; eapply Hother; [by right|done]).
  destruct (l !! j) as [b|] eqn:Hj; [|done].
  rewrite lookup_insert_ne; [done|]. eapply Hother; [by left|done].
Qed.

(** X17.  The dictionary the trading phase looks the parties of a trade
    up in holds, for a name, the last agent of the roster that bears it:
    an agent of the roster is found under its name if no later agent of
    the roster has the same name, and whatever is found under a name is
    an agent of the roster with that name. *)
Theorem agents_dict_finds_the_last l pre i post a :
  l !! i = Some a →
  (∀ j b, j ∈ post → l !! j = Some b → name b ≠ name a) →
  build_agents_dict l (pre ++ i :: post) !! name a = Some i ∧
  ∀ n j, build_agents_dict l (pre ++ i :: post) !! n = Some j →
    j ∈ pre ++ i :: post ∧ ∃ b, l !! j = Some b ∧ name b = n.
Proof.
  intros Ha Hlater. split.
  - rewrite build_agents_dict_app. cbn [foldl]. rewrite Ha.
    rewrite foldl_insert_other by done. apply lookup_insert_eq.
  - intros n j. apply build_agents_dict_elem.
Qed.

Lemma agents_dict_finds_the_last_witness :
  build_agents_dict two_traders_start ([] ++ 0%nat :: [1%nat]) !! "Agent1" = Some 0%nat.
Proof.
  refine (proj1 (agents_dict_finds_the_last two_traders_start [] 0 [1%nat] _
                   eq_refl _)).
  intros j b Hj Hb. apply list_elem_of_singleton in Hj as ->.
  injection Hb as <-. done.
Defined.

(** ** Resources are not created *)

Lemma markers_clear_cell k e x y :
  markers k (clear_cell e x y)
  = markers k e - (if decide (get_cell_content e x y = Some k) then 1 else 0).
Proof.
  unfold markers, clear_cell, get_cell_content. cbn [Env.grid].
  rewrite map_filter_delete. case_decide as Hcell.
  - rewrite <- (insert_delete_id (filter _ (Env.grid e)) (x, y) k) at 2
      by (by apply map_lookup_filter_Some).
    rewrite map_size_insert_None by apply lookup_delete_eq. lia.
  - rewrite map_size_delete_None; [lia|].
    apply map_lookup_filter_None.
    destruct (Env.grid e !! (x, y)) as [k'|] eqn:Hk; [right|by left].
    intros ? [= <-]. cbn. congruence.
Qed.

Ltac simp_inv :=
  unfold entered;
  cbn [inventory set_actions_taken set_energy set_step_count set_inventory
       set_position red green].

(** X18.  No step creates a resource.  Counting for each resource the
    units that all agents hold and the markers that lie on the grid, a
    step of any agent leaves both counts as they were, or, when the agent
    eats, takes one unit from one of them: what is collected comes off
    the grid, and nothing else adds to an inventory. *)
Theorem step_creates_no_resource cfg self all_agents w :
  let w' := world_of (decide_and_act cfg self all_agents w) in
  let reds v := stock red (agents v) + markers "red" (environment v) in
  let greens v := stock green (agents v) + markers "green" (environment v) in
  (reds w' = reds w ∧ greens w' = greens w) ∨
  (reds w' = reds w - 1 ∧ greens w' = greens w) ∨
  (reds w' = reds w ∧ greens w' = greens w - 1).
Proof.
  cbv zeta.
  destruct (agents w !! self) as [me|] eqn:H;
    [|rewrite decide_and_act_dangling by done; by left].
  destruct (alive me) eqn:Ha; [|erewrite decide_and_act_dead by done; by left].
  destruct (decide (energy me - ENERGY_LOSS_PER_TURN cfg ≤ 0)) as [He|He].
  { erewrite decide_and_act_dies by done. left.
    cbn [world_of agents environment put set_agents].
    rewrite !(stock_insert _ _ _ me) by done. cbn. lia. }
  destruct (decide_and_act_precise cfg self all_agents w me H Ha ltac:(lia))
    as (action & mem & me' & Hagents & _ & Heff & _).
  cbv zeta in Hagents, Heff. rewrite Hagents.
  rewrite !(stock_insert _ _ _ me) by done.
  cbn [inventory set_memory].
  inversion Heff as [Hme Henv|d p Hnew Hocc Hne Hme Henv|k r Hcell Hadd Hme Henv
                     |Hred Hme Henv|Hgreen Hme Henv].
  - left. simp_inv. lia.
  - left. simp_inv. lia.
  - rewrite !markers_clear_cell. left.
    unfold entered in Hcell, Hadd. cbn [position inventory set_actions_taken
      set_energy set_step_count fst snd] in Hcell, Hadd.
    rewrite Hcell. unfold resources_add in Hadd.
    repeat case_decide; simplify_eq; simp_inv; lia.
  - right; left. simp_inv. lia.
  - right; right. simp_inv. lia.
Qed.

(** ** The loop of the agents' steps *)

Lemma random_step_returns cfg self all_agents w :
  RAND_MODE cfg = 1 → (self < length (agents w))%nat →
  ∃ res w',
    decide_and_act cfg self all_agents w = Returned res w' ∧
    length (agents w') = length (agents w) ∧
    llm_requests w' = llm_requests w ∧ llm_responses w' = llm_responses w ∧
    market w' = market w.
Proof.
  intros Hmode Hself.
  destruct (lookup_lt_is_Some_2 (agents w) self Hself) as [me H].
  destruct (alive me) eqn:Ha.
  2: { exists "inactive", w. by erewrite decide_and_act_dead. }
  destruct (decide (energy me - ENERGY_LOSS_PER_TURN cfg ≤ 0)) as [He|He].
  { eexists _, _. split; [by apply decide_and_act_dies|].
    cbn. by rewrite length_insert. }
  rewrite (decide_and_act_random cfg self all_agents w me H Ha ltac:(lia) Hmode).
  set (me1 := set_energy _ _).
  destruct (_random_action_precise cfg self
              (occupied_positions (agents w) self all_agents) (put self me1 w) me1)
    as (res & action & mem & me' & env' & r & Hrun & _); [lookup_agent|].
  eexists _, _. split; [exact Hrun|]. cbn. by rewrite !length_insert.
Qed.

(** X19.  In random mode the loop in which the agents act always
    returns, with one outcome for each entry of the roster: no step
    raises an exception and none consults the decision backend; the
    market is left alone. *)
Theorem random_action_phase_returns cfg roster w :
  RAND_MODE cfg = 1 →
  Forall (λ i, (i < length (agents w))%nat) roster →
  ∃ outcomes w',
    action_phase cfg roster w = Returned outcomes w' ∧
    length outcomes = length roster ∧
    length (agents w') = length (agents w) ∧
    llm_requests w' = llm_requests w ∧ llm_responses w' = llm_responses w ∧
    market w' = market w.
Proof.
  intros Hmode Hroster. unfold action_phase.
  assert (∀ (xs : list nat) outcomes w0,
            xs ⊆ roster →
            length (agents w0) = length (agents w) →
            llm_requests w0 = llm_requests w → llm_responses w0 = llm_responses w →
            market w0 = market w →
            ∃ outcomes' w',
              for_ xs (λ agent outcomes,
                a ← deref agent;
                if alive a then
                  action_result ← decide_and_act cfg agent roster;
                  mret (outcomes ++ [action_result])
                else mret (outcomes ++ ["inactive"])) outcomes w0
              = Returned outcomes' w' ∧
              length outcomes' = (length outcomes + length xs)%nat ∧
              length (agents w') = length (agents w) ∧
              llm_requests w' = llm_requests w ∧
              llm_responses w' = llm_responses w ∧
              market w' = market w) as Hloop.
  { induction xs as [|agent xs IH]; intros outcomes w0 Hsub Hlen Hreq Hresp Hmarket.
    { exists outcomes, w0. cbn. split; [done|]. split; [lia|done]. }
    rewrite Forall_forall in Hroster.
    assert (agent < length (agents w0))%nat as Hagent.
    { rewrite Hlen. apply Hroster, Hsub. by left. }
    destruct (lookup_lt_is_Some_2 (agents w0) agent Hagent) as [a Ha].
    assert (∃ res w1,
              (a ← deref agent;
               if alive a then
                 action_result ← decide_and_act cfg agent roster;
                 mret (outcomes ++ [action_result])
               else mret (outcomes ++ ["inactive"])) w0
              = Returned (outcomes ++ [res]) w1 ∧
              length (agents w1) = length (agents w) ∧
              llm_requests w1 = llm_requests w ∧
              llm_responses w1 = llm_responses w ∧
              market w1 = market w) as (res & w1 & Hbody & Hlen1 & Hreq1 & Hresp1 & Hm1).
    { erewrite bind_Returned by (by apply deref_Some).
      destruct (alive a).
      - destruct (random_step_returns cfg agent roster w0 Hmode Hagent)
          as (res & w1 & Hrun & ? & ? & ? & ?).
        exists res, w1. erewrite bind_Returned by exact Hrun.
        repeat split; congruence.
      - by exists "inactive", w0. }
    destruct (IH (outcomes ++ [res]) w1) as (outcomes' & w' & Hrun & Hout & Hrest);
      try done.
    { intros i Hi. apply Hsub. by right. }
    exists outcomes', w'. cbn [for_].
    erewrite bind_Returned by exact Hbody.
    split; [exact Hrun|]. split; [|done].
    rewrite Hout, length_app. cbn. lia. }
  destruct (Hloop roster [] w) as (outcomes & w' & Hrun & Hout & Hrest); try done.
  by exists outcomes, w'.
Qed.

Lemma random_action_phase_returns_witness :
  ∃ outcomes w',
    action_phase {| ENERGY_LOSS_PER_TURN := 1; AGENT_MEMORY_SIZE := 5;
                    TRADE_RANGE := 1; RAND_MODE := 1 |} [0; 1]%nat (two_traders [])
      = Returned outcomes w' ∧
    length outcomes = 2%nat.
Proof.
  destruct (random_action_phase_returns
              {| ENERGY_LOSS_PER_TURN := 1; AGENT_MEMORY_SIZE := 5;
                 TRADE_RANGE := 1; RAND_MODE := 1 |} [0; 1]%nat (two_traders []))
    as (outcomes & w' & Hrun & Hout & _);
    [reflexivity|repeat constructor; cbn; lia|].
  by exists outcomes, w'.
Defined.

(** ** The agents that [main] makes *)

Lemma agent_label_inj i j : agent_label i = agent_label j → i = j.
Proof.
  unfold agent_label, str_int. intros Heq.
  apply (inj (String.app "Agent")) in Heq. apply (inj pretty) in Heq. lia.
Qed.

Lemma base_configs_lookup i :
  base_configs !! (i mod length base_configs)%nat
  = Some {| red := 4 - Z.of_nat (i mod 5); green := Z.of_nat (i mod 5) |}.
Proof.
  cbn [length base_configs].
  pose proof (Nat.mod_upper_bound i 5 ltac:(lia)) as Hlt.
  destruct (i mod 5)%nat as [|[|[|[|[|k]]]]]; try done. lia.
Qed.

Lemma build_agent_configs_lookup (n : nat) rate i :
  foldl (λ configs i,
    match base_configs !! (i mod length base_configs)%nat with
    | Some base_config =>
        <[agent_label i :=
            {| red := red base_config * rate;
               green := green base_config * rate |}]> configs
    | None => configs
    end) (∅ : gmap string Resources) (range n) !! agent_label i
  = if decide (i < n)%nat
    then Some {| red := (4 - Z.of_nat (i mod 5)) * rate;
                 green := Z.of_nat (i mod 5) * rate |}
    else None.
Proof.
  induction n as [|n IH].
  { rewrite decide_False by lia. apply lookup_empty. }
  unfold range in *. rewrite seq_S, foldl_app. cbn [foldl Nat.add].
  rewrite base_configs_lookup. cbn [red green].
  destruct (decide (i = n)) as [->|Hne].
  - rewrite lookup_insert_eq. by rewrite decide_True by lia.
  - rewrite lookup_insert_ne by (intros Heq; by apply agent_label_inj in Heq).
    rewrite IH. repeat case_decide; try done; lia.
Qed.

(** X20.  The consumption rates that [main] configures.  The agents are
    named Agent1, Agent2, and so on, and the agent of index [i] gets the
    pattern of index [i mod 5] of the five base patterns, times the
    consumption rate: [4 - i mod 5] times the rate for red and [i mod 5]
    times the rate for green, in all four times the rate.  No name beyond
    the number of agents is configured. *)
Theorem agent_configs_cycle NUM_AGENTS CONSUMPTION_RATE i :
  let configs := build_agent_configs NUM_AGENTS CONSUMPTION_RATE in
  (Z.of_nat i < NUM_AGENTS →
   ∃ rates, configs !! agent_label i = Some rates ∧
     red rates = (4 - Z.of_nat (i mod 5)) * CONSUMPTION_RATE ∧
     green rates = Z.of_nat (i mod 5) * CONSUMPTION_RATE ∧
     red rates + green rates = 4 * CONSUMPTION_RATE) ∧
  (NUM_AGENTS ≤ Z.of_nat i → configs !! agent_label i = None).
Proof.
  cbv zeta. unfold build_agent_configs. rewrite build_agent_configs_lookup.
  split.
  - intros Hi. rewrite decide_True by lia. eexists. split; [done|]. cbn. lia.
  - intros Hi. by rewrite decide_False by lia.
Qed.

Lemma agent_configs_cycle_witness :
  build_agent_configs 7 2 !! "Agent7" = Some {| red := 6; green := 2 |}.
Proof.
  destruct (proj1 (agent_configs_cycle 7 2 6) ltac:(lia))
    as ([r g] & Hlookup & Hr & Hg & _).
  cbn in Hr, Hg. subst r g. exact Hlookup.
Defined.

Lemma make_agents_lookup configs inv e positions N l i a :
  make_agents configs inv e positions N = Some l → l !! i = Some a →
  ∃ p, positions !! i = Some p ∧ a = init_agent configs inv e (agent_label i) p.
Proof.
  unfold make_agents. intros Hl Ha. apply mapM_Some in Hl.
  destruct (Forall2_lookup_r _ _ _ _ _ Hl Ha) as (j & Hj & Hf).
  unfold range in Hj. apply lookup_seq in Hj as [-> _]. cbn in Hf.
  destruct (positions !! i) as [p|]; [|done]. injection Hf as <-. by exists p.
Qed.

Lemma make_agents_length configs inv e positions N l :
  make_agents configs inv e positions N = Some l → length l = Z.to_nat N.
Proof.
  unfold make_agents. intros Hl. apply mapM_Some in Hl.
  apply Forall2_length in Hl. unfold range in Hl. by rewrite length_seq in Hl.
Qed.

(** X21.  The agents of a run.  If there is a start position for each,
    [main] makes [NUM_AGENTS] agents, and the agent of index [i] is
    alive, named Agent(i+1), stands on the position of index [i] and has
    the rates of the pattern of index [i mod 5].  With a positive
    consumption rate its type is red for the patterns 0 and 1, balanced
    for pattern 2 and green for the patterns 3 and 4; with a rate of zero
    every agent is balanced and gains nothing from eating; with a
    negative rate the types are the other way round.  The names differ,
    so the trading phase finds every agent under its name. *)
Theorem made_agents_cycle_through_types NUM_AGENTS CONSUMPTION_RATE inv e positions :
  (Z.to_nat NUM_AGENTS ≤ length positions)%nat →
  ∃ l,
    make_agents (build_agent_configs NUM_AGENTS CONSUMPTION_RATE) inv e positions
      NUM_AGENTS = Some l ∧
    length l = Z.to_nat NUM_AGENTS ∧
    ∀ i a, l !! i = Some a →
      name a = agent_label i ∧ positions !! i = Some (position a) ∧
      alive a = true ∧ inventory a = inv ∧ energy a = e ∧
      consumption_rates a
      = {| red := (4 - Z.of_nat (i mod 5)) * CONSUMPTION_RATE;
           green := Z.of_nat (i mod 5) * CONSUMPTION_RATE |} ∧
      (0 < CONSUMPTION_RATE →
       type a = if decide (i mod 5 < 2)%nat then "red"
                else if decide (i mod 5 = 2)%nat then "balanced" else "green") ∧
      (CONSUMPTION_RATE = 0 → type a = "balanced") ∧
      (CONSUMPTION_RATE < 0 →
       type a = if decide (i mod 5 < 2)%nat then "green"
                else if decide (i mod 5 = 2)%nat then "balanced" else "red") ∧
      build_agents_dict l (range (length l)) !! name a = Some i.
Proof.
  intros Hpos.
  destruct (make_agents (build_agent_configs NUM_AGENTS CONSUMPTION_RATE) inv e
              positions NUM_AGENTS) as [l|] eqn:Hl; cycle 1.
  { exfalso. unfold make_agents in Hl.
    apply eq_None_not_Some in Hl. apply Hl. apply mapM_is_Some.
    apply Forall_forall. intros i Hi. unfold range in Hi.
    apply elem_of_seq in Hi as [_ Hi].
    destruct (lookup_lt_is_Some_2 positions i) as [p Hp]; [lia|].
    unfold compose. rewrite Hp. by eexists. }
  exists l. split; [done|].
  pose proof (make_agents_length _ _ _ _ _ _ Hl) as Hlen. split; [done|].
  intros i a Ha.
  destruct (make_agents_lookup _ _ _ _ _ _ _ _ Hl Ha) as (p & Hp & ->).
  assert (i < Z.to_nat NUM_AGENTS)%nat as Hi.
  { rewrite <- Hlen. by eapply lookup_lt_Some. }
  assert (consumption_rates
            (init_agent (build_agent_configs NUM_AGENTS CONSUMPTION_RATE) inv e
               (agent_label i) p)
          = {| red := (4 - Z.of_nat (i mod 5)) * CONSUMPTION_RATE;
               green := Z.of_nat (i mod 5) * CONSUMPTION_RATE |}) as Hrates.
  { cbn [consumption_rates init_agent]. unfold build_agent_configs.
    rewrite build_agent_configs_lookup. by rewrite decide_True. }
  pose proof (Nat.mod_upper_bound i 5 ltac:(lia)) as Hmod.
  repeat (split; [done|]).
  unfold type. rewrite Hrates. cbn [red green init_agent name].
  split; [|split; [|split]].
  - intros Hrate. repeat case_decide; try done; nia.
  - intros ->. repeat case_decide; try done; lia.
  - intros Hrate. repeat case_decide; try done; nia.
  - rewrite Hlen. unfold range.
    replace (Z.to_nat NUM_AGENTS) with (i + S (Z.to_nat NUM_AGENTS - S i))%nat by lia.
    rewrite seq_app. cbn [seq Nat.add].
    rewrite build_agents_dict_app. cbn [foldl]. rewrite Ha. cbn [name init_agent].
    rewrite foldl_insert_other; [apply lookup_insert_eq|].
    intros j b Hj Hb. apply elem_of_seq in Hj as [Hj _].
    destruct (make_agents_lookup _ _ _ _ _ _ _ _ Hl Hb) as (q & _ & ->).
    cbn [name init_agent]. intros Heq. apply agent_label_inj in Heq. lia.
Qed.

Lemma made_agents_cycle_through_types_witness :
  ∃ l, make_agents (build_agent_configs 2 1) {| red := 0; green := 0 |} 20
         [(0, 3); (0, 4)] 2 = Some l ∧
       type <$> l = ["red"; "red"].
Proof.
  destruct (made_agents_cycle_through_types 2 1 {| red := 0; green := 0 |} 20
              [(0, 3); (0, 4)]) as (l & Hl & _); [cbn; lia|].
  exists l. split; [exact Hl|].
  vm_compute in Hl. injection Hl as <-. reflexivity.
Defined.

(** ** The start positions *)

Lemma randint_cases a b w :
  (b < a → randint a b w = Returned None w) ∧
  (a ≤ b → ∃ v r, randint a b w = Returned (Some v) (set_rng r w) ∧ a ≤ v ≤ b).
Proof.
  unfold randint. split; intros Hab.
  - by rewrite decide_True.
  - rewrite decide_False by lia.
    destruct (randbelow_bound (Z.to_nat (b - a + 1)) w ltac:(lia)) as (i & r & Hi & Hr).
    exists (a + Z.of_nat i), r. split; [|lia].
    by erewrite bind_Returned by exact Hr.
Qed.

Lemma size_list_to_set_le (l : list (Z * Z)) :
  (size (list_to_set l : gset (Z * Z)) ≤ length l)%nat.
Proof.
  induction l as [|p l IH]; [by rewrite list_to_set_nil, size_empty|].
  rewrite list_to_set_cons, size_union_alt, size_singleton. cbn [length].
  assert (size (list_to_set l ∖ {[p]} : gset (Z * Z))
          ≤ size (list_to_set l : gset (Z * Z)))%nat as Hle.
  { apply subseteq_size, subseteq_difference_l. done. }
  lia.
Qed.

Lemma size_on_grid (grid_size : Z) (s : gset (Z * Z)) :
  (∀ p, p ∈ s → on_grid grid_size p) →
  Z.of_nat (size s) ≤ grid_size * grid_size.
Proof.
  intros Hs.
  assert (s ⊆ list_to_set (cprod (seqZ 0 grid_size) (seqZ 0 grid_size))) as Hsub.
  { intros p Hp. apply elem_of_list_to_set, list_elem_of_cprod.
    destruct (Hs p Hp) as [Hx Hy]. rewrite !elem_of_seqZ.
    rewrite !Z.add_0_l. done. }
  apply subseteq_size in Hsub.
  pose proof (size_list_to_set_le (cprod (seqZ 0 grid_size) (seqZ 0 grid_size))) as Hle.
  rewrite list_cprod_list_prod, length_prod, !length_seqZ in Hle.
  rewrite list_cprod_list_prod in Hsub.
  assert (size s ≤ Z.to_nat grid_size * Z.to_nat grid_size)%nat as Hn
    by (etrans; [exact Hsub|exact Hle]).
  assert (Z.of_nat (size s) ≤ Z.of_nat (Z.to_nat grid_size * Z.to_nat grid_size))
    as Hz by lia.
  rewrite Nat2Z.inj_mul in Hz.
  destruct (decide (0 ≤ grid_size)).
  - by rewrite Z2Nat.id in Hz.
  - rewrite Z2Nat.nonpos in Hz by lia. nia.
Qed.

Lemma generate_unique_positions_from_spec fuel num_agents grid_size positions w :
  (∀ p, p ∈ positions → on_grid grid_size p) →
  ∃ out r,
    generate_unique_positions_from fuel num_agents grid_size positions w
      = Returned out (set_rng r w) ∧
    match out with
    | Done s =>
        positions ⊆ s ∧ (∀ p, p ∈ s → on_grid grid_size p) ∧
        Z.of_nat (size s) = Z.max (Z.of_nat (size positions)) num_agents
    | ValueError => grid_size ≤ 0 ∧ Z.of_nat (size positions) < num_agents
    | OutOfFuel => Z.of_nat (size positions) < num_agents
    end.
Proof.
  revert positions w. induction fuel as [|fuel IH]; intros positions w Hgrid.
  - cbn [generate_unique_positions_from]. case_decide as Hsize.
    + exists OutOfFuel, (rng w). by rewrite set_rng_same.
    + exists (Done positions), (rng w). rewrite set_rng_same.
      split; [done|]. split; [done|]. split; [done|]. lia.
  - cbn [generate_unique_positions_from]. case_decide as Hsize; cycle 1.
    { exists (Done positions), (rng w). rewrite set_rng_same.
      split; [done|]. split; [done|]. split; [done|]. lia. }
    destruct (decide (grid_size - 1 < 0)) as [Hempty|Hcells].
    { exists ValueError, (rng w). rewrite set_rng_same. split; [|lia].
      by erewrite bind_Returned
        by (apply (proj1 (randint_cases 0 (grid_size - 1) w)); lia). }
    destruct (proj2 (randint_cases 0 (grid_size - 1) w) ltac:(lia))
      as (x & r1 & Hx & Hxb).
    destruct (proj2 (randint_cases 0 (grid_size - 1) (set_rng r1 w)) ltac:(lia))
      as (y & r2 & Hy & Hyb).
    destruct (IH ({[ (x, y) ]} ∪ positions) (set_rng r2 w)) as (out & r & Hrun & Hout).
    { intros p [->%elem_of_singleton|Hp]%elem_of_union; [|by apply Hgrid].
      split; cbn; lia. }
    exists out, r. split.
    { erewrite bind_Returned by exact Hx. cbv beta iota.
      erewrite bind_Returned by exact Hy. exact Hrun. }
    assert (size positions ≤ size ({[ (x, y) ]} ∪ positions)
            ≤ S (size positions))%nat as Hgrow.
    { split; [apply subseteq_size, union_subseteq_r|].
      rewrite size_union_alt, size_singleton.
      assert (size (positions ∖ {[(x, y)]}) ≤ size positions)%nat as Hle.
      { apply subseteq_size, subseteq_difference_l. done. }
      lia. }
    destruct out as [s| |].
    + destruct Hout as (Hsub & Hon & Hs).
      split; [etrans; [apply union_subseteq_r|exact Hsub]|]. split; [done|]. lia.
    + destruct Hout. split; [done|lia].
    + lia.
Qed.

(** X22.  generate_unique_positions, run for any number of rounds of its
    loop on any supply of random draws.  It touches nothing but the
    draws.  If it returns, the positions are as many as agents were asked
    for, none if that number is negative, they are pairwise distinct,
    being a set, and each lies on the grid.  It raises [ValueError] only
    for a grid of size zero or less when at least one agent is asked for.
    When no agent is asked for it returns at once, whatever the size of
    the grid.  A cell drawn a second time costs a round more: two agents
    are placed in two rounds on the draws 0, 3, 0, 4 and in three on the
    draws 0, 3, 0, 3, 0, 4. *)
Theorem unique_positions_lie_on_the_grid :
  (∀ fuel num_agents grid_size w,
     ∃ out r,
       generate_unique_positions fuel num_agents grid_size w
         = Returned out (set_rng r w) ∧
       match out with
       | Done s =>
           Z.of_nat (size s) = Z.max 0 num_agents ∧ ∀ p, p ∈ s → on_grid grid_size p
       | ValueError => grid_size ≤ 0 ∧ 0 < num_agents
       | OutOfFuel => 0 < num_agents
       end ∧
       (num_agents ≤ 0 → out = Done ∅)) ∧
  generate_unique_positions 2 2 5 (example_world [] [] [0; 3; 0; 4]%nat)
    = Returned (Done {[ (0, 3); (0, 4) ]}) (example_world [] [] []) ∧
  generate_unique_positions 2 2 5 (example_world [] [] [0; 3; 0; 3; 0; 4]%nat)
    = Returned OutOfFuel (example_world [] [] [0; 4]%nat) ∧
  generate_unique_positions 3 2 5 (example_world [] [] [0; 3; 0; 3; 0; 4]%nat)
    = Returned (Done {[ (0, 3); (0, 4) ]}) (example_world [] [] []).
Proof.
  split; [|split; [|split]]; [|by vm_compute..].
  intros fuel num_agents grid_size w.
  destruct (generate_unique_positions_from_spec fuel num_agents grid_size ∅ w)
    as (out & r & Hrun & Hout); [set_solver|].
  exists out, r. split; [exact Hrun|]. rewrite size_empty in Hout. split.
  - destruct out as [s| |]; [|done..]. destruct Hout as (_ & Hon & Hs).
    split; [lia|done].
  - intros Hnone. unfold generate_unique_positions in Hrun.
    destruct fuel; cbn [generate_unique_positions_from] in Hrun;
      rewrite size_empty, decide_False in Hrun by lia; by injection Hrun as <- _.
Qed.

(** X23.  With more agents than the grid has cells
    generate_unique_positions never returns: however many rounds its loop
    is given and whatever the random draws, it has not found the
    positions asked for, or has raised [ValueError]. *)
Theorem too_many_agents_are_never_placed fuel num_agents grid_size w :
  grid_size * grid_size < num_agents →
  ∃ out r,
    generate_unique_positions fuel num_agents grid_size w = Returned out (set_rng r w) ∧
    (out = OutOfFuel ∨ out = ValueError ∧ grid_size ≤ 0).
Proof.
  intros Hmany.
  destruct (generate_unique_positions_from_spec fuel num_agents grid_size ∅ w)
    as (out & r & Hrun & Hout); [set_solver|].
  exists out, r. split; [exact Hrun|].
  destruct out as [s| |]; [|right; by destruct Hout|by left].
  destruct Hout as (_ & Hon & Hs). rewrite size_empty in Hs.
  pose proof (size_on_grid grid_size s Hon). lia.
Qed.

Lemma too_many_agents_are_never_placed_witness :
  ∃ r, generate_unique_positions 100 5 2 (example_world [] [] [0; 1; 1; 0; 1; 1; 0; 0]%nat)
       = Returned OutOfFuel (set_rng r (example_world [] [] [0; 1; 1; 0; 1; 1; 0; 0]%nat)).
Proof.
  destruct (too_many_agents_are_never_placed 100 5 2
              (example_world [] [] [0; 1; 1; 0; 1; 1; 0; 0]%nat))
    as (out & r & Hrun & [->|[_ Hgrid]]); [lia|by exists r|lia].
Defined.

(** ** The summary of the market *)

Lemma run_call_counts c w added executed w' :
  run_call c w = Returned (added, executed) w' →
  Z.of_nat (length (trade_log (market w')))
  = Z.of_nat (length (trade_log (market w))) + added + executed ∧
  Z.of_nat (length (completed_trades (market w')))
  = Z.of_nat (length (completed_trades (market w))) + executed.
Proof.
  destruct c as [offer|offer|offer agents_dict|]; cbn [run_call].
  - intros [= <- <- <-]. cbn. rewrite length_app. cbn. lia.
  - intros [= <- <- <-]. cbn. lia.
  - intros Hrun. apply bind_Returned_inv in Hrun as (success & w1 & Hex & Hret).
    injection Hret as <- <- <-.
    destruct (execute_trade_cases offer agents_dict w)
      as [Hf|[[e He]|(io & it & o & t & _ & _ & _ & _ & _ & _ & _ & Ht)]].
    + rewrite Hf in Hex. injection Hex as <- <-. lia.
    + by rewrite He in Hex.
    + rewrite Ht in Hex. injection Hex as <- <-. cbn. rewrite !length_app. cbn. lia.
  - intros [= <- <- <-]. cbn. lia.
Qed.

(** X24.  What the summary of the market counts.  Over any sequence of
    calls that add, remove, execute or clear offers, the entry
    [total_offers] of the summary grows by the number of offers added
    and, besides, by the number of trades executed, since it is the
    length of the log and an executed trade is logged as well; the entry
    [completed_trades] grows by the number of trades executed.  So
    [total_offers] less [completed_trades] is the number of offers made. *)
Theorem summary_counts_executed_trades_as_offers cs w added executed w' :
  run_calls cs w = Returned (added, executed) w' →
  let before := get_trade_summary (market w) in
  let after := get_trade_summary (market w') in
  Summary.total_offers after = Summary.total_offers before + added + executed ∧
  Summary.completed_trades after = Summary.completed_trades before + executed ∧
  Summary.trade_log after = trade_log (market w').
Proof.
  cbv zeta. cbn [get_trade_summary Summary.total_offers Summary.completed_trades
                 Summary.trade_log].
  revert w added executed. induction cs as [|c cs IH]; intros w added executed Hrun.
  - injection Hrun as <- <- <-. split; [lia|]. split; [lia|done].
  - cbn [run_calls] in Hrun.
    apply bind_Returned_inv in Hrun as ([a1 e1] & w1 & Hc & Hrun).
    apply bind_Returned_inv in Hrun as ([a2 e2] & w2 & Hcs & Hret).
    cbn in Hret. injection Hret as <- <- <-.
    apply run_call_counts in Hc as [Hlog Hdone].
    apply IH in Hcs as (Hlog' & Hdone' & _). split; [lia|]. split; [lia|done].
Qed.

Lemma summary_counts_executed_trades_as_offers_witness :
  ∃ w',
    run_calls [call_add_offer offer_1_to_2; call_execute_trade offer_1_to_2 example_dict]
      (two_traders []) = Returned (1, 1) w' ∧
    Summary.total_offers (get_trade_summary (market w')) = 0 + 1 + 1.
Proof.
  eexists. split; [reflexivity|].
  refine (proj1 (summary_counts_executed_trades_as_offers
            [call_add_offer offer_1_to_2; call_execute_trade offer_1_to_2 example_dict]
            (two_traders []) 1 1 _ _)).
  reflexivity.
Defined.
